(** * J2KSwift benchmark scripts: a shallow embedding

    This development embeds the two Python scripts of the repository,
    [Scripts/compare_performance.py] and [Scripts/profile_encoder.py],
    and proves properties of their benchmark statistics, of the
    candidate-tool adapter, of the corpus generator and of the report
    renderers.

    Python [float]s are IEEE-754 binary64 numbers: they are modelled with
    the specification floats of the standard library ([spec_float] at
    precision 53), so every definition below evaluates.  Python [int]s
    are [Z].  Exceptions are values of an error monad. *)

From Stdlib Require Import ZArith QArith Qcanon Qpower Lia Ascii String.
From Stdlib Require Import Floats.SpecFloat.
From stdpp Require Import base option list sorting strings gmap pretty.

Local Open Scope Z_scope.

(** ** Exceptions and the error monad *)

Inductive exn :=
  | ZeroDivisionError
  | OverflowError
  | StatisticsError
  | AttributeError
  | TypeError
  | ValueError
  | KeyError (key : string)
  | RuntimeError (msg : string)
  | OSError.

Inductive result (A : Type) :=
  | Ok (a : A)
  | Raise (e : exn).
Arguments Ok {A} a.
Arguments Raise {A} e.

#[global] Instance result_ret : MRet result := λ A a, Ok a.
#[global] Instance result_bind : MBind result := λ A B f m,
  match m with Ok a => f a | Raise e => Raise e end.
#[global] Instance result_fmap : FMap result := λ A B f m,
  match m with Ok a => Ok (f a) | Raise e => Raise e end.

Definition raises {A} (m : result A) : bool :=
  match m with Ok _ => false | Raise _ => true end.

(** [mapR f l] is the list comprehension [[f x for x in l]] when [f] may
    raise: elements are evaluated left to right and the first exception
    escapes. *)
Fixpoint mapR {A B} (f : A → result B) (l : list A) : result (list B) :=
  match l with
  | [] => Ok []
  | x :: l' => y ← f x; ys ← mapR f l'; Ok (y :: ys)
  end.

(** ** Python floats (binary64) *)

Module Float.

Definition prec : Z := 53.
Definition emax : Z := 1024.

Definition float := spec_float.

Definition zero : float := S754_zero false.

Definition add : float → float → float := SFadd prec emax.
Definition sub : float → float → float := SFsub prec emax.
Definition mul : float → float → float := SFmul prec emax.
Definition ltb : float → float → bool := SFltb.
Definition leb : float → float → bool := SFleb.
Definition eqb : float → float → bool := SFeqb.

Definition is_finite (x : float) : bool :=
  match x with
  | S754_zero _ | S754_finite _ _ _ => true
  | _ => false
  end.

Definition is_zero (x : float) : bool :=
  match x with S754_zero _ => true | _ => false end.

Definition is_nan (x : float) : bool :=
  match x with S754_nan => true | _ => false end.

Definition sign (x : float) : bool :=
  match x with
  | S754_zero s | S754_infinity s | S754_finite s _ _ => s
  | S754_nan => false
  end.

(** The quotient [n / d] of two positive integers, rounded to the
    nearest binary64 number, ties to even; an infinity when it is too
    large. *)
Definition round_ratio (s : bool) (n d : positive) : float :=
  let '(m, e, l) := SFdiv_core_binary prec emax (Zpos n) 0 (Zpos d) 0 in
  binary_round_aux prec emax s m e l.

(** [int / int]: true division of Python integers. *)
Definition int_truediv (a b : Z) : result float :=
  match b with
  | Z0 => Raise ZeroDivisionError
  | _ =>
    let s := xorb (a <? 0) (b <? 0) in
    match a with
    | Z0 => Ok (S754_zero s)
    | _ =>
      let r := round_ratio s (Z.to_pos (Z.abs a)) (Z.to_pos (Z.abs b)) in
      if is_finite r then Ok r else Raise OverflowError
    end
  end.

(** [float(n)] for a Python integer. *)
Definition of_int (n : Z) : result float := int_truediv n 1.

(** A decimal literal such as [0.9], written as the ratio [9/10]: the
    lexer rounds it to the nearest binary64 number. *)
Definition lit (n : Z) (d : positive) : float :=
  match n with
  | Z0 => zero
  | Zpos p => round_ratio false p d
  | Zneg p => round_ratio true p d
  end.

(** [x / y] on floats: division by a zero raises, every other case is
    the IEEE quotient. *)
Definition truediv (x y : float) : result float :=
  if is_zero y then Raise ZeroDivisionError
  else Ok (SFdiv prec emax x y).

(** The exact value of a finite float as a fraction. *)
Definition to_Qc (x : float) : Qc :=
  match x with
  | S754_finite s m e =>
    let v := match e with
             | Zneg k => Q2Qc (Qmake (Zpos m) (2 ^ k)%positive)
             | _ => Q2Qc (inject_Z (Zpos m * 2 ^ e))
             end in
    if s then (- v)%Qc else v
  | _ => Q2Qc 0
  end.

(** [float(Fraction)]: [numerator / denominator] as an integer true
    division. *)
Definition of_Qc (q : Qc) : result float :=
  int_truediv (Qnum (this q)) (Zpos (Qden (this q))).

End Float.

Import Float.

(** ** The [statistics] module of the Python standard library

    [mean], [median] and [stdev] as the library documents and computes
    them on lists of floats: sums are taken exactly, over fractions, and
    rounded once at the end. *)

Module statistics.

Definition Qc_of_nat (n : nat) : Qc := Q2Qc (inject_Z (Z.of_nat n)).

Definition Qc_sum (l : list Qc) : Qc := foldr Qcplus (Q2Qc 0) l.

(** The float sum, left to right, of the entries that are not finite:
    what [_sum] keeps when some entry is an infinity or a NaN. *)
Definition special_total (data : list float) : float :=
  foldl add zero (filter (λ x, is_finite x = false) data).

(** [float(n)] for a length [n >= 1]. *)
Definition float_of_count (n : nat) : float :=
  lit (Z.of_nat n) 1.

Definition mean (data : list float) : result float :=
  match data with
  | [] => Raise StatisticsError
  | _ =>
    let n := length data in
    if forallb is_finite data
    then of_Qc (Qc_sum (to_Qc <$> data) / Qc_of_nat n)%Qc
    else Ok (SFdiv prec emax (special_total data) (float_of_count n))
  end.

(** [sorted]: a stable insertion sort by [<]. On a list without a NaN
    this is the list Python's [sorted] returns; with a NaN among the
    data [<] is no order, and the list Python returns depends on the
    runs its merge sort finds, which is not modelled. *)
Fixpoint insert_sorted (x : float) (l : list float) : list float :=
  match l with
  | [] => [x]
  | y :: l' => if ltb x y then x :: l else y :: insert_sorted x l'
  end.

Definition sorted (l : list float) : list float :=
  foldl (λ acc x, insert_sorted x acc) [] l.

Definition two : float := lit 2 1.

Definition median (data : list float) : result float :=
  let data := sorted data in
  let n := length data in
  if (n =? 0)%nat then Raise StatisticsError
  else if (n mod 2 =? 1)%nat then Ok (nth (n / 2) data zero)
  else
    let i := (n / 2)%nat in
    truediv (add (nth (i - 1) data zero) (nth i data zero)) two.

(** [int.bit_length]. *)
Definition bit_length (n : Z) : Z :=
  match n with
  | Z0 => 0
  | _ => Z.log2 (Z.abs n) + 1
  end.

(** Square root of [n/m], rounded to the nearest integer with
    round-to-odd. *)
Definition integer_sqrt_of_frac_rto (n m : Z) : Z :=
  let a := Z.sqrt (n / m) in
  Z.lor a (if a * a * m =? n then 0 else 1).

Definition sqrt_bit_width : Z := 2 * 53 + 3.

(** Square root of [n/m] as a float, correctly rounded. *)
Definition float_sqrt_of_frac (n m : Z) : result float :=
  let q := (bit_length n - bit_length m - sqrt_bit_width) / 2 in
  if 0 <=? q then
    int_truediv
      (Z.shiftl (integer_sqrt_of_frac_rto n (Z.shiftl m (2 * q))) q) 1
  else
    int_truediv
      (integer_sqrt_of_frac_rto (Z.shiftl n (-2 * q)) m)
      (Z.shiftl 1 (- q)).

(** The exact sum of squared deviations from the mean, as [_ss]
    computes it from the sum and the sum of squares. *)
Definition ss (data : list Qc) : Qc :=
  let count := Qc_of_nat (length data) in
  let sx := Qc_sum data in
  let sxx := Qc_sum ((λ x, x * x)%Qc <$> data) in
  match data with
  | [] => Q2Qc 0
  | _ => ((count * sxx - sx * sx) / count)%Qc
  end.

Definition stdev (data : list float) : result float :=
  let n := length data in
  if (n <? 2)%nat then Raise StatisticsError
  else if forallb is_finite data then
    let mss := (ss (to_Qc <$> data) / Qc_of_nat (n - 1))%Qc in
    float_sqrt_of_frac (Qnum (this mss)) (Zpos (Qden (this mss)))
  else Raise AttributeError.

End statistics.

(** ** The builtins [min] and [max] *)

Module builtins.

(** [min] and [max]: the first extremal element of a list, [ValueError]
    on an empty one. *)
Definition min (l : list float) : result float :=
  match l with
  | [] => Raise ValueError
  | x :: l' => Ok (foldl (λ cur item, if ltb item cur then item else cur) x l')
  end.

Definition max (l : list float) : result float :=
  match l with
  | [] => Raise ValueError
  | x :: l' => Ok (foldl (λ cur item, if ltb cur item then item else cur) x l')
  end.

End builtins.

(** ** compare_performance.py: [BenchmarkResult] *)

Record BenchmarkResult := mkBenchmarkResult {
  implementation : string;
  image_size : Z;
  operation : string;
  times : list float;
  compressed_size : option Z;
  memory_peak : option Z
}.

(** [BenchmarkResult(implementation, image_size, operation)]. *)
Definition BenchmarkResult_init (impl : string) (size : Z) (op : string)
  : BenchmarkResult :=
  mkBenchmarkResult impl size op [] None None.

Definition average (r : BenchmarkResult) : result float :=
  match times r with
  | [] => Ok zero
  | _ => statistics.mean (times r)
  end.

Definition median (r : BenchmarkResult) : result float :=
  match times r with
  | [] => Ok zero
  | _ => statistics.median (times r)
  end.

Definition std_dev (r : BenchmarkResult) : result float :=
  if (1 <? length (times r))%nat then statistics.stdev (times r)
  else Ok zero.

Definition min_time (r : BenchmarkResult) : result float :=
  match times r with
  | [] => Ok zero
  | _ => builtins.min (times r)
  end.

Definition max_time (r : BenchmarkResult) : result float :=
  match times r with
  | [] => Ok zero
  | _ => builtins.max (times r)
  end.

(** Throughput in megapixels per second. *)
Definition throughput (r : BenchmarkResult) : result float :=
  a ← average r;
  if ltb zero a then
    megapixels ← int_truediv (image_size r * image_size r) 1000000;
    a' ← average r;
    truediv megapixels a'
  else Ok zero.

Definition secs (l : list Z) : list float := (λ n, lit n 1) <$> l.

(** The sample variance in the words of the specification: the squared
    deviations from the arithmetic mean, summed and divided by [n - 1]
    (Bessel's correction). *)
Definition sample_variance (xs : list Qc) : Qc :=
  let n := statistics.Qc_of_nat (length xs) in
  let xbar := (statistics.Qc_sum xs / n)%Qc in
  (statistics.Qc_sum ((λ x, (x - xbar) * (x - xbar))%Qc <$> xs) / (n - 1))%Qc.

(** [x] is the square root of [v] to within [u]: the root lies between
    two fractions that are [u] apart, and [x] is one of the two. *)
Definition root_within (v x u : Q) : Prop :=
  ∃ lo : Q,
    (0 <= lo ∧ lo * lo <= v ∧ v < (lo + u) * (lo + u)
     ∧ (x == lo ∨ x == lo + u))%Q.

(** Half a unit in the last place of a float: [2 ^ (e - 1)] for a
    finite float of exponent [e], half the smallest positive float for
    a zero. *)
Definition half_ulp (x : float) : Q :=
  match x with
  | S754_finite _ _ e => (2 ^ (e - 1))%Q
  | _ => (2 ^ (-1075))%Q
  end.

(** The fraction [N/D] lies in [[m, m + 1)], where [m] is the mantissa
    of the record, and the round and sticky bits of the record tell
    where: at [m], below the middle, at the middle or above it. *)
Definition located (N D : Z) (mrs : shr_record) : Prop :=
  let R := N - shr_m mrs * D in
  0 ≤ shr_m mrs ∧ 0 ≤ R < D
  ∧ match shr_r mrs, shr_s mrs with
    | false, false => R = 0
    | false, true => 0 < 2 * R < D
    | true, false => 2 * R = D
    | true, true => D < 2 * R
    end.

(** ** Strings and number formatting *)

Definition blank : string := EmptyString.
Definition nl : string := String "010"%char EmptyString.

(** [sep.join(lines)]. *)
Definition join (sep : string) (lines : list string) : string :=
  String.concat sep lines.

(** [str(n)] and [f"{n}"] for an integer. *)
Definition str_int (n : Z) : string := pretty n.

Definition round_half_even (q : Qc) : Z :=
  let n := Qnum (this q) in
  let d := Zpos (Qden (this q)) in
  let k := n / d in
  match Z.compare (2 * (n mod d)) d with
  | Lt => k
  | Gt => k + 1
  | Eq => if Z.even k then k else k + 1
  end.

Fixpoint zeros (n : nat) : string :=
  match n with
  | O => EmptyString
  | S n' => String "0"%char (zeros n')
  end.

(** [f"{x:.pf}"]: fixed-point notation with [p] digits after the point,
    the exact binary value rounded half-to-even. *)
Definition format_f (p : nat) (x : float) : string :=
  match x with
  | S754_nan => "nan"
  | S754_infinity s => if s then "-inf" else "inf"
  | _ =>
    let scale := 10 ^ Z.of_nat p in
    let digits := round_half_even (to_Qc (SFabs x) * Q2Qc (inject_Z scale))%Qc in
    let int_part := pretty (digits / scale) in
    let frac := pretty (digits mod scale) in
    let frac_part :=
      match p with
      | O => EmptyString
      | _ => "." +:+ zeros (p - String.length frac) +:+ frac
      end in
    (if sign x then "-" else EmptyString) +:+ int_part +:+ frac_part
  end.

(** [| c1 | c2 | ... |]: one row of a markdown table. *)
Definition table_row (cells : list string) : string :=
  "| " +:+ join " | " cells +:+ " |".

(** ** compare_performance.py: the markdown report *)

(** A table row before rendering: the size and implementation it is
    about, and its cells, left to right. *)
Record row := mkRow {
  row_size : Z;
  row_implementation : string;
  row_cells : list string
}.

Definition render_row (r : row) : string := table_row (row_cells r).

(** [f"{x*1000:.pf}"]: seconds shown as milliseconds. *)
Definition ms (p : nat) (x : float) : string :=
  format_f p (mul x (lit 1000 1)).

Definition size_label (size : Z) : string :=
  str_int size +:+ "×" +:+ str_int size.

(** [next((r for r in rs if r.implementation == impl), None)]. *)
Definition find_impl (impl : string) (rs : list BenchmarkResult)
  : option BenchmarkResult :=
  head (filter (λ r, implementation r = impl) rs).

(** [sorted(set(r.image_size for r in rs))]. *)
Definition sorted_sizes (rs : list BenchmarkResult) : list Z :=
  merge_sort Z.le (remove_dups (image_size <$> rs)).

(** [openjpeg.average / j2kswift.average * 100]. *)
Definition relative_speed (openjpeg j2kswift : BenchmarkResult) : result float :=
  a ← average openjpeg;
  b ← average j2kswift;
  q ← truediv a b;
  Ok (mul q (lit 100 1)).

(** The cell ["vs OpenJPEG"] of a J2KSwift row. *)
Definition relative_cell (openjpeg : option BenchmarkResult)
    (j2kswift : BenchmarkResult) : result string :=
  match openjpeg with
  | Some o => p ← relative_speed o j2kswift; Ok (format_f 1 p +:+ "%")
  | None => Ok "N/A"
  end.

(** Truth value of an optional integer: [None] and [0] are false. *)
Definition truthy (o : option Z) : bool :=
  match o with
  | Some n => negb (n =? 0)
  | None => false
  end.

(** [f"{r.compressed_size / 1024:.1f}" if r.compressed_size else "N/A"]. *)
Definition size_kb (r : BenchmarkResult) : result string :=
  if truthy (compressed_size r) then
    kb ← int_truediv (default 0 (compressed_size r)) 1024;
    Ok (format_f 1 kb)
  else Ok "N/A".

(** The five metric cells shared by all rows. *)
Definition metric_cells (r : BenchmarkResult) : result (list string) :=
  a ← average r;
  m ← median r;
  lo ← min_time r;
  hi ← max_time r;
  t ← throughput r;
  Ok [ms 1 a; ms 1 m; ms 1 lo; ms 1 hi; format_f 2 t].

(** The rows of the encoding table for one size: J2KSwift, then
    OpenJPEG. *)
Definition encode_rows (encode_results : list BenchmarkResult) (size : Z)
  : result (list row) :=
  let size_results := filter (λ r, image_size r = size) encode_results in
  let openjpeg := find_impl "OpenJPEG" size_results in
  let j2kswift := find_impl "J2KSwift" size_results in
  r1 ← match j2kswift with
       | Some j =>
         relative ← relative_cell openjpeg j;
         kb ← size_kb j;
         cells ← metric_cells j;
         Ok [mkRow size "J2KSwift"
               ([size_label size; "J2KSwift"] ++ cells ++ [kb; relative])]
       | None => Ok []
       end;
  r2 ← match openjpeg with
       | Some o =>
         kb ← size_kb o;
         cells ← metric_cells o;
         Ok [mkRow size "OpenJPEG"
               ([size_label size; "OpenJPEG"] ++ cells ++ [kb; "100.0%"])]
       | None => Ok []
       end;
  Ok (r1 ++ r2).

(** The rows of the decoding table for one size. *)
Definition decode_rows (decode_results : list BenchmarkResult) (size : Z)
  : result (list row) :=
  let size_results := filter (λ r, image_size r = size) decode_results in
  let openjpeg := find_impl "OpenJPEG" size_results in
  let j2kswift := find_impl "J2KSwift" size_results in
  r1 ← match j2kswift with
       | Some j =>
         relative ← relative_cell openjpeg j;
         cells ← metric_cells j;
         Ok [mkRow size "J2KSwift"
               ([size_label size; "J2KSwift"] ++ cells ++ [relative])]
       | None => Ok []
       end;
  r2 ← match openjpeg with
       | Some o =>
         cells ← metric_cells o;
         Ok [mkRow size "OpenJPEG"
               ([size_label size; "OpenJPEG"] ++ cells ++ ["100.0%"])]
       | None => Ok []
       end;
  Ok (r1 ++ r2).

(** The loop [for size in sizes] over a table's rows. *)
Definition table_rows (rows_for : Z → result (list row)) (sizes : list Z)
  : result (list row) :=
  rows ← mapR rows_for sizes;
  Ok (List.concat rows).

Definition encode_results_of (results : list BenchmarkResult) :=
  filter (λ r, operation r = "encode") results.
Definition decode_results_of (results : list BenchmarkResult) :=
  filter (λ r, operation r = "decode") results.

Definition encode_table (results : list BenchmarkResult) : result (list row) :=
  let encode_results := encode_results_of results in
  table_rows (encode_rows encode_results) (sorted_sizes encode_results).

(** The decoding table loops over the sizes of the encode results. *)
Definition decode_table (results : list BenchmarkResult) : result (list row) :=
  table_rows (decode_rows (decode_results_of results))
             (sorted_sizes (encode_results_of results)).

(** [statistics.mean([r.average for r in rs if r.implementation == impl])]. *)
Definition mean_average (impl : string) (rs : list BenchmarkResult)
  : result float :=
  avgs ← mapR average (filter (λ r, implementation r = impl) rs);
  statistics.mean avgs.

(** [(opj / j2k) * 100 if j2k > 0 else 0]. *)
Definition speed_ratio (opj_avg j2k_avg : float) : result float :=
  if ltb zero j2k_avg then
    q ← truediv opj_avg j2k_avg; Ok (mul q (lit 100 1))
  else Ok zero.

Definition status (ratio : float) : string :=
  if leb (lit 80 1) ratio then "✅ PASS" else "❌ FAIL".

Definition decode_unavailable : string :=
  "- **Decoding**: J2KSwift decoder currently has errors preventing benchmark".

Definition target_line : string :=
  "  - Target: ≥80% (within 80% of OpenJPEG)".

Definition decoding_line (decode_ratio : float) : string :=
  "- **Decoding**: J2KSwift is " +:+ format_f 1 decode_ratio
    +:+ "% of OpenJPEG speed".

Definition summary (results : list BenchmarkResult) : result (list string) :=
  let encode_results := encode_results_of results in
  let decode_results := decode_results_of results in
  j2k_encode_avg ← mean_average "J2KSwift" encode_results;
  opj_encode_avg ← mean_average "OpenJPEG" encode_results;
  encode_ratio ← speed_ratio opj_encode_avg j2k_encode_avg;
  let j2k_decode_results := filter (λ r, implementation r = "J2KSwift") decode_results in
  let opj_decode_results := filter (λ r, implementation r = "OpenJPEG") decode_results in
  decode_ratio ←
    match j2k_decode_results, opj_decode_results with
    | _ :: _, _ :: _ =>
      j2k_decode_avg ← mean_average "J2KSwift" decode_results;
      opj_decode_avg ← mean_average "OpenJPEG" decode_results;
      speed_ratio opj_decode_avg j2k_decode_avg
    | _, _ => Ok zero
    end;
  Ok (["- **Encoding**: J2KSwift is " +:+ format_f 1 encode_ratio
         +:+ "% of OpenJPEG speed";
       target_line;
       "  - Status: " +:+ status encode_ratio;
       blank]
      ++ match j2k_decode_results with
         | _ :: _ => [decoding_line decode_ratio;
                      target_line;
                      "  - Status: " +:+ status decode_ratio]
         | [] => [decode_unavailable]
         end
      ++ [blank]).

Definition report_head (now : string) : list string :=
  ["# J2KSwift vs OpenJPEG Performance Comparison";
   blank;
   "**Generated**: " +:+ now;
   blank].

Definition encode_table_head : list string :=
  ["## Encoding Performance";
   blank;
   "| Image Size | Implementation | Avg (ms) | Median (ms) | Min (ms) | Max (ms) | Throughput (MP/s) | Compressed Size (KB) | vs OpenJPEG |";
   "|------------|----------------|----------|-------------|----------|----------|-------------------|---------------------|-------------|"].

Definition decode_table_head : list string :=
  ["## Decoding Performance";
   blank;
   "| Image Size | Implementation | Avg (ms) | Median (ms) | Min (ms) | Max (ms) | Throughput (MP/s) | vs OpenJPEG |";
   "|------------|----------------|----------|-------------|----------|----------|-------------------|-------------|"].

(** The lines of the markdown report; [now] is the formatted local time
    of [time.strftime]. *)
Definition markdown_lines (now : string) (results : list BenchmarkResult)
  : result (list string) :=
  erows ← encode_table results;
  drows ← decode_table results;
  tail ← summary results;
  Ok (report_head now
      ++ encode_table_head ++ (render_row <$> erows) ++ [blank]
      ++ decode_table_head ++ (render_row <$> drows) ++ [blank]
      ++ ["## Summary"; blank] ++ tail).

(** [generate_markdown_report]: the report text written to
    [output_file]. *)
Definition generate_markdown_report (now : string)
    (results : list BenchmarkResult) (output_file : string)
    (fs : gmap string string) : result (gmap string string) :=
  lines ← markdown_lines now results;
  Ok (<[output_file := join nl lines]> fs).

(** ** compare_performance.py: the CSV report *)

Definition csv_head : string :=
  "ImageSize,Implementation,Operation,AvgTime(ms),MedianTime(ms),MinTime(ms),MaxTime(ms),StdDev(ms),Throughput(MP/s),CompressedSize(B)".

Definition csv_line (r : BenchmarkResult) : result string :=
  let compressed :=
    if truthy (compressed_size r)
    then str_int (default 0 (compressed_size r)) else EmptyString in
  a ← average r;
  m ← median r;
  lo ← min_time r;
  hi ← max_time r;
  sd ← std_dev r;
  t ← throughput r;
  Ok (join "," [str_int (image_size r); implementation r; operation r;
                ms 3 a; ms 3 m; ms 3 lo; ms 3 hi; ms 3 sd; format_f 3 t;
                compressed]).

Definition csv_lines (results : list BenchmarkResult) : result (list string) :=
  body ← mapR csv_line results;
  Ok (csv_head :: body).

Definition generate_csv_report (results : list BenchmarkResult)
    (output_file : string) (fs : gmap string string)
  : result (gmap string string) :=
  lines ← csv_lines results;
  Ok (<[output_file := join nl lines]> fs).

(** ** Python values read from JSON documents *)

#[local] Set Warnings "-register-all".
Inductive value :=
  | VNone
  | VBool (b : bool)
  | VInt (n : Z)
  | VFloat (x : float)
  | VStr (s : string)
  | VList (l : list value)
  | VDict (d : gmap string value).

(** [v[k]] with a string key. *)
Definition getitem (v : value) (k : string) : result value :=
  match v with
  | VDict d =>
    match d !! k with
    | Some x => Ok x
    | None => Raise (KeyError k)
    end
  | _ => Raise TypeError
  end.

(** [v.get(k, default)]. *)
Definition get (v : value) (k : string) (fallback : value) : result value :=
  match v with
  | VDict d => Ok (default fallback (d !! k))
  | _ => Raise AttributeError
  end.

(** [k in v] with a string key, for a dictionary. *)
Definition contains (v : value) (k : string) : result bool :=
  match v with
  | VDict d => Ok (bool_decide (is_Some (d !! k)))
  | _ => Raise TypeError
  end.

(** A number as a float, as the arithmetic operators coerce it. *)
Definition to_float (v : value) : result float :=
  match v with
  | VFloat x => Ok x
  | VInt n => of_int n
  | VBool b => of_int (if b then 1 else 0)
  | _ => Raise TypeError
  end.

(** [a / b] on values. *)
Definition value_truediv (a b : value) : result float :=
  match a, b with
  | (VInt _ | VBool _), (VInt _ | VBool _) =>
    let int_of v := match v with
                    | VInt n => n
                    | VBool true => 1
                    | _ => 0
                    end in
    int_truediv (int_of a) (int_of b)
  | _, _ =>
    x ← to_float a;
    y ← to_float b;
    truediv x y
  end.

(** [[t / 1000.0 for t in runs]]: milliseconds to seconds. *)
Definition seconds_of_runs (runs : value) : result (list float) :=
  match runs with
  | VList l => mapR (λ t, x ← to_float t; truediv x (lit 1000 1)) l
  | VDict d => if bool_decide (d = ∅) then Ok [] else Raise TypeError
  | VStr s => if bool_decide (s = EmptyString) then Ok [] else Raise TypeError
  | _ => Raise TypeError
  end.

(** ** The world outside: files and external tools *)

Section World.

(** The hidden state of the environment: whatever decides how external
    commands behave and which random numbers are drawn. *)
Context {Ext : Type}.

Record World := mkWorld {
  fs : gmap string string;           (* path ↦ file contents *)
  ext : Ext;
  invoked : list (list string);      (* commands run so far, oldest first *)
  stdout : list string               (* lines printed so far *)
}.

(** Computations that read and change the world and may raise. *)
Definition M (A : Type) : Type := World → result A * World.

Definition ret {A} (a : A) : M A := λ w, (Ok a, w).
Definition raise {A} (e : exn) : M A := λ w, (Raise e, w).
Definition bind {A B} (m : M A) (k : A → M B) : M B := λ w,
  match m w with
  | (Ok a, w') => k a w'
  | (Raise e, w') => (Raise e, w')
  end.
Definition lift {A} (r : result A) : M A := λ w, (r, w).

(** [try: m except Exception: handler]. *)
Definition catch {A} (m : M A) (handler : exn → M A) : M A := λ w,
  match m w with
  | (Ok a, w') => (Ok a, w')
  | (Raise e, w') => handler e w'
  end.

(** [for x in l: body(x)]. *)
Fixpoint for_each {A} (l : list A) (body : A → M ()) : M () :=
  match l with
  | [] => ret ()
  | x :: l' => bind (body x) (λ _, for_each l' body)
  end.

Definition print (line : string) : M () := λ w,
  (Ok (), mkWorld (fs w) (ext w) (invoked w) (stdout w ++ [line])).

(** An external command: its exit code, or [OSError] when it cannot be
    started, and its effect on the files and on the hidden state. *)
Variable exec : list string → gmap string string → Ext
                → result Z * gmap string string * Ext.

(** [json.loads]: the parser of the standard library. *)
Variable json_loads : string → result value.

(** [subprocess.run(argv)] without [check=True]: the return code. *)
Definition subprocess_run (argv : list string) : M Z := λ w,
  let '(rc, fs', ext') := exec argv (fs w) (ext w) in
  (rc, mkWorld fs' ext' (invoked w ++ [argv]) (stdout w)).

(** [with open(path, 'r') as f: json.load(f)]. *)
Definition json_load (path : string) : M value := λ w,
  match fs w !! path with
  | Some text => (json_loads text, w)
  | None => (Raise OSError, w)
  end.

(** *** compare_performance.py: [run_j2kswift_benchmark] *)

Definition benchmark_argv (cli_path input_file output_file : string)
    (runs : Z) : list string :=
  [cli_path; "benchmark"; "-i"; input_file; "-r"; str_int runs;
   "-o"; output_file].

Definition encode_only_failed : exn :=
  RuntimeError "J2KSwift benchmark failed even with encode-only".

(** The first half of the adapter: run the benchmark command, and run
    it again with [--encode-only] when it fails. *)
Definition retry_warning : string :=
  "    Warning: Full benchmark failed, trying encode-only...".

Definition invoke_benchmark (cli_path input_file output_file : string)
    (runs : Z) : M () :=
  bind (subprocess_run (benchmark_argv cli_path input_file output_file runs))
    (λ returncode,
     if negb (returncode =? 0) then
       bind (print retry_warning) (λ _,
       bind (subprocess_run
               (benchmark_argv cli_path input_file output_file runs
                ++ ["--encode-only"]))
         (λ returncode,
          if negb (returncode =? 0) then raise encode_only_failed
          else ret ()))
     else ret ()).

(** A result as the adapter fills it in: the image size and the
    compressed size are whatever the document holds at [image.width]
    and [encode.compressed_size] ([VNone] when that key is absent); the
    adapter checks the type of neither. *)
Record ParsedResult := mkParsedResult {
  parsed_implementation : string;
  parsed_image_size : value;
  parsed_operation : string;
  parsed_times : list float;
  parsed_compressed_size : value
}.

(** The second half: the two results read from the parsed document, in
    the order in which the source reads its parts. *)
Definition results_of_document (data : value)
  : result (ParsedResult * option ParsedResult) :=
  image ← getitem data "image";
  image_size ← getitem image "width";
  encode ← getitem data "encode";
  runs ← getitem encode "runs";
  encode_times ← seconds_of_runs runs;
  encode' ← getitem data "encode";
  compressed_size ← get encode' "compressed_size" VNone;
  let encode_result :=
    mkParsedResult "J2KSwift" image_size "encode" encode_times
                   compressed_size in
  has_decode ← contains data "decode";
  if (has_decode : bool) then
    decode ← getitem data "decode";
    runs ← getitem decode "runs";
    decode_times ← seconds_of_runs runs;
    Ok (encode_result,
        Some (mkParsedResult "J2KSwift" image_size "decode"
                             decode_times VNone))
  else Ok (encode_result, None).

Definition run_j2kswift_benchmark (cli_path input_file output_file : string)
    (runs : Z) : M (ParsedResult * option ParsedResult) :=
  bind (invoke_benchmark cli_path input_file output_file runs) (λ _,
  bind (json_load output_file) (λ data,
  lift (results_of_document data))).

(** *** Files *)

(** Whether [open(path, 'wb')] succeeds: permissions, missing
    directories and full disks are the environment's business. *)
Variable can_open : string → gmap string string → Ext → bool.

(** [random.randint(a, b)]. *)
Variable randint : Z → Z → Ext → Z * Ext.

(** [str(e)] for a caught exception. *)
Variable str_exn : exn → string.

Definition set_fs (w : World) (fs' : gmap string string) : World :=
  mkWorld fs' (ext w) (invoked w) (stdout w).

(** [path.exists()]. *)
Definition path_exists (path : string) : M bool := λ w,
  (Ok (bool_decide (is_Some (fs w !! path))), w).

(** [open(path, 'wb')]: the file is created or truncated. *)
Definition open_wb (path : string) : M () := λ w,
  if can_open path (fs w) (ext w)
  then (Ok (), set_fs w (<[path := EmptyString]> (fs w)))
  else (Raise OSError, w).

(** [f.write(data)] on the file opened at [path]. *)
Definition write (path : string) (data : string) : M () := λ w,
  (Ok (),
   set_fs w (<[path := default EmptyString (fs w !! path) +:+ data]> (fs w))).

(** [bytes([n])]. *)
Definition byte (n : Z) : string :=
  String (ascii_of_N (Z.to_N n)) EmptyString.

(** [f'P5\n{size} {size}\n255\n'.encode()]. *)
Definition pgm_header (size : Z) : string :=
  "P5" +:+ nl +:+ str_int size +:+ " " +:+ str_int size +:+ nl
  +:+ "255" +:+ nl.

(** [dir / f'test_{size}x{size}.pgm']. *)
Definition pgm_path (test_images_dir : string) (size : Z) : string :=
  test_images_dir +:+ "/" +:+ "test_" +:+ str_int size +:+ "x"
  +:+ str_int size +:+ ".pgm".

(** *** compare_performance.py: the test images of [main] *)

Definition random_randint (a b : Z) : M Z := λ w,
  let '(v, ext') := randint a b (ext w) in
  (Ok v, mkWorld (fs w) ext' (invoked w) (stdout w)).

(** [bytes([random.randint(0, 255) for _ in range(n)])]. *)
Fixpoint random_bytes (n : nat) : M string :=
  match n with
  | O => ret EmptyString
  | S n' =>
    bind (random_randint 0 255) (λ v,
    bind (random_bytes n') (λ rest,
    ret (byte v +:+ rest)))
  end.

(** The branch of the loop that writes a new image. *)
Definition write_image (test_images_dir : string) (size : Z) : M () :=
  let pgm_file := pgm_path test_images_dir size in
  bind (open_wb pgm_file) (λ _,
  bind (write pgm_file (pgm_header size)) (λ _,
  bind (random_bytes (Z.to_nat (size * size))) (λ data,
  bind (write pgm_file data) (λ _,
  print ("  Generated " +:+ size_label size +:+ " test image"))))).

Definition generate_test_image (test_images_dir : string) (size : Z) : M () :=
  let pgm_file := pgm_path test_images_dir size in
  bind (path_exists pgm_file) (λ present,
    if negb present then write_image test_images_dir size
    else print ("  Using existing " +:+ size_label size +:+ " test image")).

Definition generate_test_images (test_images_dir : string) (sizes : list Z)
  : M () :=
  for_each sizes (generate_test_image test_images_dir).

(** *** profile_encoder.py: [create_test_image] and the test images of
    [main] *)

Definition create_test_image (size : Z) (output_path : string) : M bool :=
  catch
    (bind (open_wb output_path) (λ _,
     bind (write output_path (pgm_header size)) (λ _,
     bind (for_each (seqZ 0 size) (λ y,
             for_each (seqZ 0 size) (λ x,
               let value := (x + y) `mod` 256 in
               write output_path (byte value)))) (λ _,
     ret true))))
    (λ e, bind (print ("Error creating test image: " +:+ str_exn e)) (λ _,
          ret false)).

(** The loop of [main] that creates the images: [inl 1] is the early
    [return 1], [inr paths] the list [test_images] after the loop. *)
Fixpoint create_test_images (test_images_dir : string) (sizes : list Z)
    (test_images : list string) : M (Z + list string) :=
  match sizes with
  | [] => ret (inr test_images)
  | size :: rest =>
    let img_path := pgm_path test_images_dir size in
    bind (path_exists img_path) (λ present,
    if negb present then
      bind (print ("  Creating " +:+ size_label size +:+ " test image...")) (λ _,
      bind (create_test_image size img_path) (λ created,
      if negb created then ret (inl 1)
      else create_test_images test_images_dir rest (test_images ++ [img_path])))
    else create_test_images test_images_dir rest (test_images ++ [img_path]))
  end.

End World.

(** The adapter's result as the rest of the script is annotated to see
    it, [image_size: int] and [compressed_size: Optional[int]]; [None]
    when the document held a size of another type, which the reports
    modelled here do not cover. *)
Definition typed_result (p : ParsedResult) : option BenchmarkResult :=
  match parsed_image_size p, parsed_compressed_size p with
  | VInt size, VNone =>
    Some (mkBenchmarkResult (parsed_implementation p) size
            (parsed_operation p) (parsed_times p) None None)
  | VInt size, VInt compressed =>
    Some (mkBenchmarkResult (parsed_implementation p) size
            (parsed_operation p) (parsed_times p) (Some compressed) None)
  | _, _ => None
  end.

(** *** compare_performance.py: the body of the benchmark loop of [main] *)

(** What one size adds to [all_results]: the candidate's encode result,
    its decode result when there is one, then the reference's two. *)
Definition collect (encode_result : BenchmarkResult)
    (decode_result : option BenchmarkResult)
    (opj_encode_result opj_decode_result : BenchmarkResult)
  : list BenchmarkResult :=
  [encode_result] ++ option_list decode_result
  ++ [opj_encode_result; opj_decode_result].

(** The lines printed under ["# Comparison"] for one size. *)
Definition comparison_lines (encode_result : BenchmarkResult)
    (decode_result : option BenchmarkResult)
    (opj_encode_result opj_decode_result : BenchmarkResult)
  : result (list string) :=
  encode_ratio ← relative_speed opj_encode_result encode_result;
  decode_lines ←
    match decode_result with
    | Some d =>
      decode_ratio ← relative_speed opj_decode_result d;
      Ok ["    Decode: " +:+ format_f 1 decode_ratio +:+ "% of OpenJPEG speed"]
    | None => Ok []
    end;
  Ok (["  J2KSwift vs OpenJPEG:";
       "    Encode: " +:+ format_f 1 encode_ratio +:+ "% of OpenJPEG speed"]
      ++ decode_lines ++ [blank]).

(** ** profile_encoder.py *)

(** Truth value of a Python value. *)
Definition value_truthy (v : value) : bool :=
  match v with
  | VNone => false
  | VBool b => b
  | VInt n => negb (n =? 0)
  | VFloat x => negb (is_zero x)
  | VStr s => negb (bool_decide (s = EmptyString))
  | VList l => negb (bool_decide (l = []))
  | VDict d => negb (bool_decide (d = ∅))
  end.

(** [v > 0]. *)
Definition value_positive (v : value) : result bool :=
  match v with
  | VInt n => Ok (0 <? n)
  | VBool b => Ok b
  | VFloat x => Ok (ltb zero x)
  | _ => Raise TypeError
  end.

Definition analyze_results (results : value) (image_size : Z)
  : result (gmap string value) :=
  encode_stats ← get results "encode" (VDict ∅);
  times_ms ← get encode_stats "runs" (VList []);
  if negb (value_truthy times_ms) then Ok ∅
  else
    avg_time ← get encode_stats "average_ms" (VInt 0);
    throughput ← get encode_stats "throughput_mpps" (VInt 0);
    compressed_size ← get encode_stats "compressed_size" (VInt 0);
    let pixels := image_size * image_size in
    let input_bytes := pixels in
    positive ← value_positive compressed_size;
    compression_ratio ←
      if (positive : bool)
      then VFloat <$> value_truediv (VInt input_bytes) compressed_size
      else Ok (VInt 0);
    Ok (<["image_size" := VStr (size_label image_size)]>
        (<["pixels" := VInt pixels]>
        (<["avg_time_ms" := avg_time]>
        (<["throughput_mpps" := throughput]>
        (<["compressed_size_bytes" := compressed_size]>
        (<["compression_ratio" := compression_ratio]>
        (<["times_ms" := times_ms]> ∅))))))).

(** The loop of [main] that collects the analyses: one entry per image
    whose profiling run produced a document, in the order of the
    images. *)
Fixpoint collect_analyses (runs : list (Z * option value))
  : result (list (gmap string value)) :=
  match runs with
  | [] => Ok []
  | (size, Some doc) :: rest =>
    if value_truthy doc then
      analysis ← analyze_results doc size;
      others ← collect_analyses rest;
      Ok (analysis :: others)
    else collect_analyses rest
  | (_, None) :: rest => collect_analyses rest
  end.

(** [d[k]] on a dictionary. *)
Definition dict_getitem (d : gmap string value) (k : string) : result value :=
  match d !! k with
  | Some v => Ok v
  | None => Raise (KeyError k)
  end.

Inductive band := SuperLinear | Linear | SubLinear | PoorScaling.

(** The chain [if scaling_factor < 0.9 ... elif ... < 1.1 ... elif ... < 1.5
    ... else]. *)
Definition classify (scaling_factor : float) : band :=
  if ltb scaling_factor (lit 9 10) then SuperLinear
  else if ltb scaling_factor (lit 11 10) then Linear
  else if ltb scaling_factor (lit 15 10) then SubLinear
  else PoorScaling.

Definition band_line (b : band) : string :=
  match b with
  | SuperLinear => "✅ **Super-linear scaling** - Performance improves with larger images"
  | Linear => "✅ **Linear scaling** - Good performance characteristics"
  | SubLinear => "⚠️ **Sub-linear scaling** - Some overhead present"
  | PoorScaling => "❌ **Poor scaling** - Significant bottlenecks present"
  end.

Record scalability := mkScalability {
  pixel_ratio : float;
  time_ratio : float;
  scaling_factor : float
}.

(** The three ratios between two entries of [all_results]. *)
Definition ratios (first last : gmap string value) : result scalability :=
  last_pixels ← dict_getitem last "pixels";
  first_pixels ← dict_getitem first "pixels";
  pixel_ratio ← value_truediv last_pixels first_pixels;
  last_time ← dict_getitem last "avg_time_ms";
  first_time ← dict_getitem first "avg_time_ms";
  time_ratio ← value_truediv last_time first_time;
  scaling_factor ← truediv time_ratio pixel_ratio;
  Ok (mkScalability pixel_ratio time_ratio scaling_factor).

(** The scalability analysis of [generate_report]: [None] when it is
    skipped. *)
Definition scalability_analysis (all_results : list (gmap string value))
  : result (option scalability) :=
  match all_results with
  | [] => Ok None
  | first :: _ =>
    if (2 <=? length all_results)%nat then
      Some <$> ratios first (List.last all_results first)
    else Ok None
  end.

(** The lines the analysis appends to the report. *)
Definition scalability_lines (all_results : list (gmap string value))
  : result (list string) :=
  analysis ← scalability_analysis all_results;
  match analysis with
  | Some s =>
    Ok ["### Scalability Analysis";
        "- Pixel count increase: " +:+ format_f 2 (pixel_ratio s) +:+ "x";
        "- Time increase: " +:+ format_f 2 (time_ratio s) +:+ "x";
        "- Scaling factor: " +:+ format_f 2 (scaling_factor s)
          +:+ " (1.0 = perfect linear scaling)";
        blank;
        band_line (classify (scaling_factor s));
        blank]
  | None => Ok []
  end.

(** The analysis in the words of the specification: the entries ordered
    by ascending image size, the smallest against the largest, and
    nothing when fewer than two distinct sizes are present. *)
Definition pixels_of (d : gmap string value) : Z :=
  match d !! "pixels" with
  | Some (VInt n) => n
  | _ => 0
  end.

Definition by_pixels (d1 d2 : gmap string value) : Prop :=
  pixels_of d1 ≤ pixels_of d2.

#[global] Instance by_pixels_dec d1 d2 : Decision (by_pixels d1 d2) :=
  decide (pixels_of d1 ≤ pixels_of d2).

Definition spec_scalability_analysis (all_results : list (gmap string value))
  : result (option scalability) :=
  let ordered := merge_sort by_pixels all_results in
  match ordered with
  | [] => Ok None
  | smallest :: _ =>
    let largest := List.last ordered smallest in
    if (2 <=? length (remove_dups (pixels_of <$> all_results)))%nat
    then Some <$> ratios smallest largest
    else Ok None
  end.

(** ** How a computation may change the files *)

(** [changes_by R m]: running [m] takes the files to files related by
    [R]. *)
Definition changes_by {Ext A} (R : relation (gmap string string))
    (m : @M Ext A) : Prop :=
  ∀ w, R (fs w) (fs (m w).2).

(** Every file other than [path] is as before. *)
Definition same_except (path : string) : relation (gmap string string) :=
  λ f f', ∀ q, q ≠ path → f' !! q = f !! q.

(** No file is removed. *)
Definition grows : relation (gmap string string) :=
  λ f f', ∀ q, is_Some (f !! q) → is_Some (f' !! q).

(** ** Concrete worlds for the examples *)

(** A tool whose combined run fails and whose encode-only run succeeds,
    and one that always fails. *)
Definition flaky_exec (argv : list string) (files : gmap string string)
    (n : nat) : result Z * gmap string string * nat :=
  (Ok (if bool_decide ("--encode-only" ∈ argv) then 0 else 1), files, S n).
Definition counter_randint (a b : Z) (n : nat) : Z * nat :=
  (a + Z.of_nat n `mod` (b - a + 1), S n).

Definition always_open (path : string) (files : gmap string string) (n : nat)
  : bool := true.

Definition plain_exn (e : exn) : string := "error".

(** A world that already holds the 2×2 test image. *)
Definition seeded_world : @World nat :=
  mkWorld {[ "imgs/test_2x2.pgm" := "old bytes" ]} O [] [].

(** ** Inputs for the examples *)

(** A candidate encode result with no timings (the document's [runs]
    list was empty) next to a reference result of the same size. *)
Definition candidate_without_runs : BenchmarkResult :=
  mkBenchmarkResult "J2KSwift" 256 "encode" [] None None.

Definition candidate_zero_run : BenchmarkResult :=
  mkBenchmarkResult "J2KSwift" 256 "encode" [zero] None None.

Definition reference_encode : BenchmarkResult :=
  mkBenchmarkResult "OpenJPEG" 256 "encode" [lit 1 10] (Some 20480) None.

Definition reference_decode : BenchmarkResult :=
  mkBenchmarkResult "OpenJPEG" 256 "decode" [lit 1 10] None None.

(** [r] with a compressed size of zero bytes forgotten. *)
Definition forget_zero (r : BenchmarkResult) : BenchmarkResult :=
  mkBenchmarkResult (implementation r) (image_size r) (operation r) (times r)
    (if truthy (compressed_size r) then compressed_size r else None)
    (memory_peak r).

(** ** The order of the rows of a table *)

(** [r1] comes before [r2]: a smaller image size, or the same size with
    the candidate's row before the reference's. *)
Definition row_before (r1 r2 : row) : Prop :=
  row_size r1 < row_size r2
  ∨ (row_size r1 = row_size r2
     ∧ row_implementation r1 = "J2KSwift"
     ∧ row_implementation r2 = "OpenJPEG").

(** A cell of the relative-speed column: a percentage, or ["N/A"]. *)
Definition relative_speed_cell (cell : string) : Prop :=
  cell = "N/A" ∨ ∃ p, cell = format_f 1 p +:+ "%".

(** A row of a table about image size [size]: it names the size first,
    then one of the two implementations, and ends with the relative
    speed. *)
Definition table_row_of (size : Z) (r : row) : Prop :=
  row_size r = size
  ∧ (row_implementation r = "J2KSwift" ∨ row_implementation r = "OpenJPEG")
  ∧ ∃ cells relative,
      row_cells r = size_label size :: row_implementation r :: cells ++ [relative]
      ∧ relative_speed_cell relative.

(** The row is about one of the given results. *)
Definition row_from (rs : list BenchmarkResult) (r : row) : Prop :=
  ∃ b, b ∈ rs ∧ image_size b = row_size r
       ∧ implementation b = row_implementation r.

(** The rows one size contributes: at most the candidate's row followed
    by the reference's, each about a result of that size. *)
Definition size_block (rs : list BenchmarkResult) (size : Z)
    (rows : list row) : Prop :=
  StronglySorted row_before rows
  ∧ Forall (λ r, table_row_of size r ∧ row_from rs r) rows.

(** ** The tabular summary in the words of the specification *)

(** [x] is the first element of [l] that satisfies [P]. *)
Definition first_such {A} (P : A → Prop) (l : list A) (x : A) : Prop :=
  ∃ l1 l2, l = l1 ++ x :: l2 ∧ P x ∧ Forall (λ y, ¬ P y) l1.

(** The text of a row: its cells between bars. *)
Definition row_text (r : row) : string :=
  "| " +:+ String.concat " | " (row_cells r) +:+ " |".

(** The five measurement cells of a result, in the order of the
    columns: average, median, minimum and maximum in milliseconds with
    one decimal, then the throughput with two. *)
Definition measurements (b : BenchmarkResult) (cells : list string) : Prop :=
  ∃ a m lo hi t,
    average b = Ok a ∧ median b = Ok m ∧ min_time b = Ok lo
    ∧ max_time b = Ok hi ∧ throughput b = Ok t
    ∧ cells = [format_f 1 (mul a (lit 1000 1));
               format_f 1 (mul m (lit 1000 1));
               format_f 1 (mul lo (lit 1000 1));
               format_f 1 (mul hi (lit 1000 1));
               format_f 2 t].

(** The relative-speed cell of the row of [b] in a table made of the
    results [rs]: [100.0%] in a row of the reference; in a row of the
    candidate [N/A] when [rs] holds no reference result of that size,
    and otherwise the average time of the first such result over the
    candidate's, as a percentage with one decimal. *)
Definition relative_shown (rs : list BenchmarkResult) (b : BenchmarkResult)
    (relative : string) : Prop :=
  (implementation b = "OpenJPEG" ∧ relative = "100.0%")
  ∨ (implementation b = "J2KSwift"
     ∧ ((relative = "N/A"
         ∧ ∀ o, o ∈ rs → image_size o = image_size b →
                implementation o ≠ "OpenJPEG")
        ∨ ∃ o reference candidate quotient,
            first_such (λ x, image_size x = image_size b
                             ∧ implementation x = "OpenJPEG") rs o
            ∧ average o = Ok reference ∧ average b = Ok candidate
            ∧ truediv reference candidate = Ok quotient
            ∧ relative = format_f 1 (mul quotient (lit 100 1)) +:+ "%")).

(** The compressed-size cell of an encode result: the size in
    kilobytes with one decimal, [N/A] when the size is absent or
    zero. *)
Definition size_shown (b : BenchmarkResult) (cell : string) : Prop :=
  match compressed_size b with
  | Some n =>
    if decide (n = 0) then cell = "N/A"
    else ∃ kb, int_truediv n 1024 = Ok kb ∧ cell = format_f 1 kb
  | None => cell = "N/A"
  end.

(** The row shows the result [b], the first of the results [rs] of its
    size and implementation: its size and implementation, its
    measurements, for an encode result its compressed size, and last
    its relative speed. *)
Definition row_shows (rs : list BenchmarkResult) (b : BenchmarkResult)
    (r : row) : Prop :=
  row_size r = image_size b ∧ row_implementation r = implementation b
  ∧ first_such (λ x, image_size x = image_size b
                     ∧ implementation x = implementation b) rs b
  ∧ ∃ cells extra relative,
      row_cells r
      = [size_label (image_size b); implementation b]
        ++ cells ++ extra ++ [relative]
      ∧ measurements b cells
      ∧ (if decide (operation b = "encode")
         then ∃ cell, size_shown b cell ∧ extra = [cell]
         else extra = [])
      ∧ relative_shown rs b relative.

(** The report: the head, the encoding table under its heading, the
    decoding table under its heading, the summary. *)
Definition tabular_summary (head : list string) (erows drows : list row)
    (tail : list string) : list string :=
  head
  ++ ["## Encoding Performance";
      EmptyString;
      "| Image Size | Implementation | Avg (ms) | Median (ms) | Min (ms) | Max (ms) | Throughput (MP/s) | Compressed Size (KB) | vs OpenJPEG |";
      "|------------|----------------|----------|-------------|----------|----------|-------------------|---------------------|-------------|"]
  ++ (row_text <$> erows) ++ [EmptyString]
  ++ ["## Decoding Performance";
      EmptyString;
      "| Image Size | Implementation | Avg (ms) | Median (ms) | Min (ms) | Max (ms) | Throughput (MP/s) | vs OpenJPEG |";
      "|------------|----------------|----------|-------------|----------|----------|-------------------|-------------|"]
  ++ (row_text <$> drows) ++ [EmptyString]
  ++ ["## Summary"; EmptyString] ++ tail.

(** Every one of the results [rs] that is of the operation [op], of one
    of the two implementations and of a size in [sizes] has its row
    among [rows]. *)
Definition every_result_has_a_row (op : string) (rs : list BenchmarkResult)
    (sizes : list Z) (rows : list row) : Prop :=
  ∀ b, b ∈ rs → operation b = op →
       implementation b = "J2KSwift" ∨ implementation b = "OpenJPEG" →
       image_size b ∈ sizes →
       ∃ r, r ∈ rows ∧ row_size r = image_size b
            ∧ row_implementation r = implementation b.

(** The image sizes for which [rs] holds an encode result. *)
Definition encoded_sizes (rs : list BenchmarkResult) : list Z :=
  image_size <$> filter (λ r, operation r = "encode") rs.

(** A result document of the candidate tool: the image width, the encode
    runs and, when present, the decode runs, in milliseconds. *)
Definition document (width : Z) (encode_ms : list float)
    (decode_ms : option (list float)) : gmap string value :=
  let runs ms := VDict {[ "runs" := VList (VFloat <$> ms) ]} in
  let base : gmap string value :=
    {[ "image" := VDict {[ "width" := VInt width ]};
       "encode" := runs encode_ms ]} in
  match decode_ms with
  | Some ms => <["decode" := runs ms]> base
  | None => base
  end.

Definition reference_result (size : Z) (op : string) : BenchmarkResult :=
  mkBenchmarkResult "OpenJPEG" size op [lit 1 100; lit 1 100] None None.

(** What [main] collects for one size from the candidate's document. *)
Definition collected (doc : gmap string value) (size : Z)
  : list BenchmarkResult :=
  match results_of_document (VDict doc) with
  | Ok (encode_result, decode_result) =>
    match typed_result encode_result with
    | Some encode_result =>
      collect encode_result (decode_result ≫= typed_result)
              (reference_result size "encode")
              (reference_result size "decode")
    | None => []
    end
  | Raise _ => []
  end.

(** Two sizes: the document of the first has a decode section, the
    document of the second has none. *)
Definition mixed_results : list BenchmarkResult :=
  collected (document 256 [lit 12 1; lit 13 1] (Some [lit 20 1; lit 22 1])) 256
  ++ collected (document 512 [lit 50 1; lit 52 1] None) 512.

Definition sample_time : string := "2026-01-01 00:00:00".

Definition mixed_report : list string :=
  match markdown_lines sample_time mixed_results with
  | Ok lines => lines
  | Raise _ => []
  end.



(** A profiling document with one run and the given average, in tenths
    of a millisecond. *)
Definition profile_document (average_tenths : Z) : value :=
  VDict {[ "encode" :=
             VDict {[ "runs" := VList [VFloat (lit 1 1)];
                      "average_ms" := VFloat (lit average_tenths 10) ]} ]}.

Definition analyses_of (runs : list (Z * option value))
  : list (gmap string value) :=
  match collect_analyses runs with
  | Ok l => l
  | Raise _ => []
  end.

(** The sizes 256 and 512, given in ascending and in descending order,
    and the size 256 given twice. *)
Definition ascending_analyses : list (gmap string value) :=
  analyses_of [(256, Some (profile_document 100));
               (512, Some (profile_document 440))].

Definition descending_analyses : list (gmap string value) :=
  analyses_of [(512, Some (profile_document 440));
               (256, Some (profile_document 100))].

Definition repeated_analyses : list (gmap string value) :=
  analyses_of [(256, Some (profile_document 100));
               (256, Some (profile_document 120))].


(** * Further parts of the two scripts *)

(** ** The order of floats, by position on the number line *)

(** The position of a float that is not a NaN: infinities at the ends,
    then sign, exponent and mantissa. *)
Definition position (x : float) : option (Z * Z * Z) :=
  match x with
  | S754_nan => None
  | S754_infinity true => Some (-2, 0, 0)
  | S754_finite true m e => Some (-1, - e, - Zpos m)
  | S754_zero _ => Some (0, 0, 0)
  | S754_finite false m e => Some (1, e, Zpos m)
  | S754_infinity false => Some (2, 0, 0)
  end.

Definition position_lt (p q : Z * Z * Z) : Prop :=
  let '(a, b, c) := p in
  let '(a', b', c') := q in
  a < a' ∨ (a = a' ∧ (b < b' ∨ (b = b' ∧ c < c'))).

(** ** The pixels of the gradient image *)



(** The files at the canonical paths of the given sizes. *)
Definition corpus_paths (test_images_dir : string) (sizes : list Z)
  : list string :=
  pgm_path test_images_dir <$> sizes.

(** Every file outside [paths] is as before. *)
Definition same_outside (paths : list string)
  : relation (gmap string string) :=
  λ f f', ∀ q, q ∉ paths → f' !! q = f !! q.

(** An environment in which no file can be opened for writing. *)
Definition never_open (path : string) (files : gmap string string) (n : nat)
  : bool := false.


(** ** Characters of strings *)

Definition chars (s : string) : list ascii := list_ascii_of_string s.

(** The characters of a decimal numeral: the ten digits and the minus
    sign. *)
Definition numeral_char (c : ascii) : Prop :=
  c ∈ ["0"; "1"; "2"; "3"; "4"; "5"; "6"; "7"; "8"; "9"; "-"]%char.

(** ** Text: splitting, stripping, integers, file names *)

(** [s.split(sep)] for a separator of one character: the pieces between
    the separators, empty ones included; never an empty list. *)
Fixpoint str_split (sep : ascii) (s : string) : list string :=
  match s with
  | EmptyString => [EmptyString]
  | String c s' =>
    if decide (c = sep) then EmptyString :: str_split sep s'
    else match str_split sep s' with
         | piece :: pieces => String c piece :: pieces
         | [] => [String c EmptyString]
         end
  end.

(** [s.rfind(c)]: the index of the last [c] in [s], [None] for [-1]. *)
Fixpoint rfind (c : ascii) (s : string) : option nat :=
  match s with
  | EmptyString => None
  | String x s' =>
    match rfind c s' with
    | Some i => Some (S i)
    | None => if decide (x = c) then Some 0%nat else None
    end
  end.

(** The components of a path as [PurePosixPath] keeps them: the empty
    ones and the single dots are dropped. *)
Definition path_parts (path : string) : list string :=
  filter (λ piece, piece ≠ EmptyString ∧ piece ≠ ".") (str_split "/" path).

(** The root of a path: one slash, or two when the path starts with
    exactly two; nothing for a relative path. *)
Definition path_root (path : string) : string :=
  match path with
  | String "/" (String "/" (String "/" _)) => "/"
  | String "/" (String "/" _) => "//"
  | String "/" _ => "/"
  | _ => EmptyString
  end.

(** [str(PurePosixPath(directory) / name)]. *)
Definition path_join (directory name : string) : string :=
  let '(root, parts) :=
    if decide (path_root name = EmptyString)
    then (path_root directory, path_parts directory ++ path_parts name)
    else (path_root name, path_parts name) in
  if decide (root = EmptyString ∧ parts = []) then "."
  else root +:+ join "/" parts.

(** [PurePosixPath(path).name]: the last component of the path; empty
    when there is none. *)
Definition path_name (path : string) : string :=
  List.last (path_parts path) EmptyString.

(** [PurePosixPath(path).stem]: the name without its last suffix. *)
Definition path_stem (path : string) : string :=
  let name := path_name path in
  match rfind "." name with
  | Some i =>
    if bool_decide (0 < i < String.length name - 1)%nat
    then substring 0 i name
    else name
  | None => name
  end.

Definition is_ascii (c : ascii) : bool := (nat_of_ascii c <? 128)%nat.

Fixpoint all_chars (p : ascii → bool) (s : string) : bool :=
  match s with
  | EmptyString => true
  | String c s' => p c && all_chars p s'
  end.

(** The white space [int] skips around an ASCII numeral: space, tab,
    line feed, vertical tab, form feed, carriage return. *)
Definition is_space (c : ascii) : bool :=
  let n := nat_of_ascii c in
  (n =? 32)%nat || ((9 <=? n) && (n <=? 13))%nat.

(** The ASCII white space [str.strip] removes: the above and the four
    separators 28 to 31. *)
Definition is_whitespace (c : ascii) : bool :=
  let n := nat_of_ascii c in
  is_space c || ((28 <=? n) && (n <=? 31))%nat.

Fixpoint skip (p : ascii → bool) (s : string) : string :=
  match s with
  | String c s' => if p c then skip p s' else s
  | EmptyString => EmptyString
  end.

Fixpoint skip_end (p : ascii → bool) (s : string) : string :=
  match s with
  | String c s' =>
    match skip_end p s' with
    | EmptyString => if p c then EmptyString else String c EmptyString
    | rest => String c rest
    end
  | EmptyString => EmptyString
  end.

Definition digit_of (c : ascii) : option Z :=
  let n := nat_of_ascii c in
  if ((48 <=? n) && (n <=? 57))%nat then Some (Z.of_nat n - 48) else None.

(** The digits of a numeral in base ten, after the sign: single
    underscores may stand between digits, white space may follow the
    last digit. The value and the number of digits, or [None] when the
    text is no numeral. *)
Fixpoint numeral (s : string) (after_underscore : bool) (acc : Z)
    (digits : nat) : option (Z * nat) :=
  match s with
  | EmptyString =>
    if after_underscore || (digits =? 0)%nat then None
    else Some (acc, digits)
  | String c s' =>
    match digit_of c with
    | Some d => numeral s' false (10 * acc + d) (S digits)
    | None =>
      if decide (c = "_"%char) then
        if after_underscore || (digits =? 0)%nat then None
        else numeral s' true acc digits
      else
        if after_underscore || (digits =? 0)%nat then None
        else if all_chars is_space s then Some (acc, digits)
        else None
    end
  end.

(** Exceptions that only the reference implementation's adapters and the
    parsing of file names raise, beside those of [exn]. *)
Inductive failure :=
  | Builtin (e : exn)
  | IndexError
  | CalledProcessError (returncode : Z).

Section Text.

(** [sys.get_int_max_str_digits()]: the longest numeral [int] converts,
    in digits; zero for no limit. The limit never applies to numerals
    of 640 digits or fewer. *)
Variable int_max_str_digits : nat.

(** [int(s)] and [s.strip()] for a text with characters outside ASCII,
    where digits and white space of other scripts count as well. *)
Variable unicode_int : string → result Z.
Variable unicode_strip : string → string.

Definition too_many_digits (digits : nat) : bool :=
  ((640 <? digits) && (0 <? int_max_str_digits)
   && (int_max_str_digits <? digits))%nat.

(** [int(s)] for an ASCII text. *)
Definition int_ascii (s : string) : result Z :=
  let unsigned := skip is_space s in
  let '(negative, body) :=
    match unsigned with
    | String "+" body => (false, body)
    | String "-" body => (true, body)
    | _ => (false, unsigned)
    end in
  match numeral body false 0 0 with
  | Some (n, digits) =>
    if too_many_digits digits then Raise ValueError
    else Ok (if negative then - n else n)
  | None => Raise ValueError
  end.

(** [int(s)]. *)
Definition int_of_str (s : string) : result Z :=
  if all_chars is_ascii s then int_ascii s else unicode_int s.

(** [s.strip()]. *)
Definition strip (s : string) : string :=
  if all_chars is_ascii s then skip_end is_whitespace (skip is_whitespace s)
  else unicode_strip s.

(** [[int(s.strip()) for s in sizes.split(',')]]: the size list of the
    command line of both scripts. *)
Definition parse_sizes (sizes : string) : result (list Z) :=
  mapR (λ s, int_of_str (strip s)) (str_split "," sizes).

(** [int(input_file.stem.split('_')[1].split('x')[0])]: the image size
    read back from the name of a file. *)
Definition image_size_of (input_file : string) : failure + Z :=
  match str_split "_" (path_stem input_file) !! 1%nat with
  | None => inl IndexError
  | Some size_str =>
    match int_of_str (hd EmptyString (str_split "x" size_str)) with
    | Ok n => inr n
    | Raise e => inl (Builtin e)
    end
  end.

End Text.

(** The encoded file of [main] for a size, in the directory of the
    reference implementation. *)
Definition j2k_path (openjpeg_dir : string) (size : Z) : string :=
  openjpeg_dir +:+ "/" +:+ "test_" +:+ str_int size +:+ "x" +:+ str_int size
  +:+ ".j2k".

(** ** compare_performance.py: the reference implementation's adapters *)

Section Reference.
Context {Ext : Type}.
Variable exec : list string → gmap string string → Ext
                → result Z * gmap string string * Ext.

(** [time.perf_counter()]: the clock is part of the environment. *)
Variable perf_counter : Ext → float * Ext.

Variable int_max_str_digits : nat.
Variable unicode_int : string → result Z.

(** Computations that may also end in one of the further exceptions. *)
Definition R (A : Type) : Type := @World Ext → (failure + A) * @World Ext.

Definition clock (w : @World Ext) : float * @World Ext :=
  let '(t, ext') := perf_counter (ext w) in
  (t, mkWorld (fs w) ext' (invoked w) (stdout w)).

(** [subprocess.run(argv, check=True)]: a return code other than zero
    is raised as [CalledProcessError]. *)
Definition subprocess_run_checked (argv : list string) : R () := λ w,
  match subprocess_run exec argv w with
  | (Ok returncode, w') =>
    if returncode =? 0 then (inr (), w')
    else (inl (CalledProcessError returncode), w')
  | (Raise e, w') => (inl (Builtin e), w')
  end.

(** The loop [for i in range(runs)] of both adapters: each run of the
    command is timed, and its time appended to [times]. *)
Fixpoint timed_runs (argv : list string) (runs : nat) (times : list float)
  : R (list float) := λ w,
  match runs with
  | O => (inr times, w)
  | S runs' =>
    let '(start, w1) := clock w in
    match subprocess_run_checked argv w1 with
    | (inr _, w2) =>
      let '(stop, w3) := clock w2 in
      let elapsed := sub stop start in
      timed_runs argv runs' (times ++ [elapsed]) w3
    | (inl f, w2) => (inl f, w2)
    end
  end.

Definition compress_argv (input_file output_file : string) : list string :=
  ["opj_compress"; "-i"; input_file; "-o"; output_file].

Definition decompress_argv (input_file output_file : string) : list string :=
  ["opj_decompress"; "-i"; input_file; "-o"; output_file].

(** [output_file.stat().st_size] when [output_file.exists()]. *)
Definition st_size (files : gmap string string) (path : string) : option Z :=
  (λ content, Z.of_nat (String.length content)) <$> files !! path.

Definition run_openjpeg_encode (input_file output_file : string) (runs : Z)
  : R BenchmarkResult := λ w,
  match image_size_of int_max_str_digits unicode_int input_file with
  | inl f => (inl f, w)
  | inr image_size =>
    match timed_runs (compress_argv input_file output_file)
                     (Z.to_nat runs) [] w with
    | (inr times, w') =>
      (inr (mkBenchmarkResult "OpenJPEG" image_size "encode" times
                              (st_size (fs w') output_file) None), w')
    | (inl f, w') => (inl f, w')
    end
  end.

Definition run_openjpeg_decode (input_file output_file : string) (runs : Z)
  : R BenchmarkResult := λ w,
  match image_size_of int_max_str_digits unicode_int input_file with
  | inl f => (inl f, w)
  | inr image_size =>
    match timed_runs (decompress_argv input_file output_file)
                     (Z.to_nat runs) [] w with
    | (inr times, w') =>
      (inr (mkBenchmarkResult "OpenJPEG" image_size "decode" times
                              None None), w')
    | (inl f, w') => (inl f, w')
    end
  end.

End Reference.

(** ** profile_encoder.py: [run_profiling_test] *)

(** [data[key] = item]. *)
Definition setitem (data : value) (key : string) (item : value)
  : result value :=
  match data with
  | VDict d => Ok (VDict (<[key := item]> d))
  | _ => Raise TypeError
  end.

Section Profiling.
Context {Ext : Type}.
Variable exec : list string → gmap string string → Ext
                → result Z * gmap string string * Ext.
Variable json_loads : string → result value.
Variable perf_counter : Ext → float * Ext.
Variable str_exn : exn → string.

(** [result.stderr]: what the last command wrote to its standard
    error. *)
Variable captured_stderr : Ext → string.

Definition profile_output (input_path output_dir preset : string) : string :=
  path_join output_dir
    ("profile_" +:+ path_stem input_path +:+ "_" +:+ preset +:+ ".json").

Definition profile_argv (cli_path input_path output_dir preset : string)
    (runs : Z) : list string :=
  [cli_path; "benchmark"; "-i"; input_path;
   "-o"; profile_output input_path output_dir preset;
   "--preset"; preset; "--runs"; str_int runs; "--encode-only"].

Definition run_profiling_test (cli_path input_path output_dir preset : string)
    (runs : Z) : M (option value) :=
  let output_file := profile_output input_path output_dir preset in
  bind (print (nl +:+ "Profiling " +:+ path_stem input_path
               +:+ " with preset '" +:+ preset +:+ "' ("
               +:+ str_int runs +:+ " runs)...")) (λ _,
  bind (λ w, let '(t, w') := clock perf_counter w in (Ok t, w')) (λ start,
  bind (subprocess_run exec
          (profile_argv cli_path input_path output_dir preset runs))
    (λ returncode,
  bind (λ w, (Ok (captured_stderr (ext w)), w)) (λ stderr,
  bind (λ w, let '(t, w') := clock perf_counter w in (Ok t, w')) (λ stop,
  let elapsed := sub stop start in
  if negb (returncode =? 0) then
    bind (print ("Error running profiling test: " +:+ stderr)) (λ _,
    ret None)
  else
    catch
      (bind (json_load json_loads output_file) (λ data,
       bind (lift (setitem data "total_wall_time" (VFloat elapsed)))
         (λ data', ret (Some data'))))
      (λ e, bind (print ("Error reading results: " +:+ str_exn e)) (λ _,
            ret None))))))).

End Profiling.

(** ** Environments for the examples of the further parts *)

(** A clock that ticks once per reading, and a reference tool that
    always succeeds and leaves three bytes at [out.j2k]. *)
Definition ticking_clock (n : nat) : float * nat :=
  (lit (Z.of_nat n) 1, S n).

Definition encoding_exec (argv : list string) (files : gmap string string)
    (n : nat) : result Z * gmap string string * nat :=
  (Ok 0, <["out.j2k" := "JP2"]> files, S n).

(** What is expected of a failure that ends a loop of timed runs: a
    return code that is not zero, or an exception of [subprocess.run]
    itself. *)
Definition command_failure (f : failure) : Prop :=
  match f with
  | CalledProcessError returncode => returncode ≠ 0
  | Builtin _ => True
  | IndexError => False
  end.

(** A profiling tool that always succeeds and leaves a document at the
    path it is given after [-o], and a parser that knows this one
    document. *)
Definition profiling_exec (argv : list string) (files : gmap string string)
    (n : nat) : result Z * gmap string string * nat :=
  (Ok 0, <[default EmptyString (argv !! 5%nat) := "{}"]> files, S n).

Definition one_document (text : string) : result value :=
  if decide (text = "{}") then Ok (VDict ∅) else Raise ValueError.

(** * Properties *)

(** ** Float literals and the statistics of a concrete run *)

#[local] Arguments int_truediv : simpl never.
#[local] Arguments truediv : simpl never.
#[local] Arguments statistics.mean : simpl never.

Example lit_one_tenth : lit 1 10 = S754_finite false 7205759403792794 (-56).
Proof. vm_compute. reflexivity. Qed.

Section QcFacts.
Import statistics.
Local Open Scope Qc_scope.

Lemma Qc_of_nat_S (n : nat) : Qc_of_nat (S n) = Qc_of_nat n + 1.
Proof.
  unfold Qc_of_nat. apply Qc_is_canon. simpl.
  rewrite !Qred_correct. rewrite Nat2Z.inj_succ.
  unfold Qeq, Qplus, inject_Z. simpl.
  change (Z.pos (1 * 1)) with 1%Z. lia.
Qed.

Lemma Qc_of_nat_nonneg (n : nat) : 0 <= Qc_of_nat n.
Proof.
  unfold Qcle.
  change (this (Qc_of_nat n)) with (Qred (inject_Z (Z.of_nat n))).
  rewrite Qred_correct. unfold Qle, inject_Z. simpl.
  pose proof (Nat2Z.is_nonneg n). lia.
Qed.

Lemma Qc_of_nat_S_neq0 (n : nat) : Qc_of_nat (S n) ≠ 0.
Proof.
  rewrite Qc_of_nat_S. intros H.
  pose proof (Qc_of_nat_nonneg n) as Hn.
  assert (Hlt : 0 < Qc_of_nat n + 1).
  { apply Qcplus_nonneg_pos; [exact Hn | reflexivity]. }
  rewrite H in Hlt. exact (Qclt_not_eq _ _ Hlt eq_refl).
Qed.

Lemma Qc_sum_sq_dev (xs : list Qc) (c : Qc) :
  Qc_sum ((λ x, (x - c) * (x - c)) <$> xs)
  = Qc_sum ((λ x, x * x) <$> xs) - 2 * c * Qc_sum xs
  + Qc_of_nat (length xs) * c * c.
Proof.
  induction xs as [|x xs IH].
  - cbn [fmap list_fmap Qc_sum foldr length].
    change (Qc_of_nat 0) with (Q2Qc 0). ring.
  - cbn [fmap list_fmap Qc_sum foldr length].
    fold (Qc_sum ((λ x, (x - c) * (x - c)) <$> xs)).
    fold (Qc_sum ((λ x, x * x) <$> xs)). fold (Qc_sum xs).
    rewrite IH, Qc_of_nat_S. ring.
Qed.

(** The library's sum of squares is the sum of squared deviations from
    the exact mean. *)
Lemma ss_is_sum_sq_dev (xs : list Qc) :
  xs ≠ [] →
  ss xs = Qc_sum ((λ x, (x - Qc_sum xs / Qc_of_nat (length xs))
      * (x - Qc_sum xs / Qc_of_nat (length xs))) <$> xs).
Proof.
  intros Hne. rewrite Qc_sum_sq_dev. unfold ss.
  destruct xs as [|x xs]; [congruence|].
  set (n := Qc_of_nat (length (x :: xs))).
  assert (Hn : n ≠ 0) by apply Qc_of_nat_S_neq0.
  field. exact Hn.
Qed.

Lemma Qc_of_nat_pred (n : nat) : (1 ≤ n)%nat → Qc_of_nat (n - 1) = Qc_of_nat n - 1.
Proof.
  intros H. destruct n as [|n]; [lia|].
  rewrite Qc_of_nat_S. replace (S n - 1)%nat with n by lia. ring.
Qed.

End QcFacts.

(** ** The derived metrics of [BenchmarkResult] *)

(** C1. With an empty timing sequence each of the six derived metrics
    returns the float zero; none raises. *)
Theorem empty_timings_metrics_zero (r : BenchmarkResult) :
  times r = [] →
  average r = Ok zero ∧ median r = Ok zero ∧ std_dev r = Ok zero ∧
  min_time r = Ok zero ∧ max_time r = Ok zero ∧ throughput r = Ok zero.
Proof.
  intros Hempty.
  assert (Havg : average r = Ok zero) by (unfold average; now rewrite Hempty).
  repeat split; try assumption.
  - unfold median. now rewrite Hempty.
  - unfold std_dev. now rewrite Hempty.
  - unfold min_time. now rewrite Hempty.
  - unfold max_time. now rewrite Hempty.
  - unfold throughput. rewrite Havg. reflexivity.
Qed.

Lemma empty_timings_metrics_zero_witness :
  let r := BenchmarkResult_init "J2KSwift" 512 "encode" in
  average r = Ok zero ∧ median r = Ok zero ∧ std_dev r = Ok zero ∧
  min_time r = Ok zero ∧ max_time r = Ok zero ∧ throughput r = Ok zero.
Proof.
  apply (empty_timings_metrics_zero (BenchmarkResult_init "J2KSwift" 512 "encode")).
  reflexivity.
Defined.

Lemma int_truediv_raises (a b : Z) (e : exn) :
  int_truediv a b = Raise e → e = OverflowError ∨ (b = 0 ∧ e = ZeroDivisionError).
Proof.
  unfold int_truediv. destruct b; [intros [= <-]; now right | |];
    (destruct a; [discriminate | |];
     (destruct (is_finite _); [discriminate | intros [= <-]; now left])).
Qed.

Lemma mean_not_zero_division (data : list float) :
  statistics.mean data ≠ Raise ZeroDivisionError.
Proof.
  unfold statistics.mean. destruct data as [|x data]; [discriminate|].
  destruct (forallb _ _); [|discriminate].
  intros H. unfold of_Qc in H.
  apply int_truediv_raises in H as [H | [H _]]; discriminate.
Qed.

Lemma average_not_zero_division (r : BenchmarkResult) :
  average r ≠ Raise ZeroDivisionError.
Proof.
  unfold average. destruct (times r); [discriminate|].
  apply mean_not_zero_division.
Qed.

Lemma ltb_zero_not_is_zero (a : float) : ltb zero a = true → is_zero a = false.
Proof. destruct a as [s|s| |s m e]; try reflexivity. destruct s; discriminate. Qed.

(** C2. Throughput is megapixels over average when the average is
    positive and zero otherwise (a zero average, an empty timing list);
    it never divides by zero; at size 512 and average 0.1 s it is within
    1e-6 of 2.62144. *)
Theorem throughput_spec (r : BenchmarkResult) :
  (∀ a, average r = Ok a → ltb zero a = true →
     throughput r =
       (megapixels ← int_truediv (image_size r * image_size r) 1000000;
        Ok (SFdiv prec emax megapixels a)))
  ∧ (∀ a, average r = Ok a → is_zero a = true → throughput r = Ok zero)
  ∧ (times r = [] → throughput r = Ok zero)
  ∧ throughput r ≠ Raise ZeroDivisionError
  ∧ (image_size r = 512 → average r = Ok (lit 1 10) →
     ∃ t, throughput r = Ok t ∧
          (Q2Qc (262144 # 100000) - Q2Qc (1 # 1000000) < to_Qc t)%Qc ∧
          (to_Qc t < Q2Qc (262144 # 100000) + Q2Qc (1 # 1000000))%Qc).
Proof.
  repeat split.
  - intros a Ha Hpos. unfold throughput. rewrite Ha. cbn.
    rewrite Hpos. destruct (int_truediv _ _); [|reflexivity]. cbn.
    unfold truediv. now rewrite (ltb_zero_not_is_zero a Hpos).
  - intros a Ha Hz. unfold throughput. rewrite Ha. cbn.
    destruct a; try discriminate. reflexivity.
  - intros Hempty. unfold throughput, average. rewrite Hempty. reflexivity.
  - unfold throughput. intros H.
    destruct (average r) as [a|e] eqn:Ha.
    + cbn in H. destruct (ltb zero a) eqn:Hpos; [|discriminate].
      destruct (int_truediv _ _) as [mp|e] eqn:Hmp.
      * cbn in H. unfold truediv in H.
        rewrite (ltb_zero_not_is_zero a Hpos) in H. discriminate.
      * cbn in H. injection H as ->.
        apply int_truediv_raises in Hmp as [?|[? _]]; discriminate.
    + cbn in H. injection H as ->. now apply average_not_zero_division in Ha.
  - intros Hsize Havg.
    exists (S754_finite false 5902958103587056 (-51)).
    unfold throughput. rewrite Havg, Hsize. vm_compute. auto.
Qed.

Lemma throughput_spec_witness :
  let r := mkBenchmarkResult "J2KSwift" 512 "encode" [lit 1 10] None None in
  throughput r = Ok (S754_finite false 5902958103587056 (-51)).
Proof.
  intros r.
  rewrite (proj1 (throughput_spec r) (lit 1 10)); vm_compute; reflexivity.
Defined.

(** *** Rounding a quotient to the nearest float

    [int / int] rounds the exact quotient once.  The division keeps the
    quotient and the position of the remainder, the rounding shifts the
    quotient down to 53 bits and rounds to nearest, ties to even. *)

Lemma digits2_pos_bounds (p : positive) :
  2 ^ (Zpos (digits2_pos p) - 1) ≤ Zpos p < 2 ^ Zpos (digits2_pos p).
Proof.
  induction p as [p IH|p IH|]; simpl digits2_pos.
  - rewrite Pos2Z.inj_succ.
    replace (Z.succ (Zpos (digits2_pos p)) - 1)
      with (Z.succ (Zpos (digits2_pos p) - 1)) by lia.
    rewrite !Z.pow_succ_r by lia. lia.
  - rewrite Pos2Z.inj_succ.
    replace (Z.succ (Zpos (digits2_pos p)) - 1)
      with (Z.succ (Zpos (digits2_pos p) - 1)) by lia.
    rewrite !Z.pow_succ_r by lia. lia.
  - simpl. lia.
Qed.

Lemma shr_1_located (N D : Z) (mrs : shr_record) :
  0 < D → located N D mrs → located N (2 * D) (shr_1 mrs).
Proof.
  intros HD. destruct mrs as [m r s]. unfold located. simpl.
  intros (Hm & HR & Hloc).
  destruct m as [|[p|p|]|p]; [| | | |lia]; destruct r, s; simpl; lia.
Qed.

Lemma iter_pos_located (p : positive) (N D : Z) (mrs : shr_record) :
  0 < D → located N D mrs →
  located N (D * 2 ^ Zpos p) (SpecFloat.iter_pos shr_1 p mrs).
Proof.
  revert N D mrs. induction p as [p IH|p IH|]; intros N D mrs HD H; simpl SpecFloat.iter_pos.
  - apply shr_1_located in H; [|lia].
    apply IH in H; [|lia]. apply IH in H; [|nia].
    replace (D * 2 ^ Zpos p~1) with (2 * D * 2 ^ Zpos p * 2 ^ Zpos p); [exact H|].
    rewrite (Pos2Z.inj_xI p), Z.pow_add_r, Z.pow_twice_r by lia.
    change (2 ^ 1) with 2. ring.
  - apply IH in H; [|lia]. apply IH in H; [|nia].
    replace (D * 2 ^ Zpos p~0) with (D * 2 ^ Zpos p * 2 ^ Zpos p); [exact H|].
    rewrite (Pos2Z.inj_xO p), Z.pow_twice_r. ring.
  - apply shr_1_located in H; [|lia].
    replace (D * 2 ^ 1) with (2 * D) by lia. exact H.
Qed.

Lemma shr_located (N D : Z) (mrs : shr_record) (e n : Z) :
  0 < D → located N D mrs →
  (shr mrs e n).2 = e + Z.max 0 n
  ∧ located N (D * 2 ^ Z.max 0 n) (shr mrs e n).1.
Proof.
  intros HD H. destruct n as [|p|p]; simpl.
  - split; [lia|]. now rewrite Z.mul_1_r.
  - split; [lia|]. now apply iter_pos_located.
  - split; [lia|]. now rewrite Z.mul_1_r.
Qed.

Lemma new_location_located (q d r : Z) :
  0 ≤ q → 0 ≤ r < d →
  located (q * d + r) d (shr_record_of_loc q (new_location d r)).
Proof.
  intros Hq Hr. unfold new_location, new_location_even, new_location_odd.
  destruct (Z.even d) eqn:Ed.
  - destruct (Z.eqb_spec r 0) as [->|Hr0]; [unfold located; simpl; lia|].
    destruct (Z.compare_spec (2 * r) d); unfold located; simpl; lia.
  - assert (Hodd : Z.odd d = true) by (now rewrite <- Z.negb_even, Ed).
    apply Z.odd_spec in Hodd as [k ->].
    destruct (Z.eqb_spec r 0) as [->|Hr0]; [unfold located; simpl; lia|].
    destruct (Z.compare_spec (2 * r + 1) (2 * k + 1));
      unfold located; simpl; lia.
Qed.

Lemma shr_m_of_loc (m : Z) (l : location) : shr_m (shr_record_of_loc m l) = m.
Proof. now destruct l as [|[]]. Qed.

Lemma div_core_located (n d : positive) (q e : Z) (l : location) :
  SFdiv_core_binary prec emax (Zpos n) 0 (Zpos d) 0 = (q, e, l) →
  e = Z.min (fexp prec emax (Zpos (digits2_pos n) - Zpos (digits2_pos d))) 0
  ∧ q = (Zpos n * 2 ^ (- e)) / Zpos d
  ∧ located (Zpos n * 2 ^ (- e)) (Zpos d) (shr_record_of_loc q l).
Proof.
  unfold SFdiv_core_binary. simpl Zdigits2. rewrite !Z.add_0_r.
  change (0 - 0) with 0.
  set (e' := Z.min _ 0).
  assert (He' : e' ≤ 0) by (apply Z.le_min_r).
  set (m' := match 0 - e' with Zpos _ => _ | Z0 => _ | Zneg _ => _ end).
  assert (Hm' : m' = Zpos n * 2 ^ (- e')).
  { subst m'. destruct (0 - e') as [|p|p] eqn:Es.
    - replace (- e') with 0 by lia. lia.
    - rewrite Z.shiftl_mul_pow2 by lia. f_equal. f_equal. lia.
    - lia. }
  clearbody m'. subst m'.
  destruct (Z.div_eucl _ _) as [q' r'] eqn:Ediv.
  intros [= <- <- <-].
  assert (Hpow : 0 < 2 ^ (- e')) by (apply Z.pow_pos_nonneg; lia).
  assert (Hq : q' = (Zpos n * 2 ^ (- e')) / Zpos d).
  { unfold Z.div. now rewrite Ediv. }
  assert (Hr' : r' = (Zpos n * 2 ^ (- e')) mod Zpos d).
  { unfold Z.modulo. now rewrite Ediv. }
  pose proof (Z.div_mod (Zpos n * 2 ^ (- e')) (Zpos d) ltac:(lia)) as Heq.
  pose proof (Z.mod_pos_bound (Zpos n * 2 ^ (- e')) (Zpos d) ltac:(lia)) as Hr.
  rewrite <- Hq, <- Hr' in Heq. rewrite <- Hr' in Hr.
  split; [reflexivity|]. split; [exact Hq|].
  rewrite Heq at 1. rewrite (Z.mul_comm (Zpos d) q').
  apply new_location_located; [|lia].
  rewrite Hq. apply Z.div_pos; lia.
Qed.

Lemma round_nearest_even_located (N D : Z) (mrs : shr_record) :
  located N D mrs →
  let m := round_nearest_even (shr_m mrs) (loc_of_shr_record mrs) in
  shr_m mrs ≤ m ≤ shr_m mrs + 1
  ∧ - D ≤ 2 * (m * D - N) ≤ D.
Proof.
  destruct mrs as [m r s]. unfold located. simpl.
  intros (Hm & HR & Hloc).
  destruct r, s; simpl; try destruct (Z.even m); nia.
Qed.

Lemma Zdigits2_bounds (q : Z) :
  0 ≤ q →
  (q = 0 ∧ Zdigits2 q = 0)
  ∨ (0 < Zdigits2 q ∧ 2 ^ (Zdigits2 q - 1) ≤ q < 2 ^ Zdigits2 q).
Proof.
  intros Hq. destruct q as [|p|p]; [left; auto| |lia].
  right. simpl. split; [lia|]. apply digits2_pos_bounds.
Qed.

Lemma fexp_eq (x : Z) : fexp prec emax x = Z.max (x - 53) (-1074).
Proof. reflexivity. Qed.

Lemma pow2_pos (k : Z) : 0 ≤ k → 0 < 2 ^ k.
Proof. intros. apply Z.pow_pos_nonneg; lia. Qed.

Lemma pow2_split (a b : Z) : 0 ≤ a → 0 ≤ b → 2 ^ (a + b) = 2 ^ a * 2 ^ b.
Proof. intros. apply Z.pow_add_r; lia. Qed.

Lemma pow2_le (a b : Z) : 0 ≤ a ≤ b → 2 ^ a ≤ 2 ^ b.
Proof. intros. apply Z.pow_le_mono_r; lia. Qed.

Lemma pow2_lt_inv (a b : Z) : 0 ≤ a → 0 ≤ b → 2 ^ a < 2 ^ b → a < b.
Proof. intros Ha Hb H. apply Z.pow_lt_mono_r_iff in H; lia. Qed.

(** The first shift of the rounding: the quotient [q] of [N] by [d],
    cut down to at most 53 bits. *)
Lemma first_shift (N d q m1 k1 e' : Z) :
  0 < d → 0 ≤ q → q * d ≤ N < (q + 1) * d →
  0 ≤ m1 → m1 * (d * 2 ^ k1) ≤ N < (m1 + 1) * (d * 2 ^ k1) →
  k1 = Z.max 0 (fexp prec emax (Zdigits2 q + e') - e') →
  m1 < 2 ^ 53
  ∧ (- 1074 ≤ e' → -1074 ≤ e' + k1)
  ∧ (0 < k1 → -1074 < e' + k1 → 2 ^ 52 ≤ m1)
  ∧ (k1 = 0 → m1 = q).
Proof.
  intros Hd Hq HN Hm1 HN1 Hk1. rewrite fexp_eq in Hk1.
  assert (Hk : 0 ≤ k1) by lia.
  pose proof (pow2_pos k1 Hk) as HP.
  assert (Hq1 : m1 * 2 ^ k1 ≤ q < (m1 + 1) * 2 ^ k1) by nia.
  destruct (Zdigits2_bounds q Hq) as [[-> HD]|(HD & Hlo & Hhi)].
  - assert (m1 = 0) by nia. subst m1. repeat split; lia.
  - set (D := Zdigits2 q) in *.
    split; [|split; [|split]].
    + assert (HDk : D ≤ k1 + 53) by lia.
      assert (2 ^ D ≤ 2 ^ (k1 + 53)) by (apply pow2_le; lia).
      rewrite pow2_split in * by lia. nia.
    + lia.
    + intros Hpos Hnorm.
      assert (HDk : D - 1 = k1 + 52) by lia.
      rewrite HDk, pow2_split in Hlo by lia. nia.
    + intros ->. change (2 ^ 0) with 1 in Hq1. lia.
Qed.

Lemma quotient_normal (n d : positive) (e' : Z) :
  e' = Z.min (fexp prec emax (Zpos (digits2_pos n) - Zpos (digits2_pos d))) 0 →
  -1074 < e' → 2 ^ 52 ≤ (Zpos n * 2 ^ (- e')) / Zpos d.
Proof.
  rewrite fexp_eq. intros He' Hnorm.
  pose proof (digits2_pos_bounds n) as [Hn _].
  pose proof (digits2_pos_bounds d) as [_ Hd].
  set (dn := Zpos (digits2_pos n)) in *. set (dd := Zpos (digits2_pos d)) in *.
  assert (Hdn : 0 < dn) by (subst dn; lia).
  assert (Hdd : 0 < dd) by (subst dd; lia).
  assert (Ha : 0 ≤ - e') by lia.
  apply Z.div_le_lower_bound; [lia|].
  assert (H1 : 2 ^ (52 + dd) ≤ 2 ^ (dn - 1 + - e')) by (apply pow2_le; lia).
  rewrite !pow2_split in H1 by lia.
  pose proof (pow2_pos (- e') Ha). pose proof (pow2_pos dd ltac:(lia)).
  nia.
Qed.

Lemma shr_nonpos (mrs : shr_record) (e n : Z) : n ≤ 0 → shr mrs e n = (mrs, e).
Proof. intros Hn. destruct n; [reflexivity | lia | reflexivity]. Qed.

Lemma second_shift (m2 e1 : Z) :
  0 ≤ m2 ≤ 2 ^ 53 → -1074 ≤ e1 →
  shr (shr_record_of_loc m2 loc_Exact) e1
      (fexp prec emax (Zdigits2 m2 + e1) - e1)
  = if m2 <? 2 ^ 53 then (Build_shr_record m2 false false, e1)
    else (Build_shr_record (2 ^ 52) false false, e1 + 1).
Proof.
  intros Hm2 He1. destruct (Z.ltb_spec m2 (2 ^ 53)) as [Hlt|Hge].
  - apply shr_nonpos. rewrite fexp_eq.
    destruct (Zdigits2_bounds m2 ltac:(lia)) as [[-> ->]|(HD & Hlo & _)]; [lia|].
    assert (Zdigits2 m2 - 1 < 53) by (apply pow2_lt_inv; lia).
    lia.
  - assert (m2 = 2 ^ 53) as -> by lia.
    replace (fexp prec emax (Zdigits2 (2 ^ 53) + e1) - e1) with 1.
    + reflexivity.
    + rewrite fexp_eq. change (Zdigits2 (2 ^ 53)) with 54. lia.
Qed.

Lemma round_ratio_cases (s : bool) (n d : positive) :
  ∃ a k m e : Z,
    0 ≤ a ∧ 0 ≤ k ∧ e = k - a ∧ -1074 ≤ e
    ∧ 0 ≤ m ≤ 2 ^ 53
    ∧ (-1074 < e → 2 ^ 52 ≤ m ∧ 2 ^ 52 * (Zpos d * 2 ^ k) ≤ Zpos n * 2 ^ a)
    ∧ - (Zpos d * 2 ^ k) ≤ 2 * (m * (Zpos d * 2 ^ k) - Zpos n * 2 ^ a)
      ≤ Zpos d * 2 ^ k
    ∧ round_ratio s n d
      = if m =? 0 then S754_zero s
        else if m <? 2 ^ 53 then
          if e <=? 971 then S754_finite s (Z.to_pos m) e else S754_infinity s
        else
          if e + 1 <=? 971 then S754_finite s (Z.to_pos (2 ^ 52)) (e + 1)
          else S754_infinity s.
Proof.
  unfold round_ratio.
  destruct (SFdiv_core_binary prec emax (Zpos n) 0 (Zpos d) 0)
    as [[q e'] l] eqn:E.
  apply div_core_located in E as (He' & Hq & Hloc).
  assert (Hmin : -1074 ≤ e' ≤ 0) by (rewrite fexp_eq in He'; lia).
  pose proof (quotient_normal n d e' He') as Hnormal. rewrite <- Hq in Hnormal.
  set (N := Zpos n * 2 ^ (- e')) in *.
  unfold binary_round_aux, shr_fexp.
  pose proof (shr_located N (Zpos d) (shr_record_of_loc q l) e'
                (fexp prec emax (Zdigits2 q + e') - e') ltac:(lia) Hloc)
    as [He1 Hloc1].
  destruct (shr (shr_record_of_loc q l) e'
              (fexp prec emax (Zdigits2 q + e') - e')) as [mrs1 e1].
  simpl in He1, Hloc1.
  pose proof (round_nearest_even_located _ _ _ Hloc1) as [Hm2 Hbound].
  set (m2 := round_nearest_even (shr_m mrs1) (loc_of_shr_record mrs1)) in *.
  set (k1 := Z.max 0 (fexp prec emax (Zdigits2 q + e') - e')) in *.
  destruct Hloc as (Hq0 & HR & _). rewrite shr_m_of_loc in Hq0, HR.
  destruct Hloc1 as (Hm1 & HR1 & _).
  destruct (first_shift N (Zpos d) q (shr_m mrs1) k1 e')
    as (Hm1lt & Hemin & Hshifted & Hsame); try lia; try reflexivity.
  assert (Hnorm : -1074 < e1 → 2 ^ 52 ≤ shr_m mrs1).
  { intros He. destruct (Z.eq_dec k1 0) as [Hk|Hk].
    - rewrite (Hsame Hk). apply Hnormal. lia.
    - apply Hshifted; lia. }
  rewrite second_shift by lia.
  exists (- e'), k1, m2, e1.
  split; [lia|]. split; [lia|]. split; [lia|]. split; [lia|].
  split; [lia|].
  split; [intros He; specialize (Hnorm ltac:(lia)); split; [lia|nia]|].
  split; [exact Hbound|].
  destruct (Z.ltb_spec m2 (2 ^ 53)) as [Hlt|Hge]; simpl.
  - destruct m2 as [|p|p]; [reflexivity| |lia]. reflexivity.
  - destruct (Z.eqb_spec m2 0) as [H0|_]; [lia|]. reflexivity.
Qed.


Lemma Qpow2_nonneg (k : Z) : 0 ≤ k → (2 ^ k == inject_Z (2 ^ k))%Q.
Proof. intros Hk. rewrite Zpower_Qpower by exact Hk. reflexivity. Qed.

Lemma Qpow2_frac (k a : Z) :
  0 ≤ k → 0 ≤ a → (2 ^ (k - a) == 2 ^ k # Z.to_pos (2 ^ a))%Q.
Proof.
  intros Hk Ha. rewrite Qpower_minus by discriminate.
  rewrite (Qpow2_nonneg k Hk), (Qpow2_nonneg a Ha), Qmake_Qdiv.
  rewrite Z2Pos.id by (apply pow2_pos; exact Ha). reflexivity.
Qed.

Lemma to_Qc_finite (m : positive) (e : Z) :
  (to_Qc (S754_finite false m e) == inject_Z (Zpos m) * 2 ^ e)%Q.
Proof.
  unfold to_Qc. destruct e as [|p|p].
  - change (this (Q2Qc (inject_Z (Zpos m * 2 ^ 0))))
      with (Qred (inject_Z (Zpos m * 2 ^ 0))).
    rewrite Qred_correct. unfold Qeq. simpl. lia.
  - change (this (Q2Qc (inject_Z (Zpos m * 2 ^ Zpos p))))
      with (Qred (inject_Z (Zpos m * 2 ^ Zpos p))).
    rewrite Qred_correct, inject_Z_mult, Qpow2_nonneg by lia. reflexivity.
  - change (this (Q2Qc (Zpos m # 2 ^ p)))
      with (Qred (Zpos m # 2 ^ p)).
    rewrite Qred_correct, Qmake_Qdiv, Pos2Z.inj_pow.
    change (Zneg p) with (- Zpos p). rewrite Qpower_opp.
    rewrite (Qpow2_nonneg (Zpos p)) by lia. reflexivity.
Qed.

Lemma half_ulp_bound (n d : positive) (m k a : Z) :
  0 ≤ k → 0 ≤ a →
  - (Zpos d * 2 ^ k) ≤ 2 * (m * (Zpos d * 2 ^ k) - Zpos n * 2 ^ a)
    ≤ Zpos d * 2 ^ k →
  (inject_Z m * 2 ^ (k - a) - 2 ^ (k - a - 1) <= Zpos n # d
   ∧ Zpos n # d <= inject_Z m * 2 ^ (k - a) + 2 ^ (k - a - 1))%Q.
Proof.
  intros Hk Ha Hbound.
  replace (k - a - 1) with (k - (a + 1)) by lia.
  rewrite !Qpow2_frac by lia.
  pose proof (pow2_pos k Hk) as HP. pose proof (pow2_pos a Ha) as HA.
  rewrite (pow2_split a 1) by lia. change (2 ^ 1) with 2.
  set (P := 2 ^ k) in *. 
  assert (HA2 : Zpos (Z.to_pos (2 ^ a * 2)) = 2 ^ a * 2) by (apply Z2Pos.id; lia).
  assert (HA1 : Zpos (Z.to_pos (2 ^ a)) = 2 ^ a) by (apply Z2Pos.id; lia).
  unfold Qle, Qminus, Qplus, Qopp, Qmult, inject_Z. simpl.
  rewrite !Pos2Z.inj_mul, HA1, HA2.
  set (A := 2 ^ a) in *. split; nia.
Qed.

Lemma digits_small (m : positive) :
  Zpos m < 2 ^ 53 → Zpos (digits2_pos m) ≤ 53.
Proof.
  intros Hm. pose proof (digits2_pos_bounds m) as [Hlo _].
  assert (Zpos (digits2_pos m) - 1 < 53) by (apply pow2_lt_inv; lia). lia.
Qed.

Lemma digits_large (m : positive) :
  2 ^ 52 ≤ Zpos m → 53 ≤ Zpos (digits2_pos m).
Proof.
  intros Hm. pose proof (digits2_pos_bounds m) as [_ Hhi].
  assert (52 < Zpos (digits2_pos m)) by (apply pow2_lt_inv; lia). lia.
Qed.

Lemma valid_binary_finite (s : bool) (m : positive) (e : Z) :
  Zpos m < 2 ^ 53 → -1074 ≤ e ≤ 971 → (-1074 < e → 2 ^ 52 ≤ Zpos m) →
  valid_binary prec emax (S754_finite s m e) = true.
Proof.
  intros Hm He Hnorm. unfold valid_binary, bounded, canonical_mantissa.
  rewrite fexp_eq. pose proof (digits_small m Hm) as Hsmall.
  apply andb_true_intro. split; [|apply Z.leb_le; unfold emax, prec; lia].
  apply Z.eqb_eq.
  destruct (Z.eq_dec e (-1074)) as [->|Hne]; [lia|].
  pose proof (digits_large m (Hnorm ltac:(lia))). lia.
Qed.

Lemma overflow_threshold (n d a k : Z) :
  0 < d → 0 ≤ a → 971 ≤ k - a →
  (2 ^ 54 - 1) * (d * 2 ^ k) ≤ 2 * (n * 2 ^ a) →
  (2 ^ 1024 - 2 ^ 970) * d ≤ n.
Proof.
  intros Hd Ha Hk H.
  replace k with (a + (k - a)) in H by lia.
  rewrite pow2_split in H by lia.
  pose proof (pow2_pos a Ha) as HA.
  assert (HE : 2 ^ 971 ≤ 2 ^ (k - a)) by (apply pow2_le; lia).
  set (A := 2 ^ a) in *. set (E := 2 ^ (k - a)) in *.
  assert (H1 : (2 ^ 54 - 1) * (d * E) * A ≤ 2 * n * A) by lia.
  apply Z.mul_le_mono_pos_r in H1; [|exact HA].
  assert (H2 : (2 ^ 54 - 1) * (d * 2 ^ 971) ≤ (2 ^ 54 - 1) * (d * E)).
  { apply Z.mul_le_mono_nonneg_l; [lia|].
    apply Z.mul_le_mono_nonneg_l; lia. }
  change (2 ^ 1024 - 2 ^ 970) with ((2 ^ 54 - 1) * 2 ^ 970).
  change (2 ^ 971) with (2 ^ 970 * 2) in H2.
  set (C := 2 ^ 54 - 1) in *. set (B := 2 ^ 970) in *. lia.
Qed.

Lemma half_ulp_pos (x : float) : (0 < half_ulp x)%Q.
Proof. destruct x; apply Qpower_0_lt; reflexivity. Qed.

Lemma int_truediv_nearest (num : Z) (den : positive) :
  0 ≤ num →
  (∃ x, int_truediv num (Zpos den) = Ok x
        ∧ valid_binary prec emax x = true ∧ sign x = false
        ∧ (to_Qc x - half_ulp x <= num # den
           ∧ num # den <= to_Qc x + half_ulp x)%Q)
  ∨ (int_truediv num (Zpos den) = Raise OverflowError
     ∧ (inject_Z (2 ^ 1024 - 2 ^ 970) <= num # den)%Q).
Proof.
  intros Hnum. destruct num as [|n|n]; [| |lia].
  - left. exists (S754_zero false). split; [reflexivity|].
    split; [reflexivity|]. split; [reflexivity|].
    pose proof (half_ulp_pos (S754_zero false)) as Hh.
    set (h := half_ulp (S754_zero false)) in *.
    change (this (to_Qc (S754_zero false))) with (Qred 0).
    rewrite Qred_correct.
    unfold Qle, Qlt, Qminus, Qplus, Qopp in *. simpl in *. lia.
  - unfold int_truediv.
    change (xorb (Zpos n <? 0) (Zpos den <? 0)) with false.
    change (Z.to_pos (Z.abs (Zpos n))) with n.
    change (Z.to_pos (Z.abs (Zpos den))) with den.
    destruct (round_ratio_cases false n den)
      as (a & k & m & e & Ha & Hk & He & Hemin & Hm & Hnorm & Hbound & ->).
    pose proof (half_ulp_bound n den m k a Hk Ha Hbound) as Hnear.
    rewrite <- He in Hnear.
    destruct (Z.eqb_spec m 0) as [->|Hm0].
    + left. exists (S754_zero false). split; [reflexivity|].
      split; [reflexivity|]. split; [reflexivity|].
      assert (e = -1074) as -> by lia.
      change (this (to_Qc (S754_zero false))) with (Qred 0).
      rewrite Qred_correct.
      change (half_ulp (S754_zero false)) with (2 ^ (-1074 - 1))%Q.
      rewrite Qmult_0_l in Hnear. exact Hnear.
    + destruct (Z.ltb_spec m (2 ^ 53)) as [Hlt|Hge].
      * destruct (Z.leb_spec e 971) as [Hle|Hgt].
        -- left. exists (S754_finite false (Z.to_pos m) e).
           assert (Hmpos : Zpos (Z.to_pos m) = m) by (apply Z2Pos.id; lia).
           split; [reflexivity|].
           split; [apply valid_binary_finite; rewrite ?Hmpos; try lia;
                   intros; now apply Hnorm|].
           split; [reflexivity|].
           rewrite to_Qc_finite, Hmpos. exact Hnear.
        -- right. split; [reflexivity|].
           destruct (Hnorm ltac:(lia)) as [_ Hbig].
           unfold Qle. simpl. rewrite Z.mul_1_r.
           apply (overflow_threshold (Zpos n) (Zpos den) a (k - 1)); try lia.
           replace k with (k - 1 + 1) in Hbig by lia.
           rewrite pow2_split in Hbig by lia. change (2 ^ 1) with 2 in Hbig.
           pose proof (pow2_pos (k - 1) ltac:(lia)) as HP.
           set (P := 2 ^ (k - 1)) in *.
           assert (0 < Zpos den * P) by nia.
           change (2 ^ 54 - 1) with (2 * 2 ^ 53 - 1).
           replace (2 ^ 52 * (Zpos den * (P * 2)))
             with (2 ^ 53 * (Zpos den * P)) in Hbig
             by (change (2 ^ 53) with (2 ^ 52 * 2); ring).
           set (C := 2 ^ 53) in *. nia.
      * assert (m = 2 ^ 53) as -> by lia.
        destruct (Z.leb_spec (e + 1) 971) as [Hle|Hgt].
        -- left. exists (S754_finite false (Z.to_pos (2 ^ 52)) (e + 1)).
           split; [reflexivity|].
           split; [apply valid_binary_finite;
                   [reflexivity | lia | intros _; discriminate]|].
           split; [reflexivity|].
           rewrite to_Qc_finite.
           change (half_ulp (S754_finite false (Z.to_pos (2 ^ 52)) (e + 1)))
             with (2 ^ (e + 1 - 1))%Q.
           replace (e + 1 - 1) with e by lia.
           assert (Hstep : (2 ^ (e - 1) <= 2 ^ e)%Q)
             by (apply Qpower_le_compat_l; [lia | discriminate]).
           assert (Hval : (inject_Z (Zpos (Z.to_pos (2 ^ 52))) * 2 ^ (e + 1)
                           == inject_Z (2 ^ 53) * 2 ^ e)%Q).
           { rewrite Qpower_plus by discriminate.
             change (Zpos (Z.to_pos (2 ^ 52))) with (2 ^ 52).
             change (2 ^ 53) with (2 ^ 52 * 2).
             rewrite inject_Z_mult. change (2 ^ 1)%Q with (inject_Z 2).
             ring. }
           rewrite Hval. destruct Hnear as [Hlo Hhi].
           set (v := (inject_Z (2 ^ 53) * 2 ^ e)%Q) in *.
           set (h := (2 ^ (e - 1))%Q) in *. set (h' := (2 ^ e)%Q) in *.
           split.
           ++ apply Qle_trans with (v - h)%Q; [|exact Hlo].
              apply Qplus_le_r. now apply Qopp_le_compat.
           ++ apply Qle_trans with (v + h)%Q; [exact Hhi|].
              now apply Qplus_le_r.
        -- right. split; [reflexivity|].
           unfold Qle. simpl. rewrite Z.mul_1_r.
           apply (overflow_threshold (Zpos n) (Zpos den) a k); try lia.
Qed.

(** *** The square root of a fraction *)

Lemma lor_one (a : Z) : 0 ≤ a → Z.lor a 1 = a ∨ Z.lor a 1 = a + 1.
Proof.
  intros Ha. destruct a as [|p|p]; [right; reflexivity | | lia].
  destruct p as [p|p|]; [left | right | left]; reflexivity.
Qed.

(** The integer [a] below the root of [N/M], and the integer the
    library rounds the root to: [a] itself, or [a + 1] when the root is
    no integer. *)
Lemma rto_bracket (N M : Z) :
  0 ≤ N → 0 < M →
  let a := Z.sqrt (N / M) in
  let rto := statistics.integer_sqrt_of_frac_rto N M in
  0 ≤ a ∧ a * a * M ≤ N ∧ N < (a + 1) * (a + 1) * M
  ∧ (rto = a ∨ (rto = a + 1 ∧ a * a * M ≠ N)).
Proof.
  intros HN HM a rto.
  assert (Hq : 0 ≤ N / M) by (apply Z.div_pos; lia).
  pose proof (Z.sqrt_spec (N / M) Hq) as [Hlo Hhi]. fold a in Hlo, Hhi.
  pose proof (Z.sqrt_nonneg (N / M)) as Ha. fold a in Ha.
  pose proof (Z.mul_div_le N M HM) as Hd1.
  pose proof (Z.mul_succ_div_gt N M HM) as Hd2.
  split; [exact Ha|]. split; [nia|]. split; [nia|].
  subst rto. unfold statistics.integer_sqrt_of_frac_rto. fold a.
  destruct (Z.eqb_spec (a * a * M) N) as [He|He].
  - left. apply Z.lor_0_r.
  - destruct (lor_one a Ha) as [->| ->]; auto.
Qed.

Lemma bit_length_spec (n : Z) :
  0 < n →
  0 < statistics.bit_length n
  ∧ 2 ^ (statistics.bit_length n - 1) ≤ n < 2 ^ statistics.bit_length n.
Proof.
  intros Hn. unfold statistics.bit_length. destruct n as [|p|p]; try lia.
  pose proof (Z.log2_spec (Z.pos p) Hn) as H.
  pose proof (Z.log2_nonneg (Z.pos p)) as H0.
  rewrite Z.abs_eq by lia.
  replace (Z.log2 (Z.pos p) + 1 - 1) with (Z.log2 (Z.pos p)) by lia.
  replace (Z.log2 (Z.pos p) + 1) with (Z.succ (Z.log2 (Z.pos p))) by lia.
  split; [lia | exact H].
Qed.

(** The scaling by [4 ^ q] leaves a quotient of at least 108 bits. *)
Lemma scaled_size (n m : Z) :
  0 < n → 0 < m →
  let q := (statistics.bit_length n - statistics.bit_length m
            - statistics.sqrt_bit_width) / 2 in
  (0 ≤ q → 2 ^ 108 * (m * 2 ^ (2 * q)) ≤ n)
  ∧ (q < 0 → 2 ^ 108 * m ≤ n * 2 ^ (-2 * q)).
Proof.
  intros Hn Hm q.
  destruct (bit_length_spec n Hn) as (Hbn & Hn1 & Hn2).
  destruct (bit_length_spec m Hm) as (Hbm & Hm1 & Hm2).
  assert (Hq : 2 * q ≤ statistics.bit_length n - statistics.bit_length m - 109).
  { subst q. unfold statistics.sqrt_bit_width. apply Z.mul_div_le. lia. }
  set (bn := statistics.bit_length n) in *.
  set (bm := statistics.bit_length m) in *.
  split; intros Hsign.
  - assert (H1 : 2 ^ (108 + bm + 2 * q) ≤ 2 ^ (bn - 1))
      by (apply Z.pow_le_mono_r; lia).
    rewrite !Z.pow_add_r in H1 by lia.
    assert (0 < 2 ^ (2 * q)) by (apply Z.pow_pos_nonneg; lia).
    assert (0 < 2 ^ 108) by (apply Z.pow_pos_nonneg; lia).
    nia.
  - assert (H1 : 2 ^ (108 + bm) ≤ 2 ^ (bn - 1 + -2 * q))
      by (apply Z.pow_le_mono_r; lia).
    rewrite !Z.pow_add_r in H1 by lia.
    assert (0 < 2 ^ (-2 * q)) by (apply Z.pow_pos_nonneg; lia).
    assert (0 < 2 ^ 108) by (apply Z.pow_pos_nonneg; lia).
    nia.
Qed.

Lemma sqrt_large (k : Z) : 2 ^ 108 ≤ k → 2 ^ 54 ≤ Z.sqrt k.
Proof.
  intros H. apply Z.sqrt_le_mono in H.
  change (2 ^ 108) with (2 ^ 54 * 2 ^ 54) in H.
  rewrite Z.sqrt_square in H by (apply Z.pow_nonneg; lia). exact H.
Qed.

(** The library's square root of a fraction is the float quotient of
    two integers whose exact quotient is the root to within one part in
    [2 ^ 54]. *)
Lemma float_sqrt_of_frac_root (n : Z) (m : positive) :
  0 ≤ n →
  ∃ (num : Z) (den : positive) (u : Q),
    statistics.float_sqrt_of_frac n (Zpos m) = int_truediv num (Zpos den)
    ∧ 0 ≤ num ∧ (0 < u)%Q
    ∧ root_within (n # m) (num # den) u
    ∧ (0 < n → ((2 ^ 54 # 1) * u <= num # den)%Q)
    ∧ (n = 0 → num = 0).
Proof.
  intros Hn. unfold statistics.float_sqrt_of_frac.
  set (q := (statistics.bit_length n - statistics.bit_length (Z.pos m)
             - statistics.sqrt_bit_width) / 2).
  destruct (Z.leb_spec 0 q) as [Hq|Hq].
  - assert (Hpos : 0 < n).
    { destruct (Z.eq_dec n 0) as [->|]; [|lia]. exfalso.
      destruct (bit_length_spec (Z.pos m)) as [Hb _]; [lia|].
      subst q. unfold statistics.sqrt_bit_width in Hq.
      simpl statistics.bit_length at 1 in Hq.
      assert ((0 - statistics.bit_length (Z.pos m) - (2 * 53 + 3)) / 2 < 0)
        by (apply Z.div_lt_upper_bound; lia).
      lia. }
    rewrite Z.shiftl_mul_pow2 by lia.
    set (M := Z.pos m * 2 ^ (2 * q)).
    assert (Hp : 0 < 2 ^ q) by (apply Z.pow_pos_nonneg; lia).
    assert (Hpp : 2 ^ (2 * q) = 2 ^ q * 2 ^ q).
    { replace (2 * q) with (q + q) by lia. apply Z.pow_add_r; lia. }
    assert (HM : 0 < M) by (subst M; nia).
    destruct (rto_bracket n M Hn HM) as (Ha & Hlo & Hhi & Hrto).
    set (a := Z.sqrt (n / M)) in *.
    set (rto := statistics.integer_sqrt_of_frac_rto n M) in *.
    assert (Hbig : 2 ^ 54 ≤ a).
    { apply sqrt_large. apply Z.div_le_lower_bound; [exact HM|].
      destruct (scaled_size n (Z.pos m) Hpos) as [H _]; [lia|].
      fold q in H. specialize (H Hq). fold M in H. lia. }
    rewrite Z.shiftl_mul_pow2 by lia.
    exists (rto * 2 ^ q), 1%positive, (2 ^ q # 1).
    split; [reflexivity|].
    split; [destruct Hrto as [->|[-> _]]; nia|].
    split; [unfold Qlt; simpl; lia|].
    split; [|split].
    + exists (a * 2 ^ q # 1). unfold Qle, Qlt, Qeq, Qmult, Qplus. simpl.
      subst M. rewrite Hpp in *.
      split; [nia|]. split; [nia|]. split; [nia|].
      destruct Hrto as [->|[-> _]]; [left | right]; nia.
    + intros _. unfold Qle, Qmult. simpl.
      destruct Hrto as [->|[-> _]]; nia.
    + lia.
  - rewrite !Z.shiftl_mul_pow2 by lia.
    assert (Hp : 0 < 2 ^ (- q)) by (apply Z.pow_pos_nonneg; lia).
    assert (Hpp : 2 ^ (-2 * q) = 2 ^ (- q) * 2 ^ (- q)).
    { replace (-2 * q) with (- q + - q) by lia. apply Z.pow_add_r; lia. }
    set (N := n * 2 ^ (-2 * q)).
    assert (HN : 0 ≤ N) by (subst N; nia).
    destruct (rto_bracket N (Z.pos m) HN) as (Ha & Hlo & Hhi & Hrto); [lia|].
    set (a := Z.sqrt (N / Z.pos m)) in *.
    set (rto := statistics.integer_sqrt_of_frac_rto N (Z.pos m)) in *.
    exists rto, (Z.to_pos (2 ^ (- q))), (1 # Z.to_pos (2 ^ (- q))).
    rewrite Z2Pos.id by exact Hp. rewrite Z.mul_1_l.
    split; [reflexivity|].
    split; [destruct Hrto as [->|[-> _]]; lia|].
    split; [reflexivity|].
    split; [|split].
    + exists (a # Z.to_pos (2 ^ (- q))).
      unfold Qle, Qlt, Qeq, Qmult, Qplus. simpl.
      rewrite ?Pos2Z.inj_mul, ?Z2Pos.id by exact Hp.
      subst N. rewrite Hpp in *.
      set (d := 2 ^ (- q)) in *.
      split; [nia|]. split; [nia|]. split; [nia|].
      destruct Hrto as [->|[-> _]]; [left | right]; nia.
    + intros Hpos. unfold Qle, Qmult. simpl.
      rewrite ?Pos2Z.inj_mul, ?Z2Pos.id by exact Hp.
      assert (Hbig : 2 ^ 54 ≤ a).
      { apply sqrt_large. apply Z.div_le_lower_bound; [lia|].
        destruct (scaled_size n (Z.pos m) Hpos) as [_ H]; [lia|].
        fold q in H. specialize (H Hq). fold N in H. lia. }
      destruct Hrto as [->|[-> _]]; nia.
    + intros ->. subst N. rewrite Z.mul_0_l in *.
      assert (a = 0) by (subst a; reflexivity).
      destruct Hrto as [->|[_ Hne]]; [assumption|]. exfalso. apply Hne. nia.
Qed.

Lemma Qc_square_nonneg (x : Qc) : (0 <= x * x)%Qc.
Proof.
  unfold Qcle. change (this (x * x)%Qc) with (Qred (this x * this x)).
  rewrite Qred_correct. unfold Qle, Qmult. simpl. nia.
Qed.

Lemma Qc_sum_squares_nonneg (xs : list Qc) (c : Qc) :
  (0 <= statistics.Qc_sum ((λ x, (x - c) * (x - c))%Qc <$> xs))%Qc.
Proof.
  induction xs as [|x xs IH]; [apply Qcle_refl|].
  cbn [fmap list_fmap statistics.Qc_sum foldr].
  fold (statistics.Qc_sum ((λ x, (x - c) * (x - c))%Qc <$> xs)).
  change (0%Qc) with (0 + 0)%Qc.
  apply Qcplus_le_compat; [apply Qc_square_nonneg | exact IH].
Qed.

Lemma sample_variance_nonneg (xs : list Qc) :
  (2 ≤ length xs)%nat → (0 <= sample_variance xs)%Qc.
Proof.
  intros Hlen. unfold sample_variance.
  set (sq := statistics.Qc_sum _).
  assert (Hsq : (0 <= sq)%Qc) by apply Qc_sum_squares_nonneg.
  rewrite <- Qc_of_nat_pred by lia.
  assert (Hpos : (0 < statistics.Qc_of_nat (length xs - 1))%Qc).
  { destruct (length xs - 1)%nat as [|k] eqn:Ek; [lia|].
    rewrite Qc_of_nat_S.
    apply Qcplus_nonneg_pos; [apply Qc_of_nat_nonneg | reflexivity]. }
  set (c := statistics.Qc_of_nat (length xs - 1)) in *.
  unfold Qcle, Qclt in *.
  change (this (sq / c)%Qc) with (Qred (this sq * Qred (/ this c))).
  rewrite !Qred_correct.
  apply Qmult_le_0_compat; [exact Hsq|].
  apply Qlt_le_weak, Qinv_lt_0_compat. exact Hpos.
Qed.

Lemma Qc_nonneg_num (v : Qc) : (0 <= v)%Qc → 0 ≤ Qnum (this v).
Proof. unfold Qcle, Qle. change (this 0%Qc) with (0 # 1). simpl. lia. Qed.

Lemma Qc_pos_num (v : Qc) : (0 < v)%Qc → 0 < Qnum (this v).
Proof. unfold Qclt, Qlt. change (this 0%Qc) with (0 # 1). simpl. lia. Qed.

(** C3. The standard deviation is zero for fewer than two timings; for
    two or more (finite) timings it is the float quotient of two integers
    whose exact quotient is the square root of the Bessel-corrected
    sample variance to within one part in [2 ^ 54]: the root lies
    between two fractions that far apart, and the quotient is one of the
    two; the float returned is a binary64 number that is not negative
    and lies within half a unit in the last place of that quotient, and
    [OverflowError] is raised instead only when the quotient is at least
    [2 ^ 1024 - 2 ^ 970]; the result is zero when the variance is; the
    timings 10, 20, 30 have average 20, median 20, standard deviation 10,
    minimum 10 and maximum 30. *)
Theorem std_dev_spec (r : BenchmarkResult) :
  ((length (times r) < 2)%nat → std_dev r = Ok zero)
  ∧ ((2 ≤ length (times r))%nat → forallb is_finite (times r) = true →
     (0 <= sample_variance (to_Qc <$> times r))%Qc
     ∧ ∃ (num : Z) (den : positive) (u : Q),
         std_dev r = int_truediv num (Zpos den)
         ∧ 0 ≤ num ∧ (0 < u)%Q
         ∧ root_within (sample_variance (to_Qc <$> times r)) (num # den) u
         ∧ ((0 < sample_variance (to_Qc <$> times r))%Qc →
            ((2 ^ 54 # 1) * u <= num # den)%Q)
         ∧ (sample_variance (to_Qc <$> times r) = 0%Qc →
            std_dev r = Ok zero)
         ∧ ((∃ x, std_dev r = Ok x
                  ∧ valid_binary prec emax x = true ∧ sign x = false
                  ∧ (to_Qc x - half_ulp x <= num # den
                     ∧ num # den <= to_Qc x + half_ulp x)%Q)
            ∨ (std_dev r = Raise OverflowError
               ∧ (inject_Z (2 ^ 1024 - 2 ^ 970) <= num # den)%Q)))
  ∧ (times r = secs [10; 20; 30] →
     average r = Ok (lit 20 1) ∧ median r = Ok (lit 20 1) ∧
     std_dev r = Ok (lit 10 1) ∧
     min_time r = Ok (lit 10 1) ∧ max_time r = Ok (lit 30 1)).
Proof.
  split; [|split].
  - intros Hlt. unfold std_dev.
    destruct (Nat.ltb_spec 1 (length (times r))); [lia | reflexivity].
  - intros Hge Hfin.
    assert (Hnonneg : (0 <= sample_variance (to_Qc <$> times r))%Qc)
      by (apply sample_variance_nonneg; rewrite length_fmap; exact Hge).
    split; [exact Hnonneg|].
    unfold std_dev, statistics.stdev.
    destruct (Nat.ltb_spec 1 (length (times r))); [|lia].
    destruct (Nat.ltb_spec (length (times r)) 2); [lia|].
    rewrite Hfin.
    assert (Hmss : (statistics.ss (to_Qc <$> times r)
                    / statistics.Qc_of_nat (length (times r) - 1))%Qc
                   = sample_variance (to_Qc <$> times r)).
    { unfold sample_variance. rewrite ss_is_sum_sq_dev, length_fmap.
      - rewrite Qc_of_nat_pred by lia. reflexivity.
      - destruct (times r); [simpl in Hge; lia | discriminate]. }
    rewrite Hmss. clear Hmss.
    set (v := sample_variance (to_Qc <$> times r)) in *.
    assert (Hn : 0 ≤ Qnum (this v)) by now apply Qc_nonneg_num.
    destruct (float_sqrt_of_frac_root (Qnum (this v)) (Qden (this v)) Hn)
      as (num & den & u & Heq & Hnum & Hu & Hroot & Hprec & Hzero).
    exists num, den, u. split; [exact Heq|]. split; [exact Hnum|].
    split; [exact Hu|]. split; [|split; [|split]].
    + destruct (this v) as [vn vd]. exact Hroot.
    + intros Hpos. apply Hprec. now apply Qc_pos_num.
    + intros Hv. rewrite Heq, Hzero; [reflexivity|].
      rewrite Hv. reflexivity.
    + rewrite Heq. apply int_truediv_nearest. exact Hnum.
  - intros H. repeat split.
    + unfold average. rewrite H. vm_compute. reflexivity.
    + unfold median. rewrite H. vm_compute. reflexivity.
    + unfold std_dev. rewrite H. vm_compute. reflexivity.
    + unfold min_time. rewrite H. vm_compute. reflexivity.
    + unfold max_time. rewrite H. vm_compute. reflexivity.
Qed.

Lemma std_dev_spec_witness :
  let r := mkBenchmarkResult "J2KSwift" 512 "encode" (secs [10; 20; 30]) None None in
  (∃ (num : Z) (den : positive) (u : Q),
     std_dev r = int_truediv num (Zpos den)
     ∧ root_within (sample_variance (to_Qc <$> times r)) (num # den) u
     ∧ (to_Qc (lit 10 1) - half_ulp (lit 10 1) <= num # den
        ∧ num # den <= to_Qc (lit 10 1) + half_ulp (lit 10 1))%Q)
  ∧ std_dev r = Ok (lit 10 1).
Proof.
  intros r.
  assert (Hsd : std_dev r = Ok (lit 10 1))
    by (apply (proj2 (proj2 (std_dev_spec r))); reflexivity).
  split; [|exact Hsd].
  destruct (proj1 (proj2 (std_dev_spec r)))
    as (_ & num & den & u & Heq & _ & _ & Hroot & _ & _ & Hnear);
    [simpl; lia | reflexivity |].
  exists num, den, u. split; [exact Heq|]. split; [exact Hroot|].
  destruct Hnear as [(x & Hx & _ & _ & Hnear)|[Hraise _]].
  - rewrite Hsd in Hx. injection Hx as <-. exact Hnear.
  - rewrite Hsd in Hraise. discriminate.
Defined.

(** The same run with its timings in seconds, as the adapters store them,
    and as the CSV report shows it in milliseconds. *)
Example stats_in_seconds :
  let r := mkBenchmarkResult "J2KSwift" 512 "encode"
             [lit 1 100; lit 2 100; lit 3 100] None None in
  average r = Ok (lit 2 100) ∧ median r = Ok (lit 2 100)
  ∧ std_dev r = Ok (lit 1 100)
  ∧ csv_line r
    = Ok "512,J2KSwift,encode,20.000,20.000,10.000,30.000,10.000,13.107,".
Proof. repeat split; vm_compute; reflexivity. Qed.

(** ** The candidate adapter *)

Section AdapterFacts.
Context {Ext : Type}.
Variable exec : list string → gmap string string → Ext
  → result Z * gmap string string * Ext.

Lemma subprocess_run_invoked (argv : list string) (w : @World Ext) :
  invoked (subprocess_run exec argv w).2 = invoked w ++ [argv].
Proof.
  unfold subprocess_run. destruct (exec argv (fs w) (ext w)) as [[rc fs'] ext'].
  reflexivity.
Qed.

(** Printing before a command changes neither its outcome nor the log
    of commands. *)
Lemma subprocess_run_after_print (argv : list string) (line : string)
    (w : @World Ext) :
  (subprocess_run exec argv (print line w).2).1
  = (subprocess_run exec argv w).1
  ∧ invoked (subprocess_run exec argv (print line w).2).2
    = invoked (subprocess_run exec argv w).2.
Proof.
  unfold subprocess_run, print. simpl.
  destruct (exec argv (fs w) (ext w)) as [[rc fs'] ext']. auto.
Qed.

Lemma invoke_benchmark_cases (cli_path input_file output_file : string)
  (runs : Z) (w : @World Ext) :
  let argv := benchmark_argv cli_path input_file output_file runs in
  invoke_benchmark exec cli_path input_file output_file runs w =
  match subprocess_run exec argv w with
  | (Ok rc1, w1) =>
    if rc1 =? 0 then (Ok (), w1)
    else match subprocess_run exec (argv ++ ["--encode-only"])
                 (print retry_warning w1).2 with
    | (Ok rc2, w2) =>
      if rc2 =? 0 then (Ok (), w2) else (Raise encode_only_failed, w2)
    | (Raise e, w2) => (Raise e, w2)
    end
  | (Raise e, w1) => (Raise e, w1)
  end.
Proof.
  intros argv. unfold invoke_benchmark, bind. fold argv.
  destruct (subprocess_run exec argv w) as [[rc1|e] w1]; [|reflexivity].
  destruct (rc1 =? 0); simpl; [reflexivity|].
  destruct (subprocess_run exec _ _) as [[rc2|e] w2]; [|reflexivity].
  destruct (rc2 =? 0); reflexivity.
Qed.

(** C4. When the combined benchmark command exits non-zero the adapter
    runs exactly one more command, the same one with [--encode-only];
    when that exits non-zero too it raises the fatal error; when either
    command exits zero this step raises nothing. *)
Theorem candidate_retry_once (cli_path input_file output_file : string)
  (runs : Z) (w : @World Ext) :
  let argv := benchmark_argv cli_path input_file output_file runs in
  let retry := argv ++ ["--encode-only"] in
  let first := subprocess_run exec argv w in
  let second := subprocess_run exec retry first.2 in
  let outcome := invoke_benchmark exec cli_path input_file output_file runs w in
  (∀ rc1, first.1 = Ok rc1 → rc1 ≠ 0 →
    invoked outcome.2 = invoked w ++ [argv; retry]
    ∧ (∀ rc2, second.1 = Ok rc2 → rc2 ≠ 0 →
      outcome.1 = Raise encode_only_failed)
    ∧ (second.1 = Ok 0 → outcome.1 = Ok ()))
  ∧ (first.1 = Ok 0 →
    outcome.1 = Ok () ∧ invoked outcome.2 = invoked w ++ [argv]).
Proof.
  intros argv retry first second outcome.
  assert (Hlog1 : invoked first.2 = invoked w ++ [argv])
    by apply subprocess_run_invoked.
  assert (Hlog2 : invoked second.2 = invoked w ++ [argv; retry]).
  { subst second. rewrite subprocess_run_invoked, Hlog1, <- app_assoc.
    reflexivity. }
  subst outcome. rewrite invoke_benchmark_cases. fold argv retry first.
  destruct first as [r1 w1]. cbn [fst snd] in *.
  destruct (subprocess_run_after_print retry retry_warning w1)
    as [Hsame Hlog]. fold second in Hsame, Hlog.
  split.
  - intros rc1 -> Hrc1. destruct (Z.eqb_spec rc1 0); [congruence|].
    destruct (subprocess_run exec retry (print retry_warning w1).2)
      as [r2 w2]. cbn [fst snd] in Hsame, Hlog. subst r2.
    rewrite <- Hlog in Hlog2.
    destruct second as [[rc2|e] w2']; simpl in *.
    + destruct (Z.eqb_spec rc2 0); simpl; repeat split; try assumption;
        try congruence; intros ? [= <-] ?; congruence.
    + repeat split; [assumption | discriminate | discriminate].
  - intros ->. simpl. auto.
Qed.

End AdapterFacts.

Lemma candidate_retry_once_witness :
  let w := mkWorld (∅ : gmap string string) O [] [] in
  let outcome := invoke_benchmark flaky_exec "j2k" "in.pgm" "out.json" 5 w in
  invoked outcome.2 =
    [benchmark_argv "j2k" "in.pgm" "out.json" 5;
     benchmark_argv "j2k" "in.pgm" "out.json" 5 ++ ["--encode-only"]]
  ∧ outcome.1 = Ok ().
Proof.
  intros w outcome.
  destruct (candidate_retry_once flaky_exec "j2k" "in.pgm" "out.json" 5 w)
    as [Hfail _].
  destruct (Hfail 1) as (Hlog & _ & Hok); [reflexivity | lia |].
  split; [exact Hlog | apply Hok; reflexivity].
Defined.

(** ** Corpus generation *)

#[global] Instance same_except_preorder path : PreOrder (same_except path).
Proof.
  split.
  - intros f q _. reflexivity.
  - intros f g h Hfg Hgh q Hq. now rewrite (Hgh q Hq), (Hfg q Hq).
Qed.

#[global] Instance grows_preorder : PreOrder grows.
Proof.
  split.
  - intros f q H. exact H.
  - intros f g h Hfg Hgh q Hq. now apply Hgh, Hfg.
Qed.

Section CorpusFacts.
Context {Ext : Type}.
Variable can_open : string → gmap string string → Ext → bool.
Variable randint : Z → Z → Ext → Z * Ext.
Variable str_exn : exn → string.

(** *** How the monad's combinators change the files *)

Section Changes.
Variable R : relation (gmap string string).
Context `{!PreOrder R}.

Lemma changes_by_ret {A} (a : A) : changes_by R (@ret Ext A a).
Proof. intros w. reflexivity. Qed.

Lemma changes_by_bind {A B} (m : @M Ext A) (k : A → M B) :
  changes_by R m → (∀ a, changes_by R (k a)) → changes_by R (bind m k).
Proof.
  intros Hm Hk w. unfold bind. specialize (Hm w).
  destruct (m w) as [[a|e] w']; simpl in *; [|exact Hm].
  etransitivity; [exact Hm | apply Hk].
Qed.

Lemma changes_by_catch {A} (m : @M Ext A) (h : exn → M A) :
  changes_by R m → (∀ e, changes_by R (h e)) → changes_by R (catch m h).
Proof.
  intros Hm Hh w. unfold catch. specialize (Hm w).
  destruct (m w) as [[a|e] w']; simpl in *; [exact Hm|].
  etransitivity; [exact Hm | apply Hh].
Qed.

Lemma changes_by_for_each {A} (l : list A) (body : A → @M Ext ()) :
  (∀ x, changes_by R (body x)) → changes_by R (for_each l body).
Proof.
  intros Hbody. induction l as [|x l IH]; simpl.
  - apply changes_by_ret.
  - apply changes_by_bind; [apply Hbody | intros _; exact IH].
Qed.

Lemma changes_by_print line : changes_by R (@print Ext line).
Proof. intros w. reflexivity. Qed.

Lemma changes_by_random_randint a b :
  changes_by R (random_randint randint a b).
Proof.
  intros w. unfold random_randint. destruct (randint a b (ext w)). reflexivity.
Qed.

Lemma changes_by_random_bytes n : changes_by R (random_bytes randint n).
Proof.
  induction n as [|n IH]; simpl.
  - apply changes_by_ret.
  - apply changes_by_bind; [apply changes_by_random_randint|].
    intros v. apply changes_by_bind; [exact IH|].
    intros rest. apply changes_by_ret.
Qed.

End Changes.

Lemma write_same_except path data :
  changes_by (same_except path) (@write Ext path data).
Proof. intros w q Hq. simpl. now rewrite lookup_insert_ne. Qed.

Lemma open_wb_same_except path :
  changes_by (same_except path) (open_wb can_open path).
Proof.
  intros w q Hq. unfold open_wb. destruct (can_open _ _ _); simpl; [|reflexivity].
  now rewrite lookup_insert_ne.
Qed.

Lemma write_grows path data : changes_by grows (@write Ext path data).
Proof.
  intros w q Hq. simpl. destruct (decide (path = q)) as [->|Hne].
  - rewrite lookup_insert_eq. eauto.
  - now rewrite lookup_insert_ne.
Qed.

Lemma open_wb_grows path : changes_by grows (open_wb can_open path).
Proof.
  intros w q Hq. unfold open_wb. destruct (can_open _ _ _); simpl; [|exact Hq].
  destruct (decide (path = q)) as [->|Hne].
  - rewrite lookup_insert_eq. eauto.
  - now rewrite lookup_insert_ne.
Qed.

Create HintDb files.
#[local] Hint Resolve changes_by_ret changes_by_print changes_by_random_bytes
  write_same_except open_wb_same_except write_grows open_wb_grows : files.
#[local] Hint Extern 1 (PreOrder _) => typeclasses eauto : files.

(** Splits a computation into its steps and closes each with the facts
    about the primitive operations. *)
Ltac step_by_step :=
  repeat first
  [ apply changes_by_catch; [typeclasses eauto| |intros ?]
    | apply changes_by_bind; [typeclasses eauto| |intros ?]
    | apply changes_by_for_each; [typeclasses eauto|intros ?] ];
  auto with files.

(** [create_test_image] writes to its output path only, and removes
    nothing. *)
Lemma create_test_image_same_except size path :
  changes_by (same_except path) (create_test_image can_open str_exn size path).
Proof. unfold create_test_image. step_by_step. Qed.

Lemma create_test_image_grows size path :
  changes_by grows (create_test_image can_open str_exn size path).
Proof. unfold create_test_image. step_by_step. Qed.

Lemma write_image_same_except dir size :
  changes_by (same_except (pgm_path dir size)) (write_image can_open randint dir size).
Proof. unfold write_image. step_by_step. Qed.

Lemma write_image_grows dir size : changes_by grows (write_image can_open randint dir size).
Proof. unfold write_image. step_by_step. Qed.

Lemma generate_test_image_cases dir size (w : @World Ext) :
  generate_test_image can_open randint dir size w =
  if bool_decide (is_Some (fs w !! pgm_path dir size))
  then print ("  Using existing " +:+ size_label size +:+ " test image") w
  else write_image can_open randint dir size w.
Proof.
  unfold generate_test_image, bind at 1, path_exists.
  destruct (bool_decide _); reflexivity.
Qed.

(** One step of the loop leaves every existing file as it is. *)
Lemma generate_test_image_keeps dir size (w : @World Ext) p content :
  fs w !! p = Some content →
  fs (generate_test_image can_open randint dir size w).2 !! p = Some content.
Proof.
  intros Hp. rewrite generate_test_image_cases. case_bool_decide as Hex.
  - exact Hp.
  - rewrite <- Hp. apply write_image_same_except.
    intros ->. apply Hex. now rewrite Hp.
Qed.

Lemma generate_test_images_keeps dir sizes (w : @World Ext) p content :
  fs w !! p = Some content →
  fs (generate_test_images can_open randint dir sizes w).2 !! p = Some content.
Proof.
  revert w. unfold generate_test_images.
  induction sizes as [|size sizes IH]; intros w Hp; simpl; [exact Hp|].
  unfold bind.
  pose proof (generate_test_image_keeps dir size w p content Hp) as Hstep.
  destruct (generate_test_image _ _ _ _ w) as [[[]|e] w']; simpl in *.
  - now apply IH.
  - exact Hstep.
Qed.

Lemma create_test_images_cases dir size sizes acc (w : @World Ext) :
  create_test_images can_open str_exn dir (size :: sizes) acc w =
  let img_path := pgm_path dir size in
  if bool_decide (is_Some (fs w !! img_path))
  then create_test_images can_open str_exn dir sizes (acc ++ [img_path]) w
  else
  match create_test_image can_open str_exn size img_path
    (print ("  Creating " +:+ size_label size +:+ " test image...") w).2 with
  | (Ok true, w') =>
    create_test_images can_open str_exn dir sizes (acc ++ [img_path]) w'
  | (Ok false, w') => (Ok (inl 1), w')
  | (Raise e, w') => (Raise e, w')
  end.
Proof.
  simpl. unfold bind at 1, path_exists. destruct (bool_decide _); simpl;
    [reflexivity|].
  unfold bind. simpl.
  destruct (create_test_image _ _ _ _ _) as [[[]|e] w']; reflexivity.
Qed.

Lemma create_test_images_keeps dir sizes acc (w : @World Ext) p content :
  fs w !! p = Some content →
  fs (create_test_images can_open str_exn dir sizes acc w).2 !! p = Some content.
Proof.
  revert w acc.
  induction sizes as [|size sizes IH]; intros w acc Hp; [exact Hp|].
  rewrite create_test_images_cases. cbv zeta. case_bool_decide as Hex.
  - now apply IH.
  - set (w0 := (print _ w).2).
    assert (Hcreated :
        fs (create_test_image can_open str_exn size (pgm_path dir size) w0).2 !! p
        = Some content).
    { rewrite <- Hp. change (fs w) with (fs w0).
      apply create_test_image_same_except.
      intros ->. apply Hex. now rewrite Hp. }
    destruct (create_test_image _ _ _ _ w0) as [[[]|e] w']; simpl in *;
      [now apply IH | exact Hcreated | exact Hcreated].
Qed.

(** *** A second run *)

Lemma random_bytes_ok n (w : @World Ext) :
  ∃ data, (random_bytes randint n w).1 = Ok data.
Proof.
  revert w. induction n as [|n IH]; intros w; simpl; [by eexists|].
  unfold bind at 1, random_randint.
  destruct (randint 0 255 (ext w)) as [v ext']. unfold bind.
  set (w1 := mkWorld _ _ _ _). destruct (IH w1) as [data Hdata].
  destruct (random_bytes randint n w1) as [[data'|e] w2]; simpl in *;
    [by eexists | discriminate].
Qed.

Lemma write_image_present dir size (w : @World Ext) :
  (write_image can_open randint dir size w).1 = Ok () →
  is_Some (fs (write_image can_open randint dir size w).2 !! pgm_path dir size).
Proof.
  remember (write_image can_open randint dir size w) as out eqn:Hout.
  unfold write_image, bind, open_wb, write, print in Hout. simpl in Hout.
  destruct (can_open _ _ _); [|subst out; discriminate].
  destruct (random_bytes randint _ _) as [[data|e] w2]; subst out;
    [|discriminate].
  intros _. simpl. rewrite lookup_insert_eq. eauto.
Qed.

Lemma generate_test_images_all_present dir sizes (w : @World Ext) :
  (generate_test_images can_open randint dir sizes w).1 = Ok () →
  ∀ size, size ∈ sizes →
  is_Some (fs (generate_test_images can_open randint dir sizes w).2
    !! pgm_path dir size).
Proof.
  revert w. unfold generate_test_images.
  induction sizes as [|s sizes IH]; intros w Hok size Hin.
  { by apply elem_of_nil in Hin. }
  simpl in *. unfold bind in *.
  assert (Hstep : (generate_test_image can_open randint dir s w).1 = Ok () →
      is_Some (fs (generate_test_image can_open randint dir s w).2
        !! pgm_path dir s)).
  { rewrite generate_test_image_cases. case_bool_decide as Hex.
    - intros _. exact Hex.
    - apply write_image_present. }
    destruct (generate_test_image _ _ _ _ w) as [[[]|e] w1]; [|discriminate].
    apply elem_of_cons in Hin as [->|Hin].
  - destruct Hstep as [content Hc]; [reflexivity|].
    exists content. now apply generate_test_images_keeps.
  - now apply IH.
Qed.

Lemma generate_test_images_skip dir sizes (w : @World Ext) :
  (∀ size, size ∈ sizes → is_Some (fs w !! pgm_path dir size)) →
  let again := generate_test_images can_open randint dir sizes w in
  again.1 = Ok () ∧ fs again.2 = fs w ∧ ext again.2 = ext w.
Proof.
  revert w. unfold generate_test_images.
  induction sizes as [|s sizes IH]; intros w Hall; simpl; [done|].
  unfold bind. rewrite generate_test_image_cases.
  rewrite bool_decide_eq_true_2 by (apply Hall; left).
  simpl. apply (IH (mkWorld _ _ _ _)). intros size Hin. apply Hall. now right.
Qed.

Lemma create_test_image_present size path (w : @World Ext) :
  (create_test_image can_open str_exn size path w).1 = Ok true →
  is_Some (fs (create_test_image can_open str_exn size path w).2 !! path).
Proof.
  remember (create_test_image can_open str_exn size path w) as out eqn:Hout.
  unfold create_test_image, catch in Hout. unfold bind at 1 in Hout.
  unfold open_wb in Hout.
  destruct (can_open _ _ _).
  - set (w1 := set_fs _ _) in Hout.
    match type of Hout with
      | context [bind ?a ?b w1] => set (rest := bind a b) in Hout
      end.
    assert (Hrest : changes_by grows rest) by (subst rest; step_by_step).
    assert (H1 : is_Some (fs w1 !! path))
      by (simpl; rewrite lookup_insert_eq; eauto).
    specialize (Hrest w1 path H1).
    destruct (rest w1) as [[b|e] w2]; subst out; simpl in *; intros Hb;
      try discriminate; exact Hrest.
  - subst out. simpl. discriminate.
Qed.

Lemma create_test_images_all_present dir sizes acc (w : @World Ext) paths :
  (create_test_images can_open str_exn dir sizes acc w).1 = Ok (inr paths) →
  ∀ size, size ∈ sizes →
  is_Some (fs (create_test_images can_open str_exn dir sizes acc w).2
    !! pgm_path dir size).
Proof.
  revert w acc.
  induction sizes as [|s sizes IH]; intros w acc Hok size Hin.
  { by apply elem_of_nil in Hin. }
  rewrite create_test_images_cases in *. cbv zeta in *.
  case_bool_decide as Hex.
  - apply elem_of_cons in Hin as [->|Hin]; [|now apply IH].
    destruct Hex as [content Hc]. exists content.
    now apply create_test_images_keeps.
  - set (w0 := (print _ w).2) in *.
    pose proof (create_test_image_present s (pgm_path dir s) w0) as Hnew.
    destruct (create_test_image _ _ _ _ w0) as [[[]|e] w']; simpl in *;
      try discriminate.
    apply elem_of_cons in Hin as [->|Hin]; [|now apply IH].
    destruct Hnew as [content Hc]; [reflexivity|]. exists content.
    now apply create_test_images_keeps.
Qed.

Lemma create_test_images_paths dir sizes acc (w : @World Ext) paths :
  (create_test_images can_open str_exn dir sizes acc w).1 = Ok (inr paths) →
  paths = acc ++ (pgm_path dir <$> sizes).
Proof.
  revert w acc.
  induction sizes as [|s sizes IH]; intros w acc Hok.
  { simpl in Hok. injection Hok as <-. now rewrite app_nil_r. }
  rewrite create_test_images_cases in Hok. cbv zeta in Hok.
  case_bool_decide.
  - apply IH in Hok. rewrite Hok, <- app_assoc. reflexivity.
  - destruct (create_test_image _ _ _ _ _) as [[[]|e] w']; simpl in *;
      try discriminate.
    apply IH in Hok. rewrite Hok, <- app_assoc. reflexivity.
Qed.

Lemma create_test_images_skip dir sizes acc (w : @World Ext) :
  (∀ size, size ∈ sizes → is_Some (fs w !! pgm_path dir size)) →
  let again := create_test_images can_open str_exn dir sizes acc w in
  again.1 = Ok (inr (acc ++ (pgm_path dir <$> sizes)))
  ∧ fs again.2 = fs w ∧ ext again.2 = ext w.
Proof.
  revert w acc.
  induction sizes as [|s sizes IH]; intros w acc Hall.
  { simpl. now rewrite app_nil_r. }
  cbv zeta. rewrite create_test_images_cases. cbv zeta.
  rewrite bool_decide_eq_true_2 by (apply Hall; left).
  destruct (IH w (acc ++ [pgm_path dir s])) as (H1 & H2 & H3).
  { intros size Hin. apply Hall. now right. }
  rewrite H1, <- app_assoc. auto.
Qed.

(** C8. Corpus generation never rewrites an image that is already at its
    canonical path: its bytes are the same afterwards, in both scripts;
    and a second run after a completed one changes no file and draws no
    random number. *)
Theorem corpus_generation_idempotent dir sizes (w : @World Ext) :
  (∀ size content, 0 < size →
    fs w !! pgm_path dir size = Some content →
    fs (generate_test_images can_open randint dir sizes w).2
    !! pgm_path dir size = Some content
    ∧ ∀ acc, fs (create_test_images can_open str_exn dir sizes acc w).2
    !! pgm_path dir size = Some content)
  ∧ ((generate_test_images can_open randint dir sizes w).1 = Ok () →
    let w1 := (generate_test_images can_open randint dir sizes w).2 in
    let again := generate_test_images can_open randint dir sizes w1 in
    again.1 = Ok () ∧ fs again.2 = fs w1 ∧ ext again.2 = ext w1)
  ∧ (∀ acc paths,
    (create_test_images can_open str_exn dir sizes acc w).1 = Ok (inr paths) →
    let w1 := (create_test_images can_open str_exn dir sizes acc w).2 in
    let again := create_test_images can_open str_exn dir sizes acc w1 in
    again.1 = Ok (inr paths) ∧ fs again.2 = fs w1 ∧ ext again.2 = ext w1).
Proof.
  split; [|split].
  - intros size content _ Hp. split.
    + now apply generate_test_images_keeps.
    + intros acc. now apply create_test_images_keeps.
  - intros Hok. apply generate_test_images_skip.
    now apply generate_test_images_all_present.
  - intros acc paths Hok.
    rewrite (create_test_images_paths _ _ _ _ _ Hok).
    apply create_test_images_skip.
    now apply (create_test_images_all_present _ _ _ _ paths).
Qed.

End CorpusFacts.

Lemma corpus_generation_idempotent_witness :
  fs (generate_test_images always_open counter_randint "imgs" [2; 1]
        seeded_world).2 !! pgm_path "imgs" 2 = Some "old bytes"
  ∧ fs (create_test_images always_open plain_exn "imgs" [2; 1] []
          seeded_world).2 !! pgm_path "imgs" 2 = Some "old bytes".
Proof.
  destruct (corpus_generation_idempotent always_open counter_randint plain_exn
              "imgs" [2; 1] seeded_world) as [Hkeep _].
  destruct (Hkeep 2 "old bytes") as [H1 H2]; [lia | reflexivity |].
  split; [exact H1 | apply H2].
Defined.

(** ** The relative-speed column *)

Lemma relative_cell_not_applicable (j2kswift : BenchmarkResult) :
  relative_cell None j2kswift = Ok "N/A".
Proof. reflexivity. Qed.

Lemma relative_speed_guarded (openjpeg j2kswift : BenchmarkResult) (b : float) :
  average j2kswift = Ok b → ltb zero b = true →
  relative_speed openjpeg j2kswift ≠ Raise ZeroDivisionError.
Proof.
  intros Hb Hpos. unfold relative_speed. rewrite Hb.
  destruct (average openjpeg) as [a|e] eqn:Ha; cbn.
  - unfold truediv. rewrite (ltb_zero_not_is_zero b Hpos). discriminate.
  - intros [= ->]. now apply average_not_zero_division in Ha.
Qed.

(** C6. The relative-speed column divides the reference average by the
    candidate average whenever both results exist, with no test of the
    divisor: a candidate result whose average is zero makes the markdown
    report and the per-size comparison of [main] raise
    [ZeroDivisionError]. *)
Theorem relative_speed_divides_by_zero (now : string) :
  average candidate_without_runs = Ok zero
  ∧ relative_speed reference_encode candidate_without_runs
    = Raise ZeroDivisionError
  ∧ markdown_lines now [candidate_without_runs; reference_encode]
    = Raise ZeroDivisionError
  ∧ markdown_lines now [candidate_zero_run; reference_encode]
    = Raise ZeroDivisionError
  ∧ comparison_lines candidate_without_runs None
      reference_encode reference_decode
    = Raise ZeroDivisionError.
Proof. repeat split; vm_compute; reflexivity. Qed.

(** ** A compressed size of zero *)

Lemma filter_fmap_invariant {A} (f : A → A) (P : A → Prop)
    `{∀ x, Decision (P x)} (l : list A) :
  (∀ x, P (f x) ↔ P x) → filter P (f <$> l) = f <$> filter P l.
Proof.
  intros Hf. induction l as [|x l IH]; [reflexivity|].
  rewrite fmap_cons, !filter_cons, IH.
  destruct (decide (P (f x))) as [Hy|Hn], (decide (P x)) as [Hy'|Hn'];
    try reflexivity; exfalso; [apply Hn', Hf, Hy | apply Hn, Hf, Hy'].
Qed.

Lemma mapR_fmap_ext {A B} (g : A → result B) (f : A → A) (l : list A) :
  (∀ x, g (f x) = g x) → mapR g (f <$> l) = mapR g l.
Proof.
  intros Hg. induction l as [|x l IH]; [reflexivity|].
  rewrite fmap_cons. simpl. now rewrite Hg, IH.
Qed.

Lemma mapR_ext_in {A B} (g h : A → result B) (l : list A) :
  (∀ x, x ∈ l → g x = h x) → mapR g l = mapR h l.
Proof.
  induction l as [|x l IH]; intros Hgh; [reflexivity|]. simpl.
  rewrite Hgh by left. rewrite IH; [reflexivity|].
  intros y Hy. apply Hgh. now right.
Qed.

Lemma truthy_forget_zero (r : BenchmarkResult) :
  truthy (compressed_size (forget_zero r)) = truthy (compressed_size r).
Proof. simpl. now destruct (truthy (compressed_size r)) eqn:E. Qed.

Lemma size_kb_forget_zero (r : BenchmarkResult) :
  size_kb (forget_zero r) = size_kb r.
Proof.
  unfold size_kb. rewrite truthy_forget_zero. simpl.
  now destruct (truthy (compressed_size r)).
Qed.

Lemma metric_cells_forget_zero (r : BenchmarkResult) :
  metric_cells (forget_zero r) = metric_cells r.
Proof. reflexivity. Qed.

Lemma relative_cell_forget_zero (o : option BenchmarkResult) (j : BenchmarkResult) :
  relative_cell (forget_zero <$> o) (forget_zero j) = relative_cell o j.
Proof. now destruct o. Qed.

Lemma find_impl_forget_zero impl (rs : list BenchmarkResult) :
  find_impl impl (forget_zero <$> rs) = forget_zero <$> find_impl impl rs.
Proof.
  unfold find_impl. rewrite filter_fmap_invariant by reflexivity.
  now destruct (filter _ rs).
Qed.

Lemma encode_rows_forget_zero (rs : list BenchmarkResult) (size : Z) :
  encode_rows (forget_zero <$> rs) size = encode_rows rs size.
Proof.
  unfold encode_rows. rewrite filter_fmap_invariant by reflexivity.
  rewrite !find_impl_forget_zero.
  destruct (find_impl "J2KSwift" _) as [j|], (find_impl "OpenJPEG" _) as [o|];
    simpl; rewrite ?size_kb_forget_zero; reflexivity.
Qed.

Lemma decode_rows_forget_zero (rs : list BenchmarkResult) (size : Z) :
  decode_rows (forget_zero <$> rs) size = decode_rows rs size.
Proof.
  unfold decode_rows. rewrite filter_fmap_invariant by reflexivity.
  rewrite !find_impl_forget_zero.
  destruct (find_impl "J2KSwift" _) as [j|], (find_impl "OpenJPEG" _) as [o|];
    reflexivity.
Qed.

Lemma sorted_sizes_forget_zero (rs : list BenchmarkResult) :
  sorted_sizes (forget_zero <$> rs) = sorted_sizes rs.
Proof. unfold sorted_sizes. now rewrite <- list_fmap_compose. Qed.

Lemma encode_results_forget_zero (rs : list BenchmarkResult) :
  encode_results_of (forget_zero <$> rs) = forget_zero <$> encode_results_of rs.
Proof. apply filter_fmap_invariant. reflexivity. Qed.

Lemma decode_results_forget_zero (rs : list BenchmarkResult) :
  decode_results_of (forget_zero <$> rs) = forget_zero <$> decode_results_of rs.
Proof. apply filter_fmap_invariant. reflexivity. Qed.

Lemma mean_average_forget_zero impl (rs : list BenchmarkResult) :
  mean_average impl (forget_zero <$> rs) = mean_average impl rs.
Proof.
  unfold mean_average. rewrite filter_fmap_invariant by reflexivity.
  now rewrite mapR_fmap_ext by reflexivity.
Qed.

Lemma table_rows_ext (f g : Z → result (list row)) (sizes : list Z) :
  (∀ size, f size = g size) → table_rows f sizes = table_rows g sizes.
Proof.
  intros Hfg. unfold table_rows.
  rewrite (mapR_ext_in f g) by (intros; apply Hfg). reflexivity.
Qed.

Lemma summary_forget_zero (rs : list BenchmarkResult) :
  summary (forget_zero <$> rs) = summary rs.
Proof.
  unfold summary.
  rewrite encode_results_forget_zero, decode_results_forget_zero.
  rewrite !mean_average_forget_zero.
  rewrite !(filter_fmap_invariant forget_zero) by reflexivity.
  destruct (filter _ (decode_results_of rs)) as [|j js],
           (filter (λ r, implementation r = "OpenJPEG") (decode_results_of rs))
             as [|o os]; reflexivity.
Qed.

(** C10. A compressed size of zero renders exactly as an absent one: the
    markdown and CSV reports of a result set are unchanged when every
    zero size is replaced by [None]; the markdown cell reads ["N/A"] and
    the last CSV field is empty. *)
Theorem zero_compressed_size_reads_as_absent (now : string)
    (results : list BenchmarkResult) :
  markdown_lines now (forget_zero <$> results) = markdown_lines now results
  ∧ csv_lines (forget_zero <$> results) = csv_lines results
  ∧ (∀ r, compressed_size r = Some 0 ∨ compressed_size r = None →
       size_kb r = Ok "N/A"
       ∧ ∀ line, csv_line r = Ok line →
           ∃ cells, length cells = 9%nat
                    ∧ line = join "," (cells ++ [EmptyString])).
Proof.
  split; [|split].
  - unfold markdown_lines, encode_table, decode_table.
    rewrite summary_forget_zero.
    rewrite encode_results_forget_zero, decode_results_forget_zero.
    rewrite sorted_sizes_forget_zero.
    rewrite (table_rows_ext _ _ _ (encode_rows_forget_zero _)).
    rewrite (table_rows_ext _ _ _ (decode_rows_forget_zero _)).
    reflexivity.
  - unfold csv_lines. rewrite mapR_fmap_ext; [reflexivity|].
    intros r. unfold csv_line. rewrite truthy_forget_zero. simpl.
    now destruct (truthy (compressed_size r)).
  - intros r Hr.
    assert (Hfalse : truthy (compressed_size r) = false)
      by (destruct Hr as [-> | ->]; reflexivity).
    split.
    + unfold size_kb. now rewrite Hfalse.
    + intros line. unfold csv_line. rewrite Hfalse.
      destruct (average r) as [a|]; [|discriminate].
      destruct (median r) as [m|]; [|discriminate].
      destruct (min_time r) as [lo|]; [|discriminate].
      destruct (max_time r) as [hi|]; [|discriminate].
      destruct (std_dev r) as [sd|]; [|discriminate].
      destruct (throughput r) as [t|]; [|discriminate].
      cbn. intros [= <-].
      exists [str_int (image_size r); implementation r; operation r;
              ms 3 a; ms 3 m; ms 3 lo; ms 3 hi; ms 3 sd; format_f 3 t].
      split; reflexivity.
Qed.

Lemma zero_compressed_size_reads_as_absent_witness :
  let r := mkBenchmarkResult "OpenJPEG" 256 "encode" [lit 1 10] (Some 0) None in
  size_kb r = Ok "N/A".
Proof.
  intros r.
  apply (zero_compressed_size_reads_as_absent EmptyString [] ).
  left. reflexivity.
Defined.

(** ** The tables of the markdown report *)

Lemma mapR_Forall2 {A B} (f : A → result B) (l : list A) (ys : list B) :
  mapR f l = Ok ys → Forall2 (λ x y, f x = Ok y) l ys.
Proof.
  revert ys. induction l as [|x l IH]; intros ys; simpl.
  - intros [= <-]. constructor.
  - destruct (f x) as [y|] eqn:Hx; [|discriminate]. cbn.
    destruct (mapR f l) as [ys'|]; [|discriminate]. cbn.
    intros [= <-]. constructor; [exact Hx | now apply IH].
Qed.

Lemma StronglySorted_le_lt (l : list Z) :
  StronglySorted Z.le l → NoDup l → StronglySorted Z.lt l.
Proof.
  induction 1 as [|x l Hl IH Hx]; intros Hnd; [constructor|].
  apply NoDup_cons in Hnd as [Hnotin Hnd].
  constructor; [now apply IH|].
  rewrite Forall_forall in *. intros y Hy. specialize (Hx y Hy).
  assert (x ≠ y) by (intros ->; contradiction). lia.
Qed.

Lemma sorted_sizes_strict (rs : list BenchmarkResult) :
  StronglySorted Z.lt (sorted_sizes rs).
Proof.
  unfold sorted_sizes. apply StronglySorted_le_lt.
  - apply StronglySorted_merge_sort; apply _.
  - rewrite merge_sort_Permutation. apply NoDup_remove_dups.
Qed.

Lemma sorted_sizes_elem_of (rs : list BenchmarkResult) (r : BenchmarkResult) :
  r ∈ rs → image_size r ∈ sorted_sizes rs.
Proof.
  intros Hr. unfold sorted_sizes.
  rewrite merge_sort_Permutation, elem_of_remove_dups.
  now apply list_elem_of_fmap_2.
Qed.

Lemma find_impl_Some impl (rs : list BenchmarkResult) (r : BenchmarkResult) :
  find_impl impl rs = Some r → r ∈ rs ∧ implementation r = impl.
Proof.
  unfold find_impl. intros H. apply head_Some_elem_of in H.
  apply list_elem_of_filter in H as [? ?]. auto.
Qed.

Lemma find_impl_is_Some impl (rs : list BenchmarkResult) (r : BenchmarkResult) :
  r ∈ rs → implementation r = impl → is_Some (find_impl impl rs).
Proof.
  intros Hin Himpl. unfold find_impl.
  assert (Hf : r ∈ filter (λ r, implementation r = impl) rs)
    by (apply list_elem_of_filter; auto).
  destruct (filter _ rs); [by apply elem_of_nil in Hf | simpl; eauto].
Qed.

Lemma relative_cell_shape (o : option BenchmarkResult) (j : BenchmarkResult) cell :
  relative_cell o j = Ok cell → relative_speed_cell cell.
Proof.
  unfold relative_cell. destruct o as [o|].
  - destruct (relative_speed o j) as [p|]; [|discriminate].
    intros [= <-]. right. eauto.
  - intros [= <-]. now left.
Qed.

Lemma reference_cell_shape : relative_speed_cell "100.0%".
Proof. right. exists (lit 100 1). vm_compute. reflexivity. Qed.

Lemma size_block_intro rs size (j o : list row) :
  Forall (λ r, table_row_of size r ∧ row_from rs r
               ∧ row_implementation r = "J2KSwift") j →
  Forall (λ r, table_row_of size r ∧ row_from rs r
               ∧ row_implementation r = "OpenJPEG") o →
  (length j ≤ 1)%nat → (length o ≤ 1)%nat →
  size_block rs size (j ++ o).
Proof.
  intros Hj Ho Hlj Hlo. split.
  - apply StronglySorted_app_2.
    + intros x y Hx Hy. rewrite Forall_forall in Hj, Ho.
      destruct (Hj x Hx) as ((Hsx & _) & _ & Hix).
      destruct (Ho y Hy) as ((Hsy & _) & _ & Hiy).
      right. repeat split; congruence.
    + destruct j as [|? [|]]; simpl in Hlj; try lia; repeat constructor.
    + destruct o as [|? [|]]; simpl in Hlo; try lia; repeat constructor.
  - apply Forall_app. split.
    + eapply Forall_impl; [exact Hj|]. intros r (? & ? & _). auto.
    + eapply Forall_impl; [exact Ho|]. intros r (? & ? & _). auto.
Qed.

Lemma bind_Ok {A B} (m : result A) (k : A → result B) (y : B) :
  m ≫= k = Ok y → ∃ x, m = Ok x ∧ k x = Ok y.
Proof. destruct m as [x|e]; [eauto | discriminate]. Qed.

(** Takes a successful chain of binds apart, one step at a time. *)
Ltac bind_inv H :=
  repeat (let x := fresh "x" in
          let Hx := fresh "Hx" in
          apply bind_Ok in H as (x & Hx & H)).

(** The single row a found result contributes. *)
Lemma single_row_block rs size impl (b : BenchmarkResult) cells relative :
  b ∈ rs → image_size b = size → implementation b = impl →
  impl = "J2KSwift" ∨ impl = "OpenJPEG" →
  relative_speed_cell relative →
  Forall (λ r, table_row_of size r ∧ row_from rs r
               ∧ row_implementation r = impl)
         [mkRow size impl (size_label size :: impl :: cells ++ [relative])].
Proof.
  intros Hin Hsize Himpl Hwhich Hrel.
  constructor; [|constructor]. split; [|split].
  - split; [reflexivity | split; [exact Hwhich | simpl; eauto]].
  - exists b. auto.
  - reflexivity.
Qed.

Lemma encode_rows_block (rs : list BenchmarkResult) (size : Z) rows :
  encode_rows rs size = Ok rows → size_block rs size rows.
Proof.
  unfold encode_rows.
  set (size_results := filter (λ r, image_size r = size) rs).
  assert (Hfrom : ∀ impl b, find_impl impl size_results = Some b →
            b ∈ rs ∧ image_size b = size ∧ implementation b = impl).
  { intros impl b Hb. apply find_impl_Some in Hb as [Hin Himpl].
    apply list_elem_of_filter in Hin as [? ?]. auto. }
  intros H. apply bind_Ok in H as (r1 & H1 & H).
  apply bind_Ok in H as (r2 & H2 & H). injection H as <-.
  apply size_block_intro.
  - destruct (find_impl "J2KSwift" size_results) as [j|] eqn:Ej.
    + bind_inv H1. injection H1 as <-.
      destruct (Hfrom _ _ Ej) as (? & ? & ?).
      replace (x1 ++ [x0; x]) with ((x1 ++ [x0]) ++ [x])
        by (rewrite <- app_assoc; reflexivity).
      apply (single_row_block rs size "J2KSwift" j); auto.
      eapply relative_cell_shape; eauto.
    + injection H1 as <-. constructor.
  - destruct (find_impl "OpenJPEG" size_results) as [o|] eqn:Eo.
    + bind_inv H2. injection H2 as <-.
      destruct (Hfrom _ _ Eo) as (? & ? & ?).
      replace (x0 ++ [x; "100.0%"]) with ((x0 ++ [x]) ++ ["100.0%"])
        by (rewrite <- app_assoc; reflexivity).
      apply (single_row_block rs size "OpenJPEG" o); auto.
      apply reference_cell_shape.
    + injection H2 as <-. constructor.
  - destruct (find_impl "J2KSwift" size_results); [bind_inv H1|];
      injection H1 as <-; simpl; lia.
  - destruct (find_impl "OpenJPEG" size_results); [bind_inv H2|];
      injection H2 as <-; simpl; lia.
Qed.

Lemma decode_rows_block (rs : list BenchmarkResult) (size : Z) rows :
  decode_rows rs size = Ok rows → size_block rs size rows.
Proof.
  unfold decode_rows.
  set (size_results := filter (λ r, image_size r = size) rs).
  assert (Hfrom : ∀ impl b, find_impl impl size_results = Some b →
            b ∈ rs ∧ image_size b = size ∧ implementation b = impl).
  { intros impl b Hb. apply find_impl_Some in Hb as [Hin Himpl].
    apply list_elem_of_filter in Hin as [? ?]. auto. }
  intros H. apply bind_Ok in H as (r1 & H1 & H).
  apply bind_Ok in H as (r2 & H2 & H). injection H as <-.
  apply size_block_intro.
  - destruct (find_impl "J2KSwift" size_results) as [j|] eqn:Ej.
    + bind_inv H1. injection H1 as <-.
      destruct (Hfrom _ _ Ej) as (? & ? & ?).
      apply (single_row_block rs size "J2KSwift" j); auto.
      eapply relative_cell_shape; eauto.
    + injection H1 as <-. constructor.
  - destruct (find_impl "OpenJPEG" size_results) as [o|] eqn:Eo.
    + bind_inv H2. injection H2 as <-.
      destruct (Hfrom _ _ Eo) as (? & ? & ?).
      apply (single_row_block rs size "OpenJPEG" o); auto.
      apply reference_cell_shape.
    + injection H2 as <-. constructor.
  - destruct (find_impl "J2KSwift" size_results); [bind_inv H1|];
      injection H1 as <-; simpl; lia.
  - destruct (find_impl "OpenJPEG" size_results); [bind_inv H2|];
      injection H2 as <-; simpl; lia.
Qed.

(** The blocks of an ascending list of sizes, one after the other, are
    in table order. *)
Lemma table_rows_sorted (rs : list BenchmarkResult)
    (rows_for : Z → result (list row)) (sizes : list Z) (rows : list row) :
  StronglySorted Z.lt sizes →
  (∀ size block, rows_for size = Ok block → size_block rs size block) →
  table_rows rows_for sizes = Ok rows →
  StronglySorted row_before rows
  ∧ Forall (λ r, ∃ size, size ∈ sizes ∧ table_row_of size r ∧ row_from rs r)
           rows.
Proof.
  intros Hsorted Hblock H. unfold table_rows in H.
  apply bind_Ok in H as (blocks & Hblocks & H). injection H as <-.
  apply mapR_Forall2 in Hblocks.
  induction Hblocks as [|size block sizes blocks Hfor _ IH]; simpl.
  { split; constructor. }
  apply StronglySorted_cons in Hsorted as [Hlt Hsorted].
  destruct (IH Hsorted) as [IHs IHf].
  destruct (Hblock size block Hfor) as [Hbs Hbf].
  split.
  - apply StronglySorted_app_2; [|assumption|assumption].
    intros x y Hx Hy.
    rewrite Forall_forall in Hbf. rewrite Forall_forall in IHf.
    rewrite Forall_forall in Hlt.
    destruct (Hbf x Hx) as ((Hsx & _) & _).
    destruct (IHf y Hy) as (size' & Hin & (Hsy & _) & _).
    left. rewrite Hsx, Hsy. now apply Hlt.
  - apply Forall_app. split.
    + eapply Forall_impl; [exact Hbf|]. intros r [? ?].
      exists size. split; [left | auto].
    + eapply Forall_impl; [exact IHf|]. intros r (size' & ? & ?).
      exists size'. split; [now right | auto].
Qed.

Lemma encode_results_elem_of (results : list BenchmarkResult) r :
  r ∈ encode_results_of results ↔ operation r = "encode" ∧ r ∈ results.
Proof. unfold encode_results_of. now rewrite list_elem_of_filter. Qed.

Lemma decode_results_elem_of (results : list BenchmarkResult) r :
  r ∈ decode_results_of results ↔ operation r = "decode" ∧ r ∈ results.
Proof. unfold decode_results_of. now rewrite list_elem_of_filter. Qed.

(** *** What the rows show *)

Lemma render_row_text (rows : list row) :
  render_row <$> rows = row_text <$> rows.
Proof. reflexivity. Qed.

Lemma find_impl_None impl (rs : list BenchmarkResult) :
  find_impl impl rs = None → ∀ r, r ∈ rs → implementation r ≠ impl.
Proof.
  unfold find_impl. intros H r Hin Himpl.
  assert (Hf : r ∈ filter (λ r, implementation r = impl) rs)
    by (apply list_elem_of_filter; auto).
  destruct (filter _ rs); [by apply elem_of_nil in Hf | discriminate].
Qed.

Lemma find_impl_first impl size (rs : list BenchmarkResult)
    (b : BenchmarkResult) :
  find_impl impl (filter (λ r, image_size r = size) rs) = Some b →
  first_such (λ x, image_size x = size ∧ implementation x = impl) rs b.
Proof.
  unfold find_impl. induction rs as [|x rs IH]; [discriminate|].
  rewrite filter_cons. destruct (decide (image_size x = size)) as [Hs|Hs].
  - rewrite filter_cons.
    destruct (decide (implementation x = impl)) as [Hi|Hi].
    + intros [= ->]. exists [], rs. repeat split; auto.
    + intros H. destruct (IH H) as (l1 & l2 & -> & Hb & Hl1).
      exists (x :: l1), l2. repeat split; try apply Hb.
      constructor; [|exact Hl1]. intros [_ ?]. contradiction.
  - intros H. destruct (IH H) as (l1 & l2 & -> & Hb & Hl1).
    exists (x :: l1), l2. repeat split; try apply Hb.
    constructor; [|exact Hl1]. intros [? _]. contradiction.
Qed.

Lemma metric_cells_measurements (b : BenchmarkResult) cells :
  metric_cells b = Ok cells → measurements b cells.
Proof.
  unfold metric_cells. intros H.
  apply bind_Ok in H as (a & Ha & H). apply bind_Ok in H as (m & Hm & H).
  apply bind_Ok in H as (lo & Hlo & H). apply bind_Ok in H as (hi & Hhi & H).
  apply bind_Ok in H as (t & Ht & H). injection H as <-.
  exists a, m, lo, hi, t. auto 10.
Qed.

Lemma size_kb_shown (b : BenchmarkResult) cell :
  size_kb b = Ok cell → size_shown b cell.
Proof.
  unfold size_kb, size_shown, truthy.
  destruct (compressed_size b) as [n|]; [|now intros [= <-]].
  destruct (decide (n = 0)) as [->|Hn]; [now intros [= <-]|].
  rewrite (proj2 (Z.eqb_neq n 0) Hn). simpl. intros H.
  apply bind_Ok in H as (kb & Hkb & H). injection H as <-. eauto.
Qed.

Lemma relative_cell_shown (rs : list BenchmarkResult) (j : BenchmarkResult)
    relative :
  implementation j = "J2KSwift" →
  relative_cell
    (find_impl "OpenJPEG" (filter (λ r, image_size r = image_size j) rs)) j
  = Ok relative →
  relative_shown rs j relative.
Proof.
  intros Himpl H. right. split; [exact Himpl|]. unfold relative_cell in H.
  destruct (find_impl "OpenJPEG" _) as [o|] eqn:Eo.
  - apply bind_Ok in H as (p & Hp & H). injection H as <-.
    apply find_impl_first in Eo.
    unfold relative_speed in Hp.
    apply bind_Ok in Hp as (reference & Hreference & Hp).
    apply bind_Ok in Hp as (candidate & Hcandidate & Hp).
    apply bind_Ok in Hp as (quotient & Hquotient & Hp). injection Hp as <-.
    right. exists o, reference, candidate, quotient. auto 10.
  - injection H as <-. left. split; [reflexivity|].
    intros o Hin Hsize Ho.
    apply (find_impl_None _ _ Eo o); [|exact Ho].
    apply list_elem_of_filter. auto.
Qed.

Lemma encode_rows_show (rs : list BenchmarkResult) (size : Z) rows :
  (∀ b, b ∈ rs → operation b = "encode") →
  encode_rows rs size = Ok rows →
  Forall (λ r, ∃ b, b ∈ rs ∧ row_shows rs b r) rows.
Proof.
  unfold encode_rows.
  set (size_results := filter (λ r, image_size r = size) rs).
  assert (Hfrom : ∀ impl b, find_impl impl size_results = Some b →
            b ∈ rs ∧ image_size b = size ∧ implementation b = impl).
  { intros impl b Hb. apply find_impl_Some in Hb as [Hin Himpl].
    apply list_elem_of_filter in Hin as [? ?]. auto. }
  intros Hop H. apply bind_Ok in H as (r1 & H1 & H).
  apply bind_Ok in H as (r2 & H2 & H). injection H as <-.
  apply Forall_app. split.
  - destruct (find_impl "J2KSwift" size_results) as [j|] eqn:Ej;
      [|injection H1 as <-; constructor].
    destruct (Hfrom _ _ Ej) as (Hin & Hsize & Himpl).
    apply bind_Ok in H1 as (relative & Hrel & H1).
    apply bind_Ok in H1 as (kb & Hkb & H1).
    apply bind_Ok in H1 as (cells & Hcells & H1). injection H1 as <-.
    constructor; [|constructor]. exists j. split; [exact Hin|].
    split; [symmetry; exact Hsize|]. split; [symmetry; exact Himpl|].
    split; [rewrite Hsize, Himpl; now apply find_impl_first|].
    exists cells, [kb], relative. simpl. rewrite Hsize, Himpl.
    split; [reflexivity|].
    split; [now apply metric_cells_measurements|]. split.
    + rewrite decide_True by (now apply Hop).
      eexists. split; [apply size_kb_shown; eassumption | reflexivity].
    + apply relative_cell_shown; [exact Himpl|]. rewrite Hsize. exact Hrel.
  - destruct (find_impl "OpenJPEG" size_results) as [o|] eqn:Eo;
      [|injection H2 as <-; constructor].
    destruct (Hfrom _ _ Eo) as (Hin & Hsize & Himpl).
    apply bind_Ok in H2 as (kb & Hkb & H2).
    apply bind_Ok in H2 as (cells & Hcells & H2). injection H2 as <-.
    constructor; [|constructor]. exists o. split; [exact Hin|].
    split; [symmetry; exact Hsize|]. split; [symmetry; exact Himpl|].
    split; [rewrite Hsize, Himpl; now apply find_impl_first|].
    exists cells, [kb], "100.0%". simpl. rewrite Hsize, Himpl.
    split; [reflexivity|].
    split; [now apply metric_cells_measurements|]. split.
    + rewrite decide_True by (now apply Hop).
      eexists. split; [apply size_kb_shown; eassumption | reflexivity].
    + left. auto.
Qed.

Lemma decode_rows_show (rs : list BenchmarkResult) (size : Z) rows :
  (∀ b, b ∈ rs → operation b = "decode") →
  decode_rows rs size = Ok rows →
  Forall (λ r, ∃ b, b ∈ rs ∧ row_shows rs b r) rows.
Proof.
  unfold decode_rows.
  set (size_results := filter (λ r, image_size r = size) rs).
  assert (Hfrom : ∀ impl b, find_impl impl size_results = Some b →
            b ∈ rs ∧ image_size b = size ∧ implementation b = impl).
  { intros impl b Hb. apply find_impl_Some in Hb as [Hin Himpl].
    apply list_elem_of_filter in Hin as [? ?]. auto. }
  intros Hop H.
  assert (Hnot : ∀ b, b ∈ rs → operation b ≠ "encode").
  { intros b Hb Hb'. rewrite (Hop b Hb) in Hb'. discriminate. }
  apply bind_Ok in H as (r1 & H1 & H).
  apply bind_Ok in H as (r2 & H2 & H). injection H as <-.
  apply Forall_app. split.
  - destruct (find_impl "J2KSwift" size_results) as [j|] eqn:Ej;
      [|injection H1 as <-; constructor].
    destruct (Hfrom _ _ Ej) as (Hin & Hsize & Himpl).
    apply bind_Ok in H1 as (relative & Hrel & H1).
    apply bind_Ok in H1 as (cells & Hcells & H1). injection H1 as <-.
    constructor; [|constructor]. exists j. split; [exact Hin|].
    split; [symmetry; exact Hsize|]. split; [symmetry; exact Himpl|].
    split; [rewrite Hsize, Himpl; now apply find_impl_first|].
    exists cells, [], relative. simpl. rewrite Hsize, Himpl.
    split; [reflexivity|].
    split; [now apply metric_cells_measurements|]. split.
    + rewrite decide_False by (now apply Hnot). reflexivity.
    + apply relative_cell_shown; [exact Himpl|]. rewrite Hsize. exact Hrel.
  - destruct (find_impl "OpenJPEG" size_results) as [o|] eqn:Eo;
      [|injection H2 as <-; constructor].
    destruct (Hfrom _ _ Eo) as (Hin & Hsize & Himpl).
    apply bind_Ok in H2 as (cells & Hcells & H2). injection H2 as <-.
    constructor; [|constructor]. exists o. split; [exact Hin|].
    split; [symmetry; exact Hsize|]. split; [symmetry; exact Himpl|].
    split; [rewrite Hsize, Himpl; now apply find_impl_first|].
    exists cells, [], "100.0%". simpl. rewrite Hsize, Himpl.
    split; [reflexivity|].
    split; [now apply metric_cells_measurements|]. split.
    + rewrite decide_False by (now apply Hnot). reflexivity.
    + left. auto.
Qed.

Lemma table_rows_Forall (P : row → Prop) (rows_for : Z → result (list row))
    (sizes : list Z) (rows : list row) :
  (∀ size block, rows_for size = Ok block → Forall P block) →
  table_rows rows_for sizes = Ok rows → Forall P rows.
Proof.
  intros Hblock H. unfold table_rows in H.
  apply bind_Ok in H as (blocks & Hblocks & H). injection H as <-.
  apply mapR_Forall2 in Hblocks.
  induction Hblocks as [|size block sizes blocks Hfor _ IH]; simpl.
  - constructor.
  - apply Forall_app. split; [eapply Hblock; eassumption | exact IH].
Qed.

Lemma table_rows_complete (rows_for : Z → result (list row))
    (sizes : list Z) (rows : list row) (size : Z) :
  table_rows rows_for sizes = Ok rows → size ∈ sizes →
  ∃ block, rows_for size = Ok block ∧ ∀ r, r ∈ block → r ∈ rows.
Proof.
  intros H Hin. unfold table_rows in H.
  apply bind_Ok in H as (blocks & Hblocks & H). injection H as <-.
  apply mapR_Forall2 in Hblocks.
  induction Hblocks as [|s block sizes blocks Hfor _ IH]; simpl.
  { by apply elem_of_nil in Hin. }
  apply elem_of_cons in Hin as [->|Hin].
  - exists block. split; [exact Hfor|]. intros r Hr. apply elem_of_app. now left.
  - destruct (IH Hin) as (b & Hb & Hsub). exists b. split; [exact Hb|].
    intros r Hr. apply elem_of_app. right. now apply Hsub.
Qed.

(** A result of one of the two implementations has its row in the block
    of its size. *)
Lemma encode_rows_complete (rs : list BenchmarkResult) (size : Z) block
    (b : BenchmarkResult) :
  encode_rows rs size = Ok block →
  b ∈ rs → image_size b = size →
  implementation b = "J2KSwift" ∨ implementation b = "OpenJPEG" →
  ∃ row, row ∈ block ∧ row_size row = size
         ∧ row_implementation row = implementation b.
Proof.
  unfold encode_rows. intros H Hin Hsize Himpl.
  apply bind_Ok in H as (r1 & H1 & H).
  apply bind_Ok in H as (r2 & H2 & H). injection H as <-.
  destruct Himpl as [Himpl|Himpl]; rewrite Himpl.
  - destruct (find_impl_is_Some "J2KSwift"
                (filter (λ r, image_size r = size) rs) b) as [j Hj];
      [apply list_elem_of_filter; auto | exact Himpl |].
    rewrite Hj in H1. bind_inv H1. injection H1 as <-.
    eexists. split; [apply elem_of_app; left; left|]. auto.
  - destruct (find_impl_is_Some "OpenJPEG"
                (filter (λ r, image_size r = size) rs) b) as [o Ho];
      [apply list_elem_of_filter; auto | exact Himpl |].
    rewrite Ho in H2. bind_inv H2. injection H2 as <-.
    eexists. split; [apply elem_of_app; right; left|]. auto.
Qed.

Lemma decode_rows_complete (rs : list BenchmarkResult) (size : Z) block
    (b : BenchmarkResult) :
  decode_rows rs size = Ok block →
  b ∈ rs → image_size b = size →
  implementation b = "J2KSwift" ∨ implementation b = "OpenJPEG" →
  ∃ row, row ∈ block ∧ row_size row = size
         ∧ row_implementation row = implementation b.
Proof.
  unfold decode_rows. intros H Hin Hsize Himpl.
  apply bind_Ok in H as (r1 & H1 & H).
  apply bind_Ok in H as (r2 & H2 & H). injection H as <-.
  destruct Himpl as [Himpl|Himpl]; rewrite Himpl.
  - destruct (find_impl_is_Some "J2KSwift"
                (filter (λ r, image_size r = size) rs) b) as [j Hj];
      [apply list_elem_of_filter; auto | exact Himpl |].
    rewrite Hj in H1. bind_inv H1. injection H1 as <-.
    eexists. split; [apply elem_of_app; left; left|]. auto.
  - destruct (find_impl_is_Some "OpenJPEG"
                (filter (λ r, image_size r = size) rs) b) as [o Ho];
      [apply list_elem_of_filter; auto | exact Himpl |].
    rewrite Ho in H2. bind_inv H2. injection H2 as <-.
    eexists. split; [apply elem_of_app; right; left|]. auto.
Qed.

Lemma encoded_sizes_sorted (results : list BenchmarkResult) (size : Z) :
  size ∈ encoded_sizes results →
  size ∈ sorted_sizes (encode_results_of results).
Proof.
  unfold encoded_sizes, sorted_sizes, encode_results_of. intros H.
  now rewrite merge_sort_Permutation, elem_of_remove_dups.
Qed.

Lemma sorted_sizes_encoded (results : list BenchmarkResult) (size : Z) :
  size ∈ sorted_sizes (encode_results_of results) →
  size ∈ encoded_sizes results.
Proof.
  unfold encoded_sizes, sorted_sizes, encode_results_of. intros H.
  now rewrite merge_sort_Permutation, elem_of_remove_dups in H.
Qed.

(** The two tables of a report that is produced: their layout, their
    order, what each row shows, and that no result is left out. *)
Lemma markdown_tables (now : string) (results : list BenchmarkResult)
    (lines : list string) :
  markdown_lines now results = Ok lines →
  ∃ erows drows tail,
    encode_table results = Ok erows ∧ decode_table results = Ok drows
    ∧ summary results = Ok tail
    ∧ lines = tabular_summary (report_head now) erows drows tail
    ∧ StronglySorted row_before erows
    ∧ StronglySorted row_before drows
    ∧ Forall (λ r, table_row_of (row_size r) r
                   ∧ row_from (encode_results_of results) r) erows
    ∧ Forall (λ r, table_row_of (row_size r) r
                   ∧ row_from (decode_results_of results) r) drows
    ∧ Forall (λ r, ∃ b, b ∈ encode_results_of results
                        ∧ row_shows (encode_results_of results) b r) erows
    ∧ Forall (λ r, ∃ b, b ∈ decode_results_of results
                        ∧ row_shows (decode_results_of results) b r) drows
    ∧ every_result_has_a_row "encode" results (encoded_sizes results) erows
    ∧ every_result_has_a_row "decode" results (encoded_sizes results) drows
    ∧ Forall (λ r, row_size r ∈ encoded_sizes results) drows.
Proof.
  intros H. unfold markdown_lines in H.
  apply bind_Ok in H as (erows & He & H).
  apply bind_Ok in H as (drows & Hd & H).
  apply bind_Ok in H as (tail & Hs & H). injection H as <-.
  exists erows, drows, tail.
  destruct (table_rows_sorted (encode_results_of results) _ _ _
              (sorted_sizes_strict _) (encode_rows_block _) He) as [He1 He2].
  destruct (table_rows_sorted (decode_results_of results) _ _ _
              (sorted_sizes_strict _) (decode_rows_block _) Hd) as [Hd1 Hd2].
  do 3 (split; [assumption|]).
  split; [reflexivity|].
  do 2 (split; [assumption|]).
  split; [|split; [|split; [|split; [|split; [|split]]]]];
    [| | | | | |
     eapply Forall_impl; [exact Hd2|];
     intros r (size & Hsize & [<- _] & _);
     now apply sorted_sizes_encoded].
  - eapply Forall_impl; [exact He2|].
    intros r (size & _ & Hrow & Hfrom). destruct Hrow as [<- ?].
    split; [split|]; auto.
  - eapply Forall_impl; [exact Hd2|].
    intros r (size & _ & Hrow & Hfrom). destruct Hrow as [<- ?].
    split; [split|]; auto.
  - apply (table_rows_Forall _ _ _ _ (λ size block, encode_rows_show _ size block
             (λ b Hb, proj1 (proj1 (encode_results_elem_of _ _) Hb))) He).
  - apply (table_rows_Forall _ _ _ _ (λ size block, decode_rows_show _ size block
             (λ b Hb, proj1 (proj1 (decode_results_elem_of _ _) Hb))) Hd).
  - intros b Hin Hop Himpl Hsize.
    assert (Hb : b ∈ encode_results_of results)
      by (apply encode_results_elem_of; auto).
    destruct (table_rows_complete _ _ _ (image_size b) He
                (encoded_sizes_sorted _ _ Hsize)) as (block & Hblock & Hsub).
    destruct (encode_rows_complete _ _ _ b Hblock Hb eq_refl Himpl)
      as (row & Hrow & ? & ?).
    exists row. auto.
  - intros b Hin Hop Himpl Hsize.
    assert (Hb : b ∈ decode_results_of results)
      by (apply decode_results_elem_of; auto).
    destruct (table_rows_complete _ _ _ (image_size b) Hd
                (encoded_sizes_sorted _ _ Hsize)) as (block & Hblock & Hsub).
    destruct (decode_rows_complete _ _ _ b Hblock Hb eq_refl Himpl)
      as (row & Hrow & ? & ?).
    exists row. auto.
Qed.

(** C9. Whenever the markdown report is produced, it is the heading, the
    complete encoding table, the complete decoding table and the summary,
    in this order, each row printed as its cells between bars; the rows
    of each table are in strictly ascending order of image size and,
    within a size, the candidate's row comes before the reference's;
    every row is about a result of the table's operation, the first of
    its size and implementation, shows that result's size,
    implementation and measurements and ends with its relative speed;
    and no result is left out: every encode result of either
    implementation has its row in the encoding table, and every decode
    result of a size that has an encode result has its row in the
    decoding table, which has rows for no other size. *)
Theorem markdown_tables_ordered (now : string)
    (results : list BenchmarkResult) (lines : list string) :
  markdown_lines now results = Ok lines →
  ∃ erows drows tail,
    lines = tabular_summary (report_head now) erows drows tail
    ∧ StronglySorted row_before erows
    ∧ StronglySorted row_before drows
    ∧ Forall (λ r, table_row_of (row_size r) r
                   ∧ row_from (encode_results_of results) r) erows
    ∧ Forall (λ r, table_row_of (row_size r) r
                   ∧ row_from (decode_results_of results) r) drows
    ∧ Forall (λ r, ∃ b, b ∈ encode_results_of results
                        ∧ row_shows (encode_results_of results) b r) erows
    ∧ Forall (λ r, ∃ b, b ∈ decode_results_of results
                        ∧ row_shows (decode_results_of results) b r) drows
    ∧ every_result_has_a_row "encode" results (encoded_sizes results) erows
    ∧ every_result_has_a_row "decode" results (encoded_sizes results) drows
    ∧ Forall (λ r, row_size r ∈ encoded_sizes results) drows.
Proof.
  intros H. apply markdown_tables in H.
  destruct H as (erows & drows & tail & _ & _ & _ & H).
  exists erows, drows, tail. exact H.
Qed.

Lemma markdown_tables_ordered_witness :
  ∃ erows drows tail,
    mixed_report = tabular_summary (report_head sample_time) erows drows tail
    ∧ StronglySorted row_before erows
    ∧ StronglySorted row_before drows
    ∧ Forall (λ r, table_row_of (row_size r) r
                   ∧ row_from (encode_results_of mixed_results) r) erows
    ∧ Forall (λ r, table_row_of (row_size r) r
                   ∧ row_from (decode_results_of mixed_results) r) drows
    ∧ Forall (λ r, ∃ b, b ∈ encode_results_of mixed_results
                        ∧ row_shows (encode_results_of mixed_results) b r)
             erows
    ∧ Forall (λ r, ∃ b, b ∈ decode_results_of mixed_results
                        ∧ row_shows (decode_results_of mixed_results) b r)
             drows
    ∧ every_result_has_a_row "encode" mixed_results
        (encoded_sizes mixed_results) erows
    ∧ every_result_has_a_row "decode" mixed_results
        (encoded_sizes mixed_results) drows
    ∧ Forall (λ r, row_size r ∈ encoded_sizes mixed_results) drows.
Proof.
  apply (markdown_tables_ordered sample_time mixed_results mixed_report).
  vm_compute. reflexivity.
Defined.

(** ** An absent decode result *)

Lemma seconds_of_float_runs (ms : list float) :
  mapR (λ t, to_float t ≫= λ x, truediv x (lit 1000 1)) (VFloat <$> ms)
  = Ok ((λ t, SFdiv prec emax t (lit 1000 1)) <$> ms).
Proof.
  induction ms as [|t ms IH]; [reflexivity|].
  rewrite !fmap_cons. cbn [mapR]. rewrite IH. reflexivity.
Qed.





(** ** The scalability analysis *)

(** *** The order of floats *)

Lemma SFcompare_antisym (x y : float) :
  SFcompare y x = CompOpp <$> SFcompare x y.
Proof.
  destruct x as [s1|s1| |s1 m1 e1], y as [s2|s2| |s2 m2 e2];
    try reflexivity; try (destruct s1, s2; reflexivity);
    try (destruct s1; reflexivity); try (destruct s2; reflexivity).
  assert (Hp : Pos.compare_cont Eq m2 m1
               = CompOpp (Pos.compare_cont Eq m1 m2))
    by (symmetry; apply (Pos.compare_cont_antisym m1 m2 Eq)).
  simpl. rewrite Hp, (Z.compare_antisym e1 e2).
  destruct s1, s2, (e1 ?= e2), (Pos.compare_cont Eq m1 m2); reflexivity.
Qed.

(** Between two floats that are not NaN, [x < c] fails exactly when
    [c <= x]. *)
Lemma not_ltb_leb (x c : float) :
  is_nan x = false → is_nan c = false →
  ltb x c = false ↔ leb c x = true.
Proof.
  intros Hx Hc. unfold ltb, leb, SFltb, SFleb.
  rewrite (SFcompare_antisym x c).
  destruct (SFcompare x c) as [[]|] eqn:E; simpl; try intuition congruence.
  destruct x, c; try discriminate; simpl in E;
    repeat match type of E with
    | context [if ?b then _ else _] => destruct b
    end; discriminate.
Qed.

Lemma leb_zero_not_nan (x : float) : leb zero x = true → is_nan x = false.
Proof. destruct x; [reflexivity | reflexivity | discriminate | reflexivity]. Qed.

(** [a < b <= x] excludes [x < a], for positive finite [a] and [b]. *)
Lemma ltb_leb_trans (ma mb : positive) (ea eb : Z) (x : float) :
  ltb (S754_finite false ma ea) (S754_finite false mb eb) = true →
  leb (S754_finite false mb eb) x = true →
  ltb x (S754_finite false ma ea) = false.
Proof.
  unfold ltb, leb, SFltb, SFleb.
  destruct x as [s|s| |s m e]; simpl;
    [congruence | destruct s; congruence | congruence |].
  destruct s; [congruence|].
  rewrite !Pos.compare_cont_spec. simpl.
  destruct (Z.compare_spec ea eb), (Z.compare_spec eb e), (Z.compare_spec e ea);
    try lia; try congruence; subst;
    destruct (Pos.compare_spec ma mb), (Pos.compare_spec mb m),
             (Pos.compare_spec m ma); try lia; simpl; congruence.
Qed.

Lemma classify_nan : classify S754_nan = PoorScaling.
Proof. reflexivity. Qed.

(** The four bands, lower bound inclusive, for a scaling factor that is
    not negative. *)
Lemma classify_bands (sf : float) :
  leb zero sf = true →
  (classify sf = SuperLinear ↔ ltb sf (lit 9 10) = true)
  ∧ (classify sf = Linear ↔
     leb (lit 9 10) sf = true ∧ ltb sf (lit 11 10) = true)
  ∧ (classify sf = SubLinear ↔
     leb (lit 11 10) sf = true ∧ ltb sf (lit 15 10) = true)
  ∧ (classify sf = PoorScaling ↔ leb (lit 15 10) sf = true).
Proof.
  intros Hpos. apply leb_zero_not_nan in Hpos as Hnan.
  pose proof (not_ltb_leb sf (lit 9 10) Hnan eq_refl) as H09.
  pose proof (not_ltb_leb sf (lit 11 10) Hnan eq_refl) as H11.
  pose proof (not_ltb_leb sf (lit 15 10) Hnan eq_refl) as H15.
  assert (T1 : leb (lit 11 10) sf = true → ltb sf (lit 9 10) = false)
    by (apply ltb_leb_trans; reflexivity).
  assert (T2 : leb (lit 15 10) sf = true → ltb sf (lit 11 10) = false)
    by (apply ltb_leb_trans; reflexivity).
  assert (T3 : leb (lit 15 10) sf = true → ltb sf (lit 9 10) = false)
    by (apply ltb_leb_trans; reflexivity).
  unfold classify.
  destruct (ltb sf (lit 9 10)) eqn:E09, (ltb sf (lit 11 10)) eqn:E11,
           (ltb sf (lit 15 10)) eqn:E15;
    repeat split; try discriminate; try tauto; try intuition congruence.
Qed.

Lemma last_middle {A} (first last : A) (middle : list A) :
  List.last (first :: middle ++ [last]) first = last.
Proof.
  change (first :: middle ++ [last]) with ((first :: middle) ++ [last]).
  apply List.last_last.
Qed.

(** What the analysis computes from its two entries: the pixel ratio is
    the last pixel count over the first, the time ratio the last average
    time over the first, and the scaling factor the time ratio over the
    pixel ratio. *)
Lemma ratios_spec (first last : gmap string value) (s : scalability) :
  ratios first last = Ok s ↔
  ∃ last_pixels first_pixels last_time first_time,
    last !! "pixels" = Some last_pixels
    ∧ first !! "pixels" = Some first_pixels
    ∧ last !! "avg_time_ms" = Some last_time
    ∧ first !! "avg_time_ms" = Some first_time
    ∧ value_truediv last_pixels first_pixels = Ok (pixel_ratio s)
    ∧ value_truediv last_time first_time = Ok (time_ratio s)
    ∧ truediv (time_ratio s) (pixel_ratio s) = Ok (scaling_factor s).
Proof.
  unfold ratios, dict_getitem. split.
  - intros H.
    destruct (last !! "pixels") as [lp|]; [|discriminate].
    destruct (first !! "pixels") as [fp|]; [|discriminate].
    cbn [mbind result_bind] in H.
    destruct (value_truediv lp fp) as [pr|] eqn:Hpr; [|discriminate].
    cbn [mbind result_bind] in H.
    destruct (last !! "avg_time_ms") as [lt|]; [|discriminate].
    destruct (first !! "avg_time_ms") as [ft|]; [|discriminate].
    cbn [mbind result_bind] in H.
    destruct (value_truediv lt ft) as [tr|] eqn:Htr; [|discriminate].
    cbn [mbind result_bind] in H.
    destruct (truediv tr pr) as [sf|] eqn:Hsf; [|discriminate].
    injection H as <-. exists lp, fp, lt, ft. simpl. auto 10.
  - intros (lp & fp & lt & ft & -> & -> & -> & -> & Hpr & Htr & Hsf).
    cbn [mbind result_bind]. rewrite Hpr. cbn [mbind result_bind].
    rewrite Htr. cbn [mbind result_bind]. rewrite Hsf.
    destruct s. reflexivity.
Qed.

(** C7. The scalability analysis compares the first and the last entry of
    the result list as it was collected: its pixel ratio is the last
    entry's pixel count over the first's, its time ratio the last entry's
    average time over the first's, and its scaling factor the time ratio
    over the pixel ratio; the report shows the three and the band of the
    factor; a non-negative factor falls in exactly the band whose bounds
    contain it, lower bound inclusive; with fewer than two entries the
    analysis is skipped and nothing raises. *)
Theorem scalability_first_against_last
    (all_results : list (gmap string value)) :
  ((length all_results < 2)%nat →
     scalability_analysis all_results = Ok None
     ∧ scalability_lines all_results = Ok [])
  ∧ (∀ first middle last, all_results = first :: middle ++ [last] →
       scalability_analysis all_results = Some <$> ratios first last)
  ∧ (∀ first middle last s, all_results = first :: middle ++ [last] →
       (scalability_analysis all_results = Ok (Some s) ↔
        ∃ last_pixels first_pixels last_time first_time,
          last !! "pixels" = Some last_pixels
          ∧ first !! "pixels" = Some first_pixels
          ∧ last !! "avg_time_ms" = Some last_time
          ∧ first !! "avg_time_ms" = Some first_time
          ∧ value_truediv last_pixels first_pixels = Ok (pixel_ratio s)
          ∧ value_truediv last_time first_time = Ok (time_ratio s)
          ∧ truediv (time_ratio s) (pixel_ratio s) = Ok (scaling_factor s)))
  ∧ (∀ first last s, ratios first last = Ok s →
       truediv (time_ratio s) (pixel_ratio s) = Ok (scaling_factor s))
  ∧ (∀ s, scalability_analysis all_results = Ok (Some s) →
       scalability_lines all_results
       = Ok ["### Scalability Analysis";
             "- Pixel count increase: " +:+ format_f 2 (pixel_ratio s) +:+ "x";
             "- Time increase: " +:+ format_f 2 (time_ratio s) +:+ "x";
             "- Scaling factor: " +:+ format_f 2 (scaling_factor s)
               +:+ " (1.0 = perfect linear scaling)";
             EmptyString;
             band_line (classify (scaling_factor s));
             EmptyString])
  ∧ (band_line SuperLinear
     = "✅ **Super-linear scaling** - Performance improves with larger images"
     ∧ band_line Linear
       = "✅ **Linear scaling** - Good performance characteristics"
     ∧ band_line SubLinear
       = "⚠️ **Sub-linear scaling** - Some overhead present"
     ∧ band_line PoorScaling
       = "❌ **Poor scaling** - Significant bottlenecks present")
  ∧ (∀ sf, leb zero sf = true →
       (classify sf = SuperLinear ↔ ltb sf (lit 9 10) = true)
       ∧ (classify sf = Linear ↔
          leb (lit 9 10) sf = true ∧ ltb sf (lit 11 10) = true)
       ∧ (classify sf = SubLinear ↔
          leb (lit 11 10) sf = true ∧ ltb sf (lit 15 10) = true)
       ∧ (classify sf = PoorScaling ↔ leb (lit 15 10) sf = true)).
Proof.
  assert (Hends : ∀ first middle last,
            all_results = first :: middle ++ [last] →
            scalability_analysis all_results = Some <$> ratios first last).
  { intros first middle last ->. unfold scalability_analysis.
    rewrite last_middle.
    destruct (Nat.leb_spec 2 (length (first :: middle ++ [last])));
      [reflexivity|].
    simpl in *. rewrite length_app in *. simpl in *. lia. }
  split; [|split; [|split; [|split; [|split; [|split]]]]].
  - intros Hlt. unfold scalability_lines.
    assert (H : scalability_analysis all_results = Ok None).
    { unfold scalability_analysis.
      destruct all_results as [|a [|b l]]; simpl in *; try reflexivity. lia. }
    rewrite H. auto.
  - exact Hends.
  - intros first middle last s Hall.
    rewrite (Hends first middle last Hall), <- ratios_spec.
    destruct (ratios first last) as [s'|e]; simpl; split;
      congruence.
  - intros first last s H. apply ratios_spec in H.
    destruct H as (? & ? & ? & ? & _ & _ & _ & _ & _ & _ & H). exact H.
  - intros s H. unfold scalability_lines. rewrite H. reflexivity.
  - repeat split; reflexivity.
  - apply classify_bands.
Qed.

Lemma scalability_first_against_last_witness :
  (∃ s, scalability_analysis ascending_analyses = Ok (Some s)
        ∧ value_truediv (VInt 262144) (VInt 65536) = Ok (pixel_ratio s)
        ∧ value_truediv (VFloat (lit 44 1)) (VFloat (lit 10 1))
          = Ok (time_ratio s)
        ∧ classify (scaling_factor s) = SubLinear)
  ∧ classify (lit 11 10) = SubLinear.
Proof.
  split.
  - destruct (scalability_analysis ascending_analyses) as [[s|]|e] eqn:E;
      try (vm_compute in E; discriminate).
    exists s. split; [reflexivity|].
    destruct (scalability_first_against_last ascending_analyses)
      as (_ & _ & Hratios & _).
    set (first := analyses_of [(256, Some (profile_document 100))] !!! 0%nat).
    set (last := analyses_of [(512, Some (profile_document 440))] !!! 0%nat).
    assert (Hall : ascending_analyses = first :: [] ++ [last])
      by (vm_compute; reflexivity).
    destruct (proj1 (Hratios first [] last s Hall) E)
      as (lp & fp & lt & ft & Hlp & Hfp & Hlt & Hft & Hpr & Htr & _).
    vm_compute in Hlp, Hfp, Hlt, Hft.
    injection Hlp as <-. injection Hfp as <-.
    injection Hlt as <-. injection Hft as <-.
    split; [exact Hpr|]. split; [exact Htr|].
    vm_compute in E. injection E as <-. vm_compute. reflexivity.
  - destruct (scalability_first_against_last [])
      as (_ & _ & _ & _ & _ & _ & Hbands).
    destruct (Hbands (lit 11 10)) as (_ & _ & Hsub & _); [reflexivity|].
    apply Hsub. split; reflexivity.
Defined.

(** The claim C7 as stated fails: when the sizes are given in descending
    order the analysis divides the smallest size by the largest, and when
    one size is given twice it is not skipped. *)
Lemma scalability_not_by_size :
  (∃ s, scalability_analysis descending_analyses = Ok (Some s)
        ∧ pixel_ratio s = lit 1 4)
  ∧ (∃ s, spec_scalability_analysis descending_analyses = Ok (Some s)
          ∧ pixel_ratio s = lit 4 1)
  ∧ scalability_analysis descending_analyses
    ≠ spec_scalability_analysis descending_analyses
  ∧ (∃ s, scalability_analysis repeated_analyses = Ok (Some s))
  ∧ spec_scalability_analysis repeated_analyses = Ok None.
Proof.
  split; [|split; [|split; [|split]]].
  - eexists. split; vm_compute; reflexivity.
  - eexists. split; vm_compute; reflexivity.
  - vm_compute. discriminate.
  - eexists. vm_compute. reflexivity.
  - vm_compute. reflexivity.
Qed.


(** * Properties of the further parts *)

(** ** Timings and their extremes *)

Lemma ltb_position (x y : float) :
  ltb x y = true ↔
  ∃ p q, position x = Some p ∧ position y = Some q ∧ position_lt p q.
Proof.
  unfold ltb, SFltb.
  destruct x as [s1|s1| |s1 m1 e1], y as [s2|s2| |s2 m2 e2]; simpl;
    try (split; [discriminate | intros (p & q & Hp & Hq & _); discriminate]);
    try destruct s1; try destruct s2; simpl;
    try (split; [discriminate
                | intros (p & q & [= <-] & [= <-] & H); simpl in H; lia]);
    try (split; [intros _; eexists _, _; repeat split; simpl; lia | reflexivity]).
  - rewrite Pos.compare_cont_spec. simpl. split.
    + intros H. eexists _, _. repeat split. simpl.
      destruct (Z.compare_spec e1 e2), (Pos.compare_spec m1 m2);
        simpl in H; try discriminate; lia.
    + intros (p & q & [= <-] & [= <-] & H). simpl in H.
      destruct (Z.compare_spec e1 e2), (Pos.compare_spec m1 m2);
        simpl; try reflexivity; lia.
  - rewrite Pos.compare_cont_spec. simpl. split.
    + intros H. eexists _, _. repeat split. simpl.
      destruct (Z.compare_spec e1 e2), (Pos.compare_spec m1 m2);
        simpl in H; try discriminate; lia.
    + intros (p & q & [= <-] & [= <-] & H). simpl in H.
      destruct (Z.compare_spec e1 e2), (Pos.compare_spec m1 m2);
        simpl; try reflexivity; lia.
Qed.

Lemma position_not_nan (x : float) :
  is_nan x = false → ∃ p, position x = Some p.
Proof. destruct x as [s|s| |s m e]; try destruct s; simpl; eauto. discriminate. Qed.

(** Turns comparisons between floats that are not NaN into comparisons of
    their positions. *)
Ltac by_position :=
  repeat match goal with
  | H : ltb ?a ?b = true |- _ =>
    apply ltb_position in H; destruct H as (? & ? & ? & ? & H)
  | H : ltb ?a ?b = false |- _ =>
    apply not_true_iff_false in H; rewrite ltb_position in H
  | |- ltb ?a ?b = false => apply not_true_iff_false; rewrite ltb_position
  end.

Lemma ltb_trans (x y z : float) :
  ltb x y = true → ltb y z = true → ltb x z = true.
Proof.
  intros Hxy Hyz. apply ltb_position in Hxy as (p & q & Hp & Hq & Hpq).
  apply ltb_position in Hyz as (q' & r & Hq' & Hr & Hqr).
  rewrite Hq in Hq'. injection Hq' as <-.
  apply ltb_position. exists p, r. repeat split; try assumption.
  destruct p as [[? ?] ?], q as [[? ?] ?], r as [[? ?] ?]. simpl in *. lia.
Qed.

(** [x <= y < z] gives [x < z], when [x] is not a NaN. *)
Lemma not_ltb_ltb_trans (x y z : float) :
  is_nan x = false → ltb y x = false → ltb y z = true → ltb x z = true.
Proof.
  intros Hx Hyx Hyz. destruct (position_not_nan x Hx) as [p Hp].
  apply ltb_position in Hyz as (q & r & Hq & Hr & Hqr).
  apply not_true_iff_false in Hyx. rewrite ltb_position in Hyx.
  apply ltb_position. exists p, r. repeat split; try assumption.
  destruct p as [[a b] c], q as [[a' b'] c'], r as [[? ?] ?]. simpl in *.
  assert (Hnot : ¬ position_lt (a', b', c') (a, b, c))
    by (intros H; apply Hyx; eauto).
  simpl in Hnot. lia.
Qed.

Lemma ltb_not_nan_l (x y : float) : ltb x y = true → is_nan x = false.
Proof. destruct x; [reflexivity | reflexivity | discriminate | reflexivity]. Qed.

(** The running minimum of [min]: an element of the list, and below
    every element when the list has no NaN. *)
Lemma running_min (l : list float) (x : float) :
  let lo := foldl (λ cur item, if ltb item cur then item else cur) x l in
  lo ∈ x :: l
  ∧ (Forall (λ t, is_nan t = false) (x :: l) →
     is_nan lo = false ∧ ∀ t, t ∈ x :: l → ltb t lo = false).
Proof.
  revert x. induction l as [|item l IH]; intros x; simpl.
  { split; [left|]. intros Hnan. apply Forall_cons in Hnan as [Hx _].
    split; [exact Hx|]. intros t Ht. apply list_elem_of_singleton in Ht as ->.
    destruct (ltb x x) eqn:E; [|reflexivity].
    apply ltb_position in E as (p & q & Hp & Hq & Hpq).
    rewrite Hp in Hq. injection Hq as <-.
    destruct p as [[? ?] ?]. simpl in Hpq. lia. }
  set (x' := if ltb item x then item else x).
  destruct (IH x') as [Hin Hlow]. split.
  - apply elem_of_cons in Hin as [Hin|Hin].
    + rewrite Hin. subst x'. destruct (ltb item x); [right; left | left].
    + right. right. exact Hin.
  - intros Hnan. apply Forall_cons in Hnan as [Hx Hnan].
    apply Forall_cons in Hnan as [Hitem Hnan].
    destruct Hlow as [Hlo Hlow].
    { apply Forall_cons. split; [|exact Hnan].
      subst x'. now destruct (ltb item x). }
    split; [exact Hlo|]. intros t Ht.
    set (lo := foldl (λ cur item, if ltb item cur then item else cur) x' l) in *.
    assert (Hx' : ltb x' lo = false) by (apply Hlow; left).
    apply elem_of_cons in Ht as [->|Ht]; [|apply elem_of_cons in Ht as [->|Ht]].
    + subst x'. destruct (ltb item x) eqn:E; [|exact Hx'].
      destruct (ltb x lo) eqn:E2; [|reflexivity].
      rewrite (ltb_trans _ _ _ E E2) in Hx'. discriminate.
    + subst x'. destruct (ltb item x) eqn:E; [exact Hx'|].
      destruct (ltb item lo) eqn:E2; [|reflexivity].
      pose proof (not_ltb_ltb_trans _ _ _ Hx E E2) as H. congruence.
    + apply Hlow. now right.
Qed.

(** The running maximum of [max]. *)
Lemma running_max (l : list float) (x : float) :
  let hi := foldl (λ cur item, if ltb cur item then item else cur) x l in
  hi ∈ x :: l
  ∧ (Forall (λ t, is_nan t = false) (x :: l) →
     is_nan hi = false ∧ ∀ t, t ∈ x :: l → ltb hi t = false).
Proof.
  revert x. induction l as [|item l IH]; intros x; simpl.
  { split; [left|]. intros Hnan. apply Forall_cons in Hnan as [Hx _].
    split; [exact Hx|]. intros t Ht. apply list_elem_of_singleton in Ht as ->.
    destruct (ltb x x) eqn:E; [|reflexivity].
    apply ltb_position in E as (p & q & Hp & Hq & Hpq).
    rewrite Hp in Hq. injection Hq as <-.
    destruct p as [[? ?] ?]. simpl in Hpq. lia. }
  set (x' := if ltb x item then item else x).
  destruct (IH x') as [Hin Hhigh]. split.
  - apply elem_of_cons in Hin as [Hin|Hin].
    + rewrite Hin. subst x'. destruct (ltb x item); [right; left | left].
    + right. right. exact Hin.
  - intros Hnan. apply Forall_cons in Hnan as [Hx Hnan].
    apply Forall_cons in Hnan as [Hitem Hnan].
    destruct Hhigh as [Hhi Hhigh].
    { apply Forall_cons. split; [|exact Hnan].
      subst x'. now destruct (ltb x item). }
    split; [exact Hhi|]. intros t Ht.
    set (hi := foldl (λ cur item, if ltb cur item then item else cur) x' l) in *.
    assert (Hx' : ltb hi x' = false) by (apply Hhigh; left).
    apply elem_of_cons in Ht as [->|Ht]; [|apply elem_of_cons in Ht as [->|Ht]].
    + subst x'. destruct (ltb x item) eqn:E; [|exact Hx'].
      destruct (ltb hi x) eqn:E2; [|reflexivity].
      rewrite (ltb_trans _ _ _ E2 E) in Hx'. discriminate.
    + subst x'. destruct (ltb x item) eqn:E; [exact Hx'|].
      destruct (ltb hi item) eqn:E2; [|reflexivity].
      exfalso. apply not_true_iff_false in Hx'. apply Hx'.
      apply ltb_position in E2 as (p & q & Hp & Hq & Hpq).
      destruct (position_not_nan x Hx) as [r Hr].
      apply not_true_iff_false in E. rewrite ltb_position in E.
      apply ltb_position. exists p, r. repeat split; try assumption.
      destruct p as [[a b] c], q as [[a' b'] c'], r as [[a'' b''] c''].
      assert (Hnot : ¬ position_lt (a'', b'', c'') (a', b', c'))
        by (intros H; apply E; eauto).
      simpl in *. lia.
    + apply Hhigh. now right.
Qed.

(** X1. The minimum and the maximum of a non-empty timing list are
    timings of the list, and when no timing is a NaN every timing lies
    between them. *)
Theorem extremes_bound_timings (r : BenchmarkResult) :
  times r ≠ [] →
  ∃ lo hi,
    min_time r = Ok lo ∧ max_time r = Ok hi
    ∧ lo ∈ times r ∧ hi ∈ times r
    ∧ (Forall (λ t, is_nan t = false) (times r) →
       ∀ t, t ∈ times r → leb lo t = true ∧ leb t hi = true).
Proof.
  intros Hne. unfold min_time, max_time, builtins.min, builtins.max.
  destruct (times r) as [|x l]; [congruence|].
  destruct (running_min l x) as [Hlo Hlow].
  destruct (running_max l x) as [Hhi Hhigh].
  eexists _, _. repeat split; try reflexivity; try assumption.
  - destruct (Hlow H) as [Hnan Hall].
    apply not_ltb_leb; [| exact Hnan | now apply Hall].
    rewrite Forall_forall in H. now apply H.
  - destruct (Hhigh H) as [Hnan Hall].
    apply not_ltb_leb; [exact Hnan | | now apply Hall].
    rewrite Forall_forall in H. now apply H.
Qed.

Lemma extremes_bound_timings_witness :
  let r := mkBenchmarkResult "OpenJPEG" 256 "encode" (secs [30; 10; 20])
             None None in
  ∃ lo hi,
    min_time r = Ok lo ∧ max_time r = Ok hi
    ∧ lo ∈ times r ∧ hi ∈ times r
    ∧ (Forall (λ t, is_nan t = false) (times r) →
       ∀ t, t ∈ times r → leb lo t = true ∧ leb t hi = true).
Proof.
  apply (extremes_bound_timings
           (mkBenchmarkResult "OpenJPEG" 256 "encode" (secs [30; 10; 20])
              None None)).
  discriminate.
Defined.

Lemma insert_sorted_length (x : float) (l : list float) :
  length (statistics.insert_sorted x l) = S (length l).
Proof.
  induction l as [|y l IH]; simpl; [reflexivity|].
  destruct (ltb x y); simpl; congruence.
Qed.

Lemma insert_sorted_perm (x : float) (l : list float) :
  statistics.insert_sorted x l ≡ₚ x :: l.
Proof.
  induction l as [|y l IH]; simpl; [reflexivity|].
  destruct (ltb x y); [reflexivity|]. rewrite IH. apply Permutation_swap.
Qed.

Lemma sorted_perm (l : list float) : statistics.sorted l ≡ₚ l.
Proof.
  unfold statistics.sorted.
  assert (H : ∀ acc, foldl (λ acc x, statistics.insert_sorted x acc) acc l
                     ≡ₚ acc ++ l).
  { induction l as [|x l IH]; intros acc; simpl.
    - now rewrite app_nil_r.
    - rewrite IH, insert_sorted_perm.
      now rewrite (Permutation_middle acc l x). }
  apply (H []).
Qed.

Lemma median_ok (data : list float) :
  data ≠ [] → ∃ m, statistics.median data = Ok m.
Proof.
  intros Hne. unfold statistics.median.
  assert (Hlen : length (statistics.sorted data) ≠ 0%nat).
  { rewrite (Permutation_length (sorted_perm data)). now destruct data. }
  destruct (Nat.eqb_spec (length (statistics.sorted data)) 0); [congruence|].
  destruct (_ =? 1)%nat; [eauto|]. unfold truediv. simpl. eauto.
Qed.

(** X2. The guards of the accessors keep the library's errors away:
    median, minimum and maximum always return a value, and average and
    standard deviation never raise [StatisticsError]. *)
Theorem metrics_never_lack_data (r : BenchmarkResult) :
  (∃ m, median r = Ok m) ∧ (∃ lo, min_time r = Ok lo)
  ∧ (∃ hi, max_time r = Ok hi)
  ∧ average r ≠ Raise StatisticsError
  ∧ std_dev r ≠ Raise StatisticsError.
Proof.
  unfold median, min_time, max_time, average, std_dev.
  destruct (times r) as [|x l] eqn:E.
  - repeat split; eauto; discriminate.
  - repeat split; try (simpl; eauto; fail).
    + apply median_ok. discriminate.
    + unfold statistics.mean.
      destruct (forallb _ _); [|discriminate].
      intros Hraise. unfold of_Qc in Hraise.
      apply int_truediv_raises in Hraise as [Hraise|[_ Hraise]]; discriminate.
    + destruct (Nat.ltb_spec 1 (length (x :: l))); [|discriminate].
      unfold statistics.stdev.
      destruct (Nat.ltb_spec (length (x :: l)) 2); [lia|].
      destruct (forallb _ _); [|discriminate].
      unfold statistics.float_sqrt_of_frac.
      intros Hraise. destruct (0 <=? _);
        apply int_truediv_raises in Hraise as [Hraise|[_ Hraise]];
        discriminate.
Qed.

(** X3. With an odd number of timings the median is one of them; it is
    taken from the sorted list, which holds the same timings. *)
Theorem median_of_odd_count (r : BenchmarkResult) :
  (length (times r) mod 2 = 1)%nat →
  statistics.sorted (times r) ≡ₚ times r
  ∧ ∃ m, median r = Ok m ∧ m ∈ times r.
Proof.
  intros Hodd. split; [apply sorted_perm|].
  unfold median, statistics.median.
  destruct (times r) as [|x l] eqn:E; [simpl in Hodd; lia|]. rewrite <- E in *.
  pose proof (Permutation_length (sorted_perm (times r))) as Hlen.
  rewrite Hlen.
  destruct (Nat.eqb_spec (length (times r)) 0).
  { rewrite E in *. discriminate. }
  rewrite Hodd, Nat.eqb_refl. eexists. split; [reflexivity|].
  apply list_elem_of_In.
  eapply Permutation_in; [apply sorted_perm|].
  apply nth_In. rewrite Hlen. apply Nat.div_lt; lia.
Qed.

Lemma median_of_odd_count_witness :
  let r := mkBenchmarkResult "OpenJPEG" 256 "encode" (secs [30; 10; 20])
             None None in
  ∃ m, median r = Ok m ∧ m ∈ times r.
Proof.
  apply (median_of_odd_count
           (mkBenchmarkResult "OpenJPEG" 256 "encode" (secs [30; 10; 20])
              None None)).
  reflexivity.
Defined.

(** ** The candidate's result document *)

(** X4. A document that lacks a required part is rejected with the error
    that names it, in the order in which the adapter reads the parts: a
    missing [image], [width], [encode] or [runs] key raises [KeyError]
    for that key, whatever the parts read before it hold; an [image] or
    [encode] entry that is no object, and a document that is no object,
    raise [TypeError]. *)
Theorem document_missing_keys (data : gmap string value) :
  (data !! "image" = None →
     results_of_document (VDict data) = Raise (KeyError "image"))
  ∧ (∀ image, data !! "image" = Some (VDict image) → image !! "width" = None →
       results_of_document (VDict data) = Raise (KeyError "width"))
  ∧ (∀ image width, data !! "image" = Some (VDict image) →
       image !! "width" = Some width → data !! "encode" = None →
       results_of_document (VDict data) = Raise (KeyError "encode"))
  ∧ (∀ image width encode, data !! "image" = Some (VDict image) →
       image !! "width" = Some width →
       data !! "encode" = Some (VDict encode) → encode !! "runs" = None →
       results_of_document (VDict data) = Raise (KeyError "runs"))
  ∧ (∀ image, data !! "image" = Some image → (∀ d, image ≠ VDict d) →
       results_of_document (VDict data) = Raise TypeError)
  ∧ (∀ image width encode, data !! "image" = Some (VDict image) →
       image !! "width" = Some width →
       data !! "encode" = Some encode → (∀ d, encode ≠ VDict d) →
       results_of_document (VDict data) = Raise TypeError)
  ∧ (∀ items, results_of_document (VList items) = Raise TypeError).
Proof.
  unfold results_of_document, getitem. repeat split.
  - intros ->. reflexivity.
  - intros image Hi Hw. rewrite Hi. cbn [mbind result_bind]. rewrite Hw.
    reflexivity.
  - intros image width Hi Hw He. rewrite Hi. cbn [mbind result_bind].
    rewrite Hw. cbn [mbind result_bind]. rewrite He. reflexivity.
  - intros image width encode Hi Hw He Hr. rewrite Hi. cbn [mbind result_bind].
    rewrite Hw. cbn [mbind result_bind]. rewrite He.
    cbn [mbind result_bind]. rewrite Hr. reflexivity.
  - intros image Hi Hnot. rewrite Hi. cbn [mbind result_bind].
    destruct image; try reflexivity. now destruct (Hnot d).
  - intros image width encode Hi Hw He Hnot. rewrite Hi.
    cbn [mbind result_bind]. rewrite Hw. cbn [mbind result_bind]. rewrite He.
    cbn [mbind result_bind]. destruct encode; try reflexivity.
    now destruct (Hnot d).
Qed.

Lemma document_missing_keys_witness :
  results_of_document
    (VDict {[ "image" := VDict {[ "width" := VStr "256" ]} ]})
  = Raise (KeyError "encode").
Proof.
  apply (proj1 (proj2 (proj2 (document_missing_keys
                                {[ "image" := VDict {[ "width" := VStr "256" ]} ]})))
           {[ "width" := VStr "256" ]} (VStr "256"));
    reflexivity.
Defined.

(** X5. Whatever document is accepted, the encode result is the
    candidate's, its image size is the value at [image.width], of
    whatever type, and its compressed size the value at
    [encode.compressed_size], absent when the key is; a decode result is
    returned exactly when the document has a [decode] key, and it is for
    the same image size and carries no compressed size. *)
Theorem document_results_shape (data : gmap string value)
    (enc : ParsedResult) (dec : option ParsedResult) :
  results_of_document (VDict data) = Ok (enc, dec) →
  parsed_implementation enc = "J2KSwift" ∧ parsed_operation enc = "encode"
  ∧ (∃ image, data !! "image" = Some (VDict image)
              ∧ image !! "width" = Some (parsed_image_size enc))
  ∧ (∃ encode, data !! "encode" = Some (VDict encode)
               ∧ parsed_compressed_size enc
                 = default VNone (encode !! "compressed_size"))
  ∧ (is_Some dec ↔ is_Some (data !! "decode"))
  ∧ (∀ d, dec = Some d →
       parsed_implementation d = "J2KSwift" ∧ parsed_operation d = "decode"
       ∧ parsed_image_size d = parsed_image_size enc
       ∧ parsed_compressed_size d = VNone).
Proof.
  intros H. unfold results_of_document in H.
  apply bind_Ok in H as (image & Himage & H).
  apply bind_Ok in H as (width & Hwidth & H).
  apply bind_Ok in H as (encode & Hencode & H).
  apply bind_Ok in H as (runs & Hruns & H).
  apply bind_Ok in H as (encode_times & _ & H).
  apply bind_Ok in H as (encode' & Hencode' & H).
  apply bind_Ok in H as (csize & Hcsize & H).
  apply bind_Ok in H as (has_decode & Hhas & H).
  assert (Hw : ∃ image, data !! "image" = Some (VDict image)
                        ∧ image !! "width" = Some width).
  { unfold getitem in Himage, Hwidth.
    destruct (data !! "image") as [i|]; [|discriminate].
    injection Himage as ->.
    destruct image as [| | | | | |d]; try discriminate.
    destruct (d !! "width") as [v|] eqn:Ev; [|discriminate].
    injection Hwidth as ->. eauto. }
  assert (Hc : ∃ encode, data !! "encode" = Some (VDict encode)
                         ∧ csize = default VNone (encode !! "compressed_size")).
  { rewrite Hencode in Hencode'. injection Hencode' as <-.
    unfold getitem in Hencode, Hruns.
    destruct (data !! "encode") as [i|]; [|discriminate].
    injection Hencode as ->.
    destruct encode as [| | | | | |d]; try discriminate.
    simpl in Hcsize. injection Hcsize as <-. eauto. }
  unfold contains in Hhas. injection Hhas as <-.
  case_bool_decide as Hdec.
  - bind_inv H. injection H as <- <-. simpl.
    repeat split; try assumption; try eauto.
    all: match goal with Hd : Some _ = Some _ |- _ => injection Hd as <- end;
      reflexivity.
  - injection H as <- <-. simpl.
    repeat split; try assumption; try discriminate.
    + intros [? ?]. discriminate.
    + intros ?. contradiction.
Qed.

Lemma document_results_shape_witness :
  ∃ enc d, results_of_document
             (VDict (document 256 [lit 12 1] (Some [lit 20 1])))
           = Ok (enc, Some d)
           ∧ parsed_image_size d = parsed_image_size enc
           ∧ parsed_compressed_size d = VNone.
Proof.
  destruct (results_of_document
              (VDict (document 256 [lit 12 1] (Some [lit 20 1]))))
    as [[enc [d|]]|] eqn:E; try (vm_compute in E; discriminate).
  exists enc, d. split; [reflexivity|].
  destruct (document_results_shape _ enc (Some d) E)
    as (_ & _ & _ & _ & _ & Hd).
  destruct (Hd d eq_refl) as (_ & _ & ? & ?). auto.
Defined.

Lemma to_float_raises (v : value) (e : exn) :
  to_float v = Raise e → e = TypeError ∨ e = OverflowError.
Proof.
  destruct v; simpl; try (intros [= <-]; now left); try discriminate;
    unfold of_int; intros H; apply int_truediv_raises in H as [->|[H _]];
    auto; discriminate.
Qed.

Lemma mapR_raises {A B} (f : A → result B) (l : list A) (e : exn) :
  mapR f l = Raise e → ∃ x, x ∈ l ∧ f x = Raise e.
Proof.
  induction l as [|x l IH]; simpl; [discriminate|].
  destruct (f x) as [y|e'] eqn:Hx; cbn.
  - destruct (mapR f l) as [ys|e'']; cbn; [discriminate|].
    intros [= <-]. destruct IH as (x' & ? & ?); [reflexivity|].
    exists x'. split; [now right | assumption].
  - intros [= <-]. exists x. split; [left | assumption].
Qed.

(** X6. Every timing of an accepted run list is the run's value in
    milliseconds divided by 1000, in the same order; a run list is
    rejected only with [TypeError] (a run that is not a number) or
    [OverflowError] (an integer too large for a float). *)
Theorem milliseconds_become_seconds (runs : value) :
  (∀ l ts, runs = VList l → seconds_of_runs runs = Ok ts →
     Forall2 (λ v t, ∃ x, to_float v = Ok x
                          ∧ t = SFdiv prec emax x (lit 1000 1)) l ts)
  ∧ (∀ e, seconds_of_runs runs = Raise e →
       e = TypeError ∨ e = OverflowError).
Proof.
  split.
  - intros l ts -> H. simpl in H. apply mapR_Forall2 in H.
    eapply Forall2_impl; [exact H|]. intros v t Hv. cbv beta in Hv.
    apply bind_Ok in Hv as (x & Hx & Ht). exists x. split; [exact Hx|].
    unfold truediv in Ht. change (is_zero (lit 1000 1)) with false in Ht.
    now injection Ht as <-.
  - intros e H. destruct runs; simpl in H; try (injection H as <-; now left).
    + case_bool_decide; [discriminate | injection H as <-; now left].
    + apply mapR_raises in H as (v & _ & Hv).
      destruct (to_float v) as [x|e'] eqn:Hx; cbn in Hv.
      * unfold truediv in Hv. change (is_zero (lit 1000 1)) with false in Hv.
        discriminate.
      * injection Hv as <-. now apply to_float_raises in Hx.
    + case_bool_decide; [discriminate | injection H as <-; now left].
Qed.

Lemma milliseconds_become_seconds_witness :
  Forall2 (λ v t, ∃ x, to_float v = Ok x ∧ t = SFdiv prec emax x (lit 1000 1))
          [VFloat (lit 12 1); VInt 13]
          [SFdiv prec emax (lit 12 1) (lit 1000 1);
           SFdiv prec emax (lit 13 1) (lit 1000 1)].
Proof.
  apply (proj1 (milliseconds_become_seconds
                  (VList [VFloat (lit 12 1); VInt 13])) _ _ eq_refl).
  vm_compute. reflexivity.
Defined.

Section RunFacts.
Context {Ext : Type}.
Variable exec : list string → gmap string string → Ext
                → result Z * gmap string string * Ext.
Variable json_loads : string → result value.

Lemma subprocess_run_stdout (argv : list string) (w : @World Ext) :
  stdout (subprocess_run exec argv w).2 = stdout w.
Proof.
  unfold subprocess_run. destruct (exec argv (fs w) (ext w)) as [[rc fs'] ext'].
  reflexivity.
Qed.

(** X7. However the adapter ends, with results or with any error, it has
    run the benchmark command once and printed nothing, or it has run
    the command and then the same command with [--encode-only] and
    printed the one warning that it retries: it never runs a third
    command, never retries silently, and reading the document runs and
    prints nothing. *)
Theorem adapter_warns_when_it_retries
    (cli_path input_file output_file : string) (runs : Z) (w : @World Ext) :
  let argv := benchmark_argv cli_path input_file output_file runs in
  let outcome :=
    run_j2kswift_benchmark exec json_loads cli_path input_file output_file
      runs w in
  (invoked outcome.2 = invoked w ++ [argv] ∧ stdout outcome.2 = stdout w)
  ∨ (invoked outcome.2 = invoked w ++ [argv; argv ++ ["--encode-only"]]
     ∧ stdout outcome.2
       = stdout w
         ++ ["    Warning: Full benchmark failed, trying encode-only..."]).
Proof.
  intros argv outcome. subst outcome.
  assert (Hkeeps : ∀ r w',
            invoke_benchmark exec cli_path input_file output_file runs w
            = (r, w') →
            (run_j2kswift_benchmark exec json_loads cli_path input_file
               output_file runs w).2 = w').
  { intros r w' H. unfold run_j2kswift_benchmark, bind, json_load, lift.
    rewrite H. destruct r; [|reflexivity].
    destruct (fs w' !! output_file) as [text|]; [|reflexivity].
    destruct (json_loads text); reflexivity. }
  destruct (invoke_benchmark exec cli_path input_file output_file runs w)
    as [r w'] eqn:Hrun.
  rewrite (Hkeeps r w' eq_refl). clear Hkeeps.
  rewrite invoke_benchmark_cases in Hrun. fold argv in Hrun.
  pose proof (subprocess_run_invoked exec argv w) as Hi1.
  pose proof (subprocess_run_stdout argv w) as Ho1.
  destruct (subprocess_run exec argv w) as [[rc1|e1] w1]; simpl in Hi1, Ho1.
  - destruct (rc1 =? 0).
    + injection Hrun as <- <-. left. auto.
    + pose proof (subprocess_run_invoked exec (argv ++ ["--encode-only"])
                    (print retry_warning w1).2) as Hi2.
      pose proof (subprocess_run_stdout (argv ++ ["--encode-only"])
                    (print retry_warning w1).2) as Ho2.
      destruct (subprocess_run exec (argv ++ ["--encode-only"]) _)
        as [[rc2|e2] w2]; simpl in Hi2, Ho2.
      * right. rewrite Hi1, Ho1, <- app_assoc in *.
        destruct (rc2 =? 0); injection Hrun as <- <-; auto.
      * right. rewrite Hi1, Ho1, <- app_assoc in *.
        injection Hrun as <- <-. auto.
  - injection Hrun as <- <-. left. auto.
Qed.

End RunFacts.

(** ** The reports *)

Lemma bind_Raise {A B} (m : result A) (k : A → result B) (e : exn) :
  m ≫= k = Raise e → m = Raise e ∨ ∃ x, m = Ok x ∧ k x = Raise e.
Proof. destruct m as [x|e']; cbn; [eauto | intros [= <-]; now left]. Qed.

Lemma mapR_Raise_elem {A B} (f : A → result B) (l : list A) (x : A) (e : exn) :
  x ∈ l → f x = Raise e → ∃ e', mapR f l = Raise e'.
Proof.
  induction l as [|y l IH]; intros Hin Hx; [by apply elem_of_nil in Hin|].
  simpl. destruct (f y) as [v|e'] eqn:Hy; cbn; [|eauto].
  apply elem_of_cons in Hin as [->|Hin]; [congruence|].
  destruct (IH Hin Hx) as [e' ->]. cbn. eauto.
Qed.

(** X8. The CSV report is the header followed by one line per result, in
    the order of the results; if any result's line cannot be rendered the
    whole report fails and no file is written; a written report changes
    the output file only. *)
Theorem csv_one_line_per_result (results : list BenchmarkResult) :
  (∀ lines, csv_lines results = Ok lines →
     ∃ body, lines = csv_head :: body
             ∧ Forall2 (λ r line, csv_line r = Ok line) results body)
  ∧ (∀ r e, r ∈ results → csv_line r = Raise e →
       ∃ e', ∀ output_file fs,
         generate_csv_report results output_file fs = Raise e')
  ∧ (∀ output_file fs fs',
       generate_csv_report results output_file fs = Ok fs' →
       ∃ lines, csv_lines results = Ok lines
                ∧ fs' !! output_file = Some (join nl lines)
                ∧ ∀ p, p ≠ output_file → fs' !! p = fs !! p).
Proof.
  split; [|split].
  - intros lines H. unfold csv_lines in H.
    apply bind_Ok in H as (body & Hbody & H). injection H as <-.
    exists body. split; [reflexivity|]. now apply mapR_Forall2.
  - intros r e Hin Hr.
    destruct (mapR_Raise_elem csv_line results r e Hin Hr) as [e' He'].
    exists e'. intros output_file fs.
    unfold generate_csv_report, csv_lines. rewrite He'. reflexivity.
  - intros output_file fs fs' H. unfold generate_csv_report in H.
    apply bind_Ok in H as (lines & Hlines & H). injection H as <-.
    exists lines. split; [exact Hlines|]. split.
    + apply lookup_insert_eq.
    + intros p Hp. now apply lookup_insert_ne.
Qed.

Lemma csv_one_line_per_result_witness :
  ∃ body, Forall2 (λ r line, csv_line r = Ok line) mixed_results body
          ∧ length body = 7%nat.
Proof.
  destruct (csv_lines mixed_results) as [lines|] eqn:E;
    [|vm_compute in E; discriminate].
  destruct (proj1 (csv_one_line_per_result mixed_results) lines E)
    as (body & -> & Hbody).
  exists body. split; [exact Hbody|].
  apply Forall2_length in Hbody. rewrite <- Hbody. reflexivity.
Defined.

Lemma average_raises (r : BenchmarkResult) (e : exn) :
  average r = Raise e → e = OverflowError.
Proof.
  unfold average, statistics.mean. destruct (times r); [discriminate|].
  destruct (forallb _ _); [|discriminate]. unfold of_Qc. intros H.
  apply int_truediv_raises in H as [->|[H _]]; [reflexivity | discriminate].
Qed.

Lemma mean_average_raises impl (rs : list BenchmarkResult) (e : exn) :
  mean_average impl rs = Raise e → e = OverflowError ∨ e = StatisticsError.
Proof.
  unfold mean_average. intros H. apply bind_Raise in H as [H|(avgs & _ & H)].
  - apply mapR_raises in H as (r & _ & H). left. now apply average_raises in H.
  - unfold statistics.mean in H. destruct avgs; [injection H as <-; now right|].
    destruct (forallb _ _); [|discriminate]. unfold of_Qc in H.
    apply int_truediv_raises in H as [->|[H _]]; [now left | discriminate].
Qed.

Lemma speed_ratio_ok (opj_avg j2k_avg : float) :
  ∃ ratio, speed_ratio opj_avg j2k_avg = Ok ratio.
Proof.
  unfold speed_ratio. destruct (ltb zero j2k_avg) eqn:E; [|eauto].
  unfold truediv. rewrite (ltb_zero_not_is_zero _ E). cbn. eauto.
Qed.

(** X9. The summary of the markdown report tests its divisors: it never
    raises [ZeroDivisionError]; the only errors it can raise are
    [StatisticsError] (no encode result for one of the implementations)
    and [OverflowError]. *)
Theorem summary_never_divides_by_zero (results : list BenchmarkResult)
    (e : exn) :
  summary results = Raise e → e = StatisticsError ∨ e = OverflowError.
Proof.
  unfold summary. intros H.
  apply bind_Raise in H as [H|(j & _ & H)];
    [apply mean_average_raises in H; tauto|].
  apply bind_Raise in H as [H|(o & _ & H)];
    [apply mean_average_raises in H; tauto|].
  destruct (speed_ratio_ok o j) as [ratio Hratio]. rewrite Hratio in H.
  cbn in H. apply bind_Raise in H as [H|(d & _ & H)]; [|discriminate].
  destruct (filter _ (decode_results_of results)) as [|? ?]; [discriminate|].
  destruct (filter (λ r, implementation r = "OpenJPEG") _) as [|? ?];
    [discriminate|].
  apply bind_Raise in H as [H|(jd & _ & H)];
    [apply mean_average_raises in H; tauto|].
  apply bind_Raise in H as [H|(od & _ & H)];
    [apply mean_average_raises in H; tauto|].
  destruct (speed_ratio_ok od jd) as [r' Hr']. rewrite Hr' in H. discriminate.
Qed.

Lemma summary_never_divides_by_zero_witness :
  summary [reference_encode] = Raise StatisticsError
  ∧ (StatisticsError = StatisticsError ∨ StatisticsError = OverflowError).
Proof.
  split; [reflexivity|].
  apply (summary_never_divides_by_zero [reference_encode] StatisticsError).
  reflexivity.
Defined.

Lemma mean_average_none impl (rs : list BenchmarkResult) :
  filter (λ r, implementation r = impl) rs = [] →
  mean_average impl rs = Raise StatisticsError.
Proof. intros H. unfold mean_average. rewrite H. reflexivity. Qed.

(** X10. Without an encode result of the candidate, or without one of the
    reference, no markdown report is produced: rendering raises, and when
    the two tables can be rendered the error is the [StatisticsError] of
    the mean of no values. *)
Theorem report_needs_both_implementations (now : string)
    (results : list BenchmarkResult) :
  filter (λ r, implementation r = "J2KSwift") (encode_results_of results) = []
  ∨ filter (λ r, implementation r = "OpenJPEG") (encode_results_of results) = [] →
  (∃ e, markdown_lines now results = Raise e)
  ∧ (∀ output_file fs,
       ∃ e, generate_markdown_report now results output_file fs = Raise e)
  ∧ (filter (λ r, implementation r = "J2KSwift") (encode_results_of results) = [] →
     ∀ erows drows, encode_table results = Ok erows →
       decode_table results = Ok drows →
       markdown_lines now results = Raise StatisticsError).
Proof.
  intros Hnone.
  assert (Hsummary : ∃ e, summary results = Raise e).
  { unfold summary. destruct Hnone as [Hj|Ho].
    - rewrite (mean_average_none _ _ Hj). cbn. eauto.
    - rewrite (mean_average_none _ _ Ho).
      destruct (mean_average "J2KSwift" (encode_results_of results));
        cbn; eauto. }
  assert (Hlines : ∃ e, markdown_lines now results = Raise e).
  { unfold markdown_lines.
    destruct (encode_table results) as [erows|e]; cbn; [|eauto].
    destruct (decode_table results) as [drows|e]; cbn; [|eauto].
    destruct Hsummary as [e ->]. cbn. eauto. }
  split; [exact Hlines|]. split.
  - intros output_file fs. destruct Hlines as [e He]. exists e.
    unfold generate_markdown_report. rewrite He. reflexivity.
  - intros Hj erows drows He Hd. unfold markdown_lines.
    rewrite He, Hd. cbn. unfold summary.
    rewrite (mean_average_none _ _ Hj). reflexivity.
Qed.

Lemma report_needs_both_implementations_witness :
  markdown_lines sample_time [reference_encode; reference_decode]
  = Raise StatisticsError.
Proof.
  destruct (report_needs_both_implementations sample_time
              [reference_encode; reference_decode]) as (_ & _ & H);
    [left; reflexivity|].
  eapply H; [reflexivity | vm_compute; reflexivity | vm_compute; reflexivity].
Defined.

(** X11. The decoding table is built over the image sizes of the encode
    results: every row of it is about a decode result whose size is also
    the size of some encode result, so a decode result of any other size
    is left out of the table. *)
Theorem decode_rows_follow_encode_sizes (results : list BenchmarkResult)
    (drows : list row) :
  decode_table results = Ok drows →
  ∀ r, r ∈ drows →
    (∃ d, d ∈ results ∧ operation d = "decode"
          ∧ image_size d = row_size r
          ∧ implementation d = row_implementation r)
    ∧ (∃ e, e ∈ results ∧ operation e = "encode"
            ∧ image_size e = row_size r).
Proof.
  intros H r Hr.
  destruct (table_rows_sorted (decode_results_of results) _ _ _
              (sorted_sizes_strict _) (decode_rows_block _) H) as [_ Hall].
  rewrite Forall_forall in Hall.
  destruct (Hall r Hr) as (size & Hsize & (Hrs & _) & d & Hd & Hds & Hdi).
  rewrite decode_results_elem_of in Hd. destruct Hd as [Hop Hd]. split.
  - exists d. auto.
  - unfold sorted_sizes in Hsize.
    rewrite merge_sort_Permutation, elem_of_remove_dups in Hsize.
    apply list_elem_of_fmap in Hsize as (e & He & Hin).
    rewrite encode_results_elem_of in Hin. destruct Hin as [Hope Hin].
    exists e. repeat split; try assumption. congruence.
Qed.

Lemma decode_rows_follow_encode_sizes_witness :
  ∃ drows r, decode_table mixed_results = Ok drows ∧ r ∈ drows
             ∧ ∃ e, e ∈ mixed_results ∧ operation e = "encode"
                    ∧ image_size e = row_size r.
Proof.
  destruct (decode_table mixed_results) as [[|r drows]|] eqn:E;
    [vm_compute in E; discriminate | | vm_compute in E; discriminate].
  exists (r :: drows), r. split; [reflexivity|]. split; [left|].
  apply (decode_rows_follow_encode_sizes mixed_results (r :: drows) E r). left.
Defined.

(** ** The test images *)

Lemma string_app_cons (x : ascii) (a b : string) :
  String x a +:+ b = String x (a +:+ b).
Proof. reflexivity. Qed.

Lemma string_app_assoc (a b c : string) : (a +:+ b) +:+ c = a +:+ (b +:+ c).
Proof.
  induction a as [|x a IH]; [reflexivity|]. rewrite !string_app_cons. congruence.
Qed.


Lemma string_length_app (a b : string) :
  String.length (a +:+ b) = (String.length a + String.length b)%nat.
Proof.
  induction a as [|x a IH]; [reflexivity|]. rewrite !string_app_cons. simpl.
  congruence.
Qed.



Section CorpusContents.
Context {Ext : Type}.
Variable can_open : string → gmap string string → Ext → bool.
Variable randint : Z → Z → Ext → Z * Ext.
Variable str_exn : exn → string.



(** X13. When the image file cannot be opened, [create_test_image]
    returns [False] after printing the error, without touching any file,
    and the loop of [main] stops there with exit code 1: the images of
    the remaining sizes are not created. *)
Theorem create_test_image_reports_failure (size : Z) (dir : string)
    (rest : list Z) (acc : list string) (w : @World Ext) :
  let path := pgm_path dir size in
  (∀ files ext, can_open path files ext = false) →
  (∀ w', (create_test_image can_open str_exn size path w').1 = Ok false
         ∧ fs (create_test_image can_open str_exn size path w').2 = fs w')
  ∧ (fs w !! path = None →
     let outcome := create_test_images can_open str_exn dir (size :: rest) acc w in
     outcome.1 = Ok (inl 1) ∧ fs outcome.2 = fs w).
Proof.
  intros path Hclosed.
  assert (Hfail : ∀ w', (create_test_image can_open str_exn size path w').1
                        = Ok false
                        ∧ fs (create_test_image can_open str_exn size path w').2
                          = fs w').
  { intros w'. unfold create_test_image, catch, bind, open_wb, print.
    rewrite !Hclosed. simpl. auto. }
  split; [exact Hfail|].
  intros Hnone outcome. subst outcome.
  rewrite create_test_images_cases. cbv zeta. fold path.
  rewrite bool_decide_eq_false_2 by (rewrite Hnone; intros [? ?]; discriminate).
  set (w0 := (print _ w).2).
  destruct (Hfail w0) as [H1 H2].
  destruct (create_test_image can_open str_exn size path w0) as [[[]|e] w'];
    simpl in *; try discriminate. auto.
Qed.

End CorpusContents.


Lemma create_test_image_reports_failure_witness :
  (create_test_images never_open plain_exn "imgs" [2; 4] []
     (mkWorld ∅ O [] [])).1 = Ok (inl 1).
Proof.
  destruct (create_test_image_reports_failure never_open plain_exn 2 "imgs"
              [4] [] (mkWorld ∅ O [] [])) as [_ H]; [reflexivity|].
  apply H. reflexivity.
Defined.

Section CorpusScope.
Context {Ext : Type}.
Variable can_open : string → gmap string string → Ext → bool.
Variable randint : Z → Z → Ext → Z * Ext.
Variable str_exn : exn → string.

Lemma random_bytes_length (n : nat) (w : @World Ext) :
  ∃ data, (random_bytes randint n w).1 = Ok data
          ∧ String.length data = n
          ∧ fs (random_bytes randint n w).2 = fs w.
Proof.
  revert w. induction n as [|n IH]; intros w; [by eexists|].
  remember (random_bytes randint (S n) w) as out eqn:Hout.
  simpl in Hout. unfold bind, random_randint, ret in Hout.
  destruct (randint 0 255 (ext w)) as [v ext'].
  set (w1 := mkWorld _ _ _ _) in Hout.
  destruct (IH w1) as (data & Hdata & Hlen & Hfs).
  destruct (random_bytes randint n w1) as [[data'|e] w2]; simpl in *;
    [|discriminate].
  injection Hdata as ->. subst out. exists (byte v +:+ data).
  split; [reflexivity|]. split; [|exact Hfs].
  rewrite string_length_app. simpl. now rewrite Hlen.
Qed.

(** X14. A new test image of the comparison script is the PGM header
    followed by exactly [size * size] random bytes; when the file cannot
    be opened the script stops with [OSError], no file is changed, and
    the images of the remaining sizes are not generated. *)
Theorem write_image_contents (dir : string) (size : Z) (rest : list Z)
    (w : @World Ext) :
  let path := pgm_path dir size in
  (can_open path (fs w) (ext w) = true →
     ∃ data,
       (write_image can_open randint dir size w).1 = Ok ()
       ∧ fs (write_image can_open randint dir size w).2 !! path
         = Some (pgm_header size +:+ data)
       ∧ String.length data = Z.to_nat (size * size))
  ∧ (can_open path (fs w) (ext w) = false → fs w !! path = None →
     generate_test_images can_open randint dir (size :: rest) w
     = (Raise OSError, w)).
Proof.
  intros path. split.
  - intros Hopen.
    remember (write_image can_open randint dir size w) as out eqn:Hout.
    unfold write_image, bind, open_wb, write, print in Hout. fold path in Hout.
    rewrite Hopen in Hout. simpl in Hout. rewrite lookup_insert_eq in Hout.
    match type of Hout with
    | context [random_bytes randint ?n ?w1] =>
      destruct (random_bytes_length n w1) as (data & Hdata & Hlen & Hfs);
      destruct (random_bytes randint n w1) as [[data'|e] w2]
    end; simpl in *; [|discriminate].
    injection Hdata as ->. exists data. subst out. simpl.
    rewrite Hfs, !lookup_insert_eq. auto.
  - intros Hclosed Hnone. unfold generate_test_images. simpl.
    unfold bind at 1. rewrite generate_test_image_cases. fold path.
    rewrite bool_decide_eq_false_2 by (rewrite Hnone; intros [? ?]; discriminate).
    unfold write_image, bind, open_wb. fold path. rewrite Hclosed. reflexivity.
Qed.

Lemma generate_test_image_scope dir size :
  changes_by (same_except (pgm_path dir size))
             (generate_test_image can_open randint dir size).
Proof.
  intros w q Hq. rewrite generate_test_image_cases.
  case_bool_decide; [reflexivity|]. now apply write_image_same_except.
Qed.

Lemma generate_test_images_scope dir sizes :
  changes_by (same_outside (corpus_paths dir sizes))
             (generate_test_images can_open randint dir sizes).
Proof.
  unfold generate_test_images.
  induction sizes as [|size sizes IH]; intros w q Hq; simpl; [reflexivity|].
  unfold bind.
  pose proof (generate_test_image_scope dir size w q) as Hstep.
  unfold corpus_paths in Hq. rewrite fmap_cons in Hq.
  apply not_elem_of_cons in Hq as [Hne Hq].
  destruct (generate_test_image can_open randint dir size w) as [[[]|e] w1];
    simpl in *; [|now apply Hstep].
  rewrite (IH w1 q Hq). now apply Hstep.
Qed.

Lemma create_test_images_scope dir sizes acc :
  changes_by (same_outside (corpus_paths dir sizes))
             (create_test_images can_open str_exn dir sizes acc).
Proof.
  revert acc. induction sizes as [|size sizes IH]; intros acc w q Hq;
    [reflexivity|].
  unfold corpus_paths in Hq. rewrite fmap_cons in Hq.
  apply not_elem_of_cons in Hq as [Hne Hq].
  rewrite create_test_images_cases. cbv zeta. case_bool_decide.
  - now apply IH.
  - set (w0 := (print _ w).2).
    pose proof (create_test_image_same_except can_open str_exn size
                  (pgm_path dir size) w0 q Hne) as Hstep.
    destruct (create_test_image can_open str_exn size _ w0) as [[[]|e] w1];
      simpl in *; try exact Hstep.
    rewrite (IH _ w1 q Hq). exact Hstep.
Qed.

(** X15. Corpus generation stays within the corpus: in both scripts
    every file other than the images of the requested sizes is left as
    it was, and after a run that completes each requested size has its
    image; the profiling script's list of images is then the paths of the
    sizes, in the order given. *)
Theorem corpus_generation_scope (dir : string) (sizes : list Z)
    (w : @World Ext) :
  (∀ q, q ∉ corpus_paths dir sizes →
     fs (generate_test_images can_open randint dir sizes w).2 !! q = fs w !! q
     ∧ ∀ acc, fs (create_test_images can_open str_exn dir sizes acc w).2 !! q
              = fs w !! q)
  ∧ ((generate_test_images can_open randint dir sizes w).1 = Ok () →
     ∀ size, size ∈ sizes →
       is_Some (fs (generate_test_images can_open randint dir sizes w).2
                !! pgm_path dir size))
  ∧ (∀ acc paths,
       (create_test_images can_open str_exn dir sizes acc w).1 = Ok (inr paths) →
       paths = acc ++ corpus_paths dir sizes
       ∧ ∀ size, size ∈ sizes →
           is_Some (fs (create_test_images can_open str_exn dir sizes acc w).2
                    !! pgm_path dir size)).
Proof.
  split; [|split].
  - intros q Hq. split.
    + now apply generate_test_images_scope.
    + intros acc. now apply create_test_images_scope.
  - apply generate_test_images_all_present.
  - intros acc paths Hok. split.
    + now apply (create_test_images_paths can_open str_exn dir sizes acc w).
    + now apply (create_test_images_all_present can_open str_exn dir sizes acc w paths).
Qed.

End CorpusScope.

Lemma write_image_contents_witness :
  ∃ data,
    fs (write_image always_open counter_randint "imgs" 2 (mkWorld ∅ O [] [])).2
      !! pgm_path "imgs" 2 = Some (pgm_header 2 +:+ data)
    ∧ String.length data = 4%nat.
Proof.
  destruct (write_image_contents always_open counter_randint "imgs" 2 []
              (mkWorld ∅ O [] [])) as [H _].
  destruct H as (data & _ & Hfile & Hlen); [reflexivity|].
  exists data. split; [exact Hfile | exact Hlen].
Defined.

Lemma corpus_generation_scope_witness :
  fs (generate_test_images always_open counter_randint "imgs" [4; 1]
        seeded_world).2 !! "imgs/test_2x2.pgm" = Some "old bytes"
  ∧ is_Some (fs (generate_test_images always_open counter_randint "imgs" [4; 1]
                   seeded_world).2 !! pgm_path "imgs" 4).
Proof.
  destruct (corpus_generation_scope always_open counter_randint plain_exn
              "imgs" [4; 1] seeded_world) as (Hframe & Hall & _).
  assert (Hq : "imgs/test_2x2.pgm" ∉ corpus_paths "imgs" [4; 1])
    by (apply (bool_decide_unpack _); vm_compute; reflexivity).
  destruct (Hframe _ Hq) as [Hkept _].
  split.
  - rewrite Hkept. vm_compute. reflexivity.
  - apply Hall; [vm_compute; reflexivity | left].
Defined.

(** ** File names and sizes *)

Lemma chars_app (a b : string) : chars (a +:+ b) = chars a ++ chars b.
Proof.
  induction a as [|x a IH]; [reflexivity|].
  rewrite string_app_cons. unfold chars in *. simpl. now rewrite IH.
Qed.

Lemma pretty_N_go_numeral (x : N) (s : string) :
  Forall numeral_char (chars s) → Forall numeral_char (chars (pretty_N_go x s)).
Proof.
  revert s. induction (N.lt_wf_0 x) as [x _ IH]; intros s Hs.
  destruct (decide (x = 0)%N) as [->|Hx]; [now rewrite pretty_N_go_0|].
  rewrite pretty_N_go_step by lia. apply IH.
  - apply N.div_lt; lia.
  - unfold chars. simpl. constructor; [|exact Hs].
    unfold numeral_char, pretty_N_char.
    repeat case_match; set_solver.
Qed.

Lemma pretty_Z_numeral (z : Z) : Forall numeral_char (chars (pretty z)).
Proof.
  assert (HN : ∀ n : N, Forall numeral_char (chars (pretty n))).
  { intros n. unfold pretty, pretty_N. case_decide.
    - repeat constructor; unfold numeral_char; set_solver.
    - apply pretty_N_go_numeral. constructor. }
  destruct z as [|p|p]; unfold pretty, pretty_Z.
  - repeat constructor; unfold numeral_char; set_solver.
  - apply (HN (Npos p)).
  - rewrite chars_app. apply Forall_app. split; [|apply (HN (Npos p))].
    repeat constructor; unfold numeral_char; set_solver.
Qed.

(** Two strings that agree up to and including the first occurrence of a
    character they do not otherwise contain agree before it. *)
Lemma split_at_char (c : ascii) (a b s t : string) :
  c ∉ chars a → c ∉ chars b →
  a +:+ String c s = b +:+ String c t → a = b ∧ s = t.
Proof.
  revert b. induction a as [|x a IH]; intros [|y b] Ha Hb H.
  - simpl in H. injection H as <-. auto.
  - rewrite string_app_cons in H. simpl in H. injection H as <- _.
    exfalso. apply Hb. unfold chars. simpl. left.
  - rewrite string_app_cons in H. simpl in H. injection H as -> _.
    exfalso. apply Ha. unfold chars. simpl. left.
  - rewrite !string_app_cons in H. injection H as -> H.
    destruct (IH b) as [-> ->]; try assumption; [| |auto].
    + intros Hin. apply Ha. unfold chars in *. simpl. now right.
    + intros Hin. apply Hb. unfold chars in *. simpl. now right.
Qed.

Lemma numeral_not (c : ascii) (z : Z) :
  ¬ numeral_char c → c ∉ chars (pretty z).
Proof.
  intros Hc Hin. pose proof (pretty_Z_numeral z) as H.
  rewrite Forall_forall in H. exact (Hc (H c Hin)).
Qed.

(** X16. Different sizes never share an image file: within one directory
    the canonical paths of two different sizes differ. *)
Theorem pgm_path_inj (dir : string) (size1 size2 : Z) :
  size1 ≠ size2 → pgm_path dir size1 ≠ pgm_path dir size2.
Proof.
  unfold pgm_path, str_int. intros Hne H. apply Hne.
  apply (inj (String.app dir)) in H.
  apply (inj (String.app "/")) in H.
  apply (inj (String.app "test_")) in H.
  apply (split_at_char "x") in H as [H _].
  - now apply (inj pretty) in H.
  - apply numeral_not. apply (bool_decide_unpack _). vm_compute. reflexivity.
  - apply numeral_not. apply (bool_decide_unpack _). vm_compute. reflexivity.
Qed.

Lemma pgm_path_inj_witness : pgm_path "imgs" 256 ≠ pgm_path "imgs" 512.
Proof. apply (pgm_path_inj "imgs" 256 512). lia. Defined.

(** ** profile_encoder.py: the analyses and their use in the report *)

Lemma get_raises (v : value) (k : string) (fallback : value) (e : exn) :
  get v k fallback = Raise e → e = AttributeError.
Proof. destruct v; simpl; congruence. Qed.

Lemma value_positive_raises (v : value) (e : exn) :
  value_positive v = Raise e → e = TypeError.
Proof. destruct v; simpl; congruence. Qed.

Lemma of_int_raises (n : Z) (e : exn) : of_int n = Raise e → e = OverflowError.
Proof.
  unfold of_int. intros H.
  destruct (int_truediv_raises _ _ _ H) as [?|[? _]]; [assumption | lia].
Qed.

(** A division guarded by [divisor > 0] can only overflow. *)
Lemma guarded_truediv_raises (n : Z) (divisor : value) (e : exn) :
  value_positive divisor = Ok true →
  value_truediv (VInt n) divisor = Raise e → e = OverflowError.
Proof.
  destruct divisor as [|b|d|x|s|l|d]; simpl; try discriminate.
  - intros [= ->] H.
    destruct (int_truediv_raises _ _ _ H) as [?|[? _]]; [assumption | lia].
  - intros [= Hd] H. apply Z.ltb_lt in Hd.
    destruct (int_truediv_raises _ _ _ H) as [?|[? _]]; [assumption | lia].
  - intros [= Hx] H. apply ltb_zero_not_is_zero in Hx.
    destruct (of_int n) as [y|e'] eqn:Hy; simpl in H.
    + unfold truediv in H. rewrite Hx in H. discriminate.
    + injection H as <-. now apply of_int_raises in Hy.
Qed.

(** X17. [analyze_results] never divides by zero and never misses a key:
    when it fails, it is on a value of the wrong type (a document or an
    [encode] entry that is no dictionary, a compressed size that is no
    number) or on a pixel count too large for a float. *)
Theorem analyze_results_raises_only (results : value) (image_size : Z)
    (e : exn) :
  analyze_results results image_size = Raise e →
  e = AttributeError ∨ e = TypeError ∨ e = OverflowError.
Proof.
  unfold analyze_results.
  destruct (get results "encode" (VDict ∅)) as [stats|e1] eqn:H1; cbn [mbind result_bind];
    [|intros [= <-]; left; eapply get_raises; eassumption].
  destruct (get stats "runs" (VList [])) as [runs|e2] eqn:H2; cbn [mbind result_bind];
    [|intros [= <-]; left; eapply get_raises; eassumption].
  destruct (negb (value_truthy runs)); [discriminate|].
  destruct (get stats "average_ms" (VInt 0)) as [avg|e3] eqn:H3; cbn [mbind result_bind];
    [|intros [= <-]; left; eapply get_raises; eassumption].
  destruct (get stats "throughput_mpps" (VInt 0)) as [thr|e4] eqn:H4; cbn [mbind result_bind];
    [|intros [= <-]; left; eapply get_raises; eassumption].
  destruct (get stats "compressed_size" (VInt 0)) as [size|e5] eqn:H5;
    cbn [mbind result_bind];
    [|intros [= <-]; left; eapply get_raises; eassumption].
  destruct (value_positive size) as [[|]|e6] eqn:H6; cbn [mbind result_bind];
    [| discriminate
     | intros [= <-]; right; left; eapply value_positive_raises; eassumption].
  destruct (value_truediv (VInt (image_size * image_size)) size)
    as [ratio|e7] eqn:H7; cbn [mbind result_bind fmap result_fmap];
    [discriminate|].
  intros [= <-]. right; right. eapply guarded_truediv_raises; eassumption.
Qed.

Lemma analyze_results_raises_only_witness :
  AttributeError = AttributeError ∨ AttributeError = TypeError
  ∨ AttributeError = OverflowError.
Proof.
  apply (analyze_results_raises_only (VDict {[ "encode" := VInt 5 ]}) 256).
  vm_compute. reflexivity.
Defined.

Lemma last_cons_ne {A} (x d : A) (l : list A) :
  l ≠ [] → List.last (x :: l) d = List.last l d.
Proof. destruct l; [congruence | reflexivity]. Qed.

Lemma ratios_empty_first (last : gmap string value) :
  ratios ∅ last = Raise (KeyError "pixels").
Proof.
  unfold ratios. destruct (dict_getitem last "pixels") as [p|e] eqn:Hp.
  - reflexivity.
  - unfold dict_getitem in Hp. destruct (last !! "pixels"); [discriminate|].
    now injection Hp as <-.
Qed.

Lemma ratios_empty_last (first : gmap string value) :
  ratios first ∅ = Raise (KeyError "pixels").
Proof. reflexivity. Qed.

(** X18. A profiling document without timed runs is analysed to an
    empty entry, and such an entry at the first or at the last place
    among two or more makes the scalability analysis of the report fail
    with [KeyError: 'pixels']. *)
Theorem runless_document_breaks_report (doc stats runs : value)
    (image_size : Z) (others : list (gmap string value)) :
  get doc "encode" (VDict ∅) = Ok stats →
  get stats "runs" (VList []) = Ok runs →
  value_truthy runs = false →
  others ≠ [] →
  ∃ analysis,
    analyze_results doc image_size = Ok analysis
    ∧ scalability_analysis (analysis :: others) = Raise (KeyError "pixels")
    ∧ scalability_analysis (others ++ [analysis]) = Raise (KeyError "pixels").
Proof.
  intros Hstats Hruns Hfalsy Hothers. exists ∅. split; [|split].
  - unfold analyze_results. rewrite Hstats. simpl. rewrite Hruns. simpl.
    now rewrite Hfalsy.
  - destruct others as [|o others]; [congruence|].
    unfold scalability_analysis. simpl length. simpl Nat.leb. cbv iota.
    now rewrite ratios_empty_first.
  - destruct others as [|o others]; [congruence|].
    unfold scalability_analysis.
    change ((o :: others) ++ [∅]) with (o :: (others ++ [∅])).
    replace (2 <=? length (o :: others ++ [∅]))%nat with true
      by (symmetry; apply Nat.leb_le; simpl; rewrite length_app; simpl; lia).
    change (o :: others ++ [∅]) with ((o :: others) ++ [∅]).
    rewrite List.last_last. now rewrite ratios_empty_last.
Qed.

Lemma runless_document_breaks_report_witness :
  ∃ analysis,
    analyze_results (VDict {[ "encode" := VDict ∅ ]}) 256 = Ok analysis
    ∧ scalability_analysis (analysis :: ascending_analyses)
      = Raise (KeyError "pixels")
    ∧ scalability_analysis (ascending_analyses ++ [analysis])
      = Raise (KeyError "pixels").
Proof.
  apply (runless_document_breaks_report
           (VDict {[ "encode" := VDict ∅ ]}) (VDict ∅) (VList [])).
  - reflexivity.
  - reflexivity.
  - reflexivity.
  - apply (bool_decide_unpack _). vm_compute. reflexivity.
Defined.

Lemma value_truediv_divisor (a b : value) (q : float) :
  value_truediv a b = Ok q → value_truthy b = true.
Proof.
  destruct a as [|c|m|x|s|l|d], b as [|b|n|y|s'|l'|d']; simpl;
    try discriminate; try reflexivity;
    try (destruct b; [reflexivity | vm_compute; discriminate]);
    try (destruct n; [vm_compute; discriminate | reflexivity | reflexivity]);
    try (destruct (of_int _); discriminate);
    try (destruct (of_int _); simpl; [|discriminate]);
    unfold truediv; destruct (is_zero y); (discriminate || reflexivity).
Qed.

(** X19. The scalability analysis succeeds only when the first entry
    has a pixel count and an average time that are not zero, and the
    ratio of the pixel counts is not zero either: each of these is a
    divisor. *)
Theorem scalability_needs_nonzero_divisors
    (all_results : list (gmap string value)) (s : scalability) :
  scalability_analysis all_results = Ok (Some s) →
  ∃ first pixels avg_time,
    head all_results = Some first
    ∧ first !! "pixels" = Some pixels ∧ value_truthy pixels = true
    ∧ first !! "avg_time_ms" = Some avg_time ∧ value_truthy avg_time = true
    ∧ is_zero (pixel_ratio s) = false.
Proof.
  unfold scalability_analysis.
  destruct all_results as [|first rest]; [discriminate|].
  destruct (2 <=? _)%nat; [|discriminate].
  remember (List.last (first :: rest) first) as last eqn:Hlast. clear Hlast.
  unfold ratios, dict_getitem.
  destruct (last !! "pixels") as [lp|]; [|discriminate].
  destruct (first !! "pixels") as [fp|] eqn:Hfp; [|discriminate]. simpl.
  destruct (value_truediv lp fp) as [pr|] eqn:Hpr; [|discriminate]. simpl.
  destruct (last !! "avg_time_ms") as [lt|]; [|discriminate].
  destruct (first !! "avg_time_ms") as [ft|] eqn:Hft; [|discriminate]. simpl.
  destruct (value_truediv lt ft) as [tr|] eqn:Htr; [|discriminate]. simpl.
  unfold truediv. destruct (is_zero pr) eqn:Hz; [discriminate|]. simpl.
  intros [= <-]. exists first, fp, ft. simpl.
  split; [reflexivity|]. split; [exact Hfp|].
  split; [eapply value_truediv_divisor; eassumption|].
  split; [exact Hft|].
  split; [eapply value_truediv_divisor; eassumption | exact Hz].
Qed.

Lemma scalability_needs_nonzero_divisors_witness :
  ∃ s, scalability_analysis ascending_analyses = Ok (Some s)
       ∧ is_zero (pixel_ratio s) = false.
Proof.
  eexists. split; [vm_compute; reflexivity|].
  match goal with
  | |- is_zero (pixel_ratio ?s) = false =>
    destruct (scalability_needs_nonzero_divisors ascending_analyses s)
      as (_ & _ & _ & _ & _ & _ & _ & _ & H);
      [vm_compute; reflexivity | exact H]
  end.
Defined.

(** ** Text *)

Lemma not_in_chars_cons (c x : ascii) (s : string) :
  c ∉ chars (String x s) → x ≠ c ∧ c ∉ chars s.
Proof.
  unfold chars. simpl. intros H. split.
  - intros ->. apply H. left.
  - intros Hin. apply H. now right.
Qed.

Lemma str_split_nonempty (c : ascii) (s : string) : str_split c s ≠ [].
Proof.
  destruct s as [|x s]; simpl; [discriminate|].
  destruct (decide (x = c)); [discriminate|].
  destruct (str_split c s); discriminate.
Qed.

Lemma str_split_none (c : ascii) (s : string) :
  c ∉ chars s → str_split c s = [s].
Proof.
  induction s as [|x s IH]; [reflexivity|].
  intros H. apply not_in_chars_cons in H as [Hx Hs]. simpl.
  destruct (decide (x = c)); [contradiction|]. now rewrite IH.
Qed.

Lemma str_split_app (c : ascii) (a b : string) :
  c ∉ chars b → str_split c (a +:+ String c b) = str_split c a ++ [b].
Proof.
  intros Hb. induction a as [|x a IH].
  - simpl. destruct (decide (c = c)); [|congruence].
    now rewrite str_split_none.
  - rewrite string_app_cons. simpl. rewrite IH.
    destruct (decide (x = c)); [reflexivity|].
    pose proof (str_split_nonempty c a) as Hne.
    destruct (str_split c a); [congruence | reflexivity].
Qed.

Lemma rfind_none (c : ascii) (s : string) : c ∉ chars s → rfind c s = None.
Proof.
  induction s as [|x s IH]; [reflexivity|].
  intros H. apply not_in_chars_cons in H as [Hx Hs]. simpl.
  rewrite IH by assumption. destruct (decide (x = c)); [contradiction|].
  reflexivity.
Qed.

Lemma rfind_app (c : ascii) (a b : string) :
  c ∉ chars b → rfind c (a +:+ String c b) = Some (String.length a).
Proof.
  intros Hb. induction a as [|x a IH].
  - simpl. rewrite rfind_none by assumption.
    destruct (decide (c = c)); [reflexivity | congruence].
  - rewrite string_app_cons. simpl. now rewrite IH.
Qed.

Lemma substring_prefix (a b : string) :
  substring 0 (String.length a) (a +:+ b) = a.
Proof.
  induction a as [|x a IH].
  - destruct b; reflexivity.
  - rewrite string_app_cons. simpl. now rewrite IH.
Qed.

Lemma path_name_join (dir name : string) :
  "/"%char ∉ chars name → name ≠ EmptyString → name ≠ "." →
  path_name (dir +:+ "/" +:+ name) = name.
Proof.
  intros Hslash Hne Hdot. unfold path_name, path_parts.
  change ("/" +:+ name) with (String "/" name).
  rewrite str_split_app by assumption.
  rewrite filter_app, filter_cons_True by auto.
  rewrite filter_nil. apply List.last_last.
Qed.

Lemma digit_of_pretty (d : N) :
  (d < 10)%N → digit_of (pretty_N_char d) = Some (Z.of_N d).
Proof.
  intros Hd.
  assert (Hcases : d ∈ [0; 1; 2; 3; 4; 5; 6; 7; 8; 9]%N).
  { rewrite !elem_of_cons. lia. }
  rewrite !elem_of_cons in Hcases.
  repeat (destruct Hcases as [->|Hcases]; [reflexivity|]).
  now apply elem_of_nil in Hcases.
Qed.

(** The digits [pretty] writes for a number are read back as that
    number, and there are no more of them than it needs. *)
Lemma numeral_pretty_N_go (x : N) :
  ∃ k : nat,
    (x = 0%N → k = 0%nat)
    ∧ (x ≠ 0%N → k ≠ 0%nat ∧ 10 ^ Z.of_nat k ≤ 10 * Z.of_N x)
    ∧ ∀ s acc d,
        numeral (pretty_N_go x s) false acc d
        = numeral s false (acc * 10 ^ Z.of_nat k + Z.of_N x) (d + k).
Proof.
  induction (N.lt_wf_0 x) as [x _ IH].
  destruct (decide (x = 0)%N) as [->|Hx].
  - exists 0%nat. split; [reflexivity|]. split; [congruence|].
    intros s acc d. rewrite pretty_N_go_0. f_equal; [simpl; lia | lia].
  - destruct (IH (x `div` 10)%N) as (k & Hzero & Hpos & Hread).
    { apply N.div_lt; lia. }
    exists (S k). split; [congruence|]. split.
    + intros _. split; [discriminate|].
      rewrite Nat2Z.inj_succ, Z.pow_succ_r by lia.
      destruct (decide (x `div` 10 = 0)%N) as [Hq|Hq].
      * rewrite (Hzero Hq). simpl. lia.
      * destruct (Hpos Hq) as [_ Hk].
        assert (10 * Z.of_N (x `div` 10) ≤ Z.of_N x).
        { rewrite <- (N2Z.inj_mul 10). apply N2Z.inj_le.
          apply N.Div0.mul_div_le. }
        lia.
    + intros s acc d. rewrite pretty_N_go_step by lia. rewrite Hread.
      simpl numeral. rewrite digit_of_pretty by (apply N.mod_lt; lia).
      f_equal; [|lia].
      rewrite Nat2Z.inj_succ, Z.pow_succ_r by lia.
      rewrite (N.div_mod x 10) at 3 by lia.
      rewrite N2Z.inj_add, N2Z.inj_mul. simpl Z.of_N. lia.
Qed.

Lemma pretty_N_go_head (x : N) (s : string) :
  x ≠ 0%N → ∃ d rest, pretty_N_go x s = String (pretty_N_char d) rest.
Proof.
  revert s. induction (N.lt_wf_0 x) as [x _ IH]. intros s Hx.
  rewrite pretty_N_go_step by lia.
  destruct (decide (x `div` 10 = 0)%N) as [->|Hq].
  - rewrite pretty_N_go_0. eauto.
  - apply IH; [apply N.div_lt; lia | assumption].
Qed.

Lemma all_chars_Forall (p : ascii → bool) (s : string) :
  Forall (λ c, p c = true) (chars s) → all_chars p s = true.
Proof.
  induction s as [|x s IH]; [reflexivity|].
  unfold chars. simpl. intros H. apply Forall_cons in H as [Hx Hs].
  rewrite Hx. now apply IH.
Qed.

Lemma numeral_char_ascii (c : ascii) : numeral_char c → is_ascii c = true.
Proof.
  unfold numeral_char. intros Hc. rewrite !elem_of_cons in Hc.
  repeat (destruct Hc as [->|Hc]; [reflexivity|]).
  now apply elem_of_nil in Hc.
Qed.

Lemma pretty_Z_ascii (z : Z) : all_chars is_ascii (pretty z) = true.
Proof.
  apply all_chars_Forall. eapply Forall_impl; [apply pretty_Z_numeral|].
  apply numeral_char_ascii.
Qed.

Section TextFacts.
Variable int_max_str_digits : nat.
Variable unicode_int : string → result Z.
Variable unicode_strip : string → string.

Lemma int_ascii_pretty_N (x : N) :
  x ≠ 0%N → Z.of_N x < 10 ^ 640 →
  ∃ k, numeral (pretty_N_go x EmptyString) false 0 0 = Some (Z.of_N x, k)
       ∧ too_many_digits int_max_str_digits k = false.
Proof.
  intros Hx Hbound.
  destruct (numeral_pretty_N_go x) as (k & _ & Hpos & Hread).
  destruct (Hpos Hx) as [Hk Hle]. exists k. split.
  - rewrite Hread. simpl. destruct k; [congruence|]. simpl.
    first [reflexivity | f_equal; f_equal; lia].
  - unfold too_many_digits.
    assert (k ≤ 640)%nat as Hsmall.
    { assert (10 ^ Z.of_nat k < 10 ^ 641) as Hlt.
      { change (10 ^ 641) with (10 * 10 ^ 640). lia. }
      apply Z.pow_lt_mono_r_iff in Hlt; lia. }
    apply Nat.ltb_ge in Hsmall. now rewrite Hsmall.
Qed.

Lemma int_ascii_pretty (z : Z) :
  Z.abs z < 10 ^ 640 → int_ascii int_max_str_digits (pretty z) = Ok z.
Proof.
  intros Hbound. destruct z as [|p|p].
  - reflexivity.
  - destruct (int_ascii_pretty_N (Npos p)) as (k & Hnum & Hfew);
      [discriminate | exact Hbound |].
    change (pretty (Z.pos p)) with (pretty_N_go (N.pos p) EmptyString).
    destruct (pretty_N_go_head (Npos p) EmptyString) as (d & rest & Hhead);
      [discriminate|].
    rewrite Hhead in *. unfold pretty_N_char in *.
    repeat case_match;
      (match goal with
       | |- int_ascii _ (String ?c ?r) = _ =>
         transitivity
           (match numeral (String c r) false 0 0 with
            | Some (n, digits) =>
              if too_many_digits int_max_str_digits digits
              then Raise ValueError else Ok n
            | None => Raise ValueError
            end); [reflexivity|]
       end);
      rewrite Hnum, Hfew; reflexivity.
  - destruct (int_ascii_pretty_N (Npos p)) as (k & Hnum & Hfew);
      [discriminate | exact Hbound |].
    change (pretty (Z.neg p))
      with (String "-" (pretty_N_go (N.pos p) EmptyString)).
    transitivity
      (match numeral (pretty_N_go (N.pos p) EmptyString) false 0 0 with
       | Some (n, digits) =>
         if too_many_digits int_max_str_digits digits
         then Raise ValueError else Ok (- n)
       | None => Raise ValueError
       end); [reflexivity|].
    rewrite Hnum, Hfew. reflexivity.
Qed.

Lemma int_of_str_pretty (z : Z) :
  Z.abs z < 10 ^ 640 →
  int_of_str int_max_str_digits unicode_int (pretty z) = Ok z.
Proof.
  intros Hbound. unfold int_of_str. rewrite pretty_Z_ascii.
  now apply int_ascii_pretty.
Qed.

Lemma chars_cons (x : ascii) (s : string) : chars (String x s) = x :: chars s.
Proof. reflexivity. Qed.

Ltac no_char :=
  repeat (rewrite chars_app || rewrite chars_cons || rewrite not_elem_of_app
          || rewrite not_elem_of_cons);
  repeat split;
  first [ assumption
        | discriminate
        | apply not_elem_of_nil
        | apply numeral_not; apply (bool_decide_unpack _); vm_compute;
          reflexivity ].

Lemma image_size_of_name (dir suffix : string) (z : Z) :
  Z.abs z < 10 ^ 640 →
  "."%char ∉ chars suffix → "/"%char ∉ chars suffix →
  suffix ≠ EmptyString →
  image_size_of int_max_str_digits unicode_int
    (dir +:+ "/" +:+ "test_" +:+ pretty z +:+ "x" +:+ pretty z
     +:+ String "." suffix)
  = inr z.
Proof.
  intros Hbound Hdot Hslash Hsuffix.
  set (base := "test_" +:+ pretty z +:+ "x" +:+ pretty z).
  assert (Hname : "test_" +:+ pretty z +:+ "x" +:+ pretty z
                  +:+ String "." suffix = base +:+ String "." suffix).
  { unfold base. now rewrite !string_app_assoc. }
  rewrite Hname. unfold image_size_of, path_stem.
  rewrite path_name_join.
  - rewrite rfind_app by assumption.
    rewrite bool_decide_eq_true_2.
    + rewrite substring_prefix.
      change base with ("test" +:+ String "_" (pretty z +:+ String "x" (pretty z))).
      rewrite str_split_app by no_char.
      change (str_split "_" "test") with ["test"]. simpl lookup.
      cbv beta iota.
      rewrite str_split_app by no_char.
      rewrite str_split_none by no_char. simpl hd.
      now rewrite int_of_str_pretty.
    + rewrite string_length_app. unfold base. simpl String.length.
      destruct suffix; [congruence|]. simpl. lia.
  - unfold base. change (String "." suffix) with ("." +:+ suffix). no_char.
  - discriminate.
  - unfold base. discriminate.
Qed.

(** X20. The size an adapter reads back from the name of a file is the
    size the file was generated for: for the image of a size and for
    its encoded file alike, whatever the directory. *)
Theorem image_size_of_canonical_path (dir : string) (size : Z) :
  Z.abs size < 10 ^ 640 →
  image_size_of int_max_str_digits unicode_int (pgm_path dir size) = inr size
  ∧ image_size_of int_max_str_digits unicode_int (j2k_path dir size)
    = inr size.
Proof.
  intros Hbound. unfold pgm_path, j2k_path, str_int. split.
  - apply (image_size_of_name dir "pgm"); [assumption | no_char.. | discriminate].
  - apply (image_size_of_name dir "j2k"); [assumption | no_char.. | discriminate].
Qed.








Lemma int_ascii_raises (s : string) (e : exn) :
  int_ascii int_max_str_digits s = Raise e → e = ValueError.
Proof.
  unfold int_ascii.
  destruct (match skip is_space s with
            | String "+" body => (false, body)
            | String "-" body => (true, body)
            | _ => (false, skip is_space s)
            end) as [negative body].
  destruct (numeral body false 0 0) as [[n digits]|]; [|congruence].
  destruct (too_many_digits _ _); congruence.
Qed.

Lemma all_chars_skip (p q : ascii → bool) (s : string) :
  all_chars p s = true → all_chars p (skip q s) = true.
Proof.
  induction s as [|x s IH]; [reflexivity|]. simpl.
  intros H. apply andb_prop in H as [Hx Hs].
  destruct (q x); [auto|]. simpl. now rewrite Hx, Hs.
Qed.

Lemma all_chars_skip_end (p q : ascii → bool) (s : string) :
  all_chars p s = true → all_chars p (skip_end q s) = true.
Proof.
  induction s as [|x s IH]; [reflexivity|]. simpl.
  intros H. apply andb_prop in H as [Hx Hs]. specialize (IH Hs).
  destruct (skip_end q s).
  - destruct (q x); [reflexivity|]. simpl. now rewrite Hx.
  - simpl in *. now rewrite Hx, IH.
Qed.

Lemma all_chars_str_split (p : ascii → bool) (c : ascii) (s piece : string) :
  all_chars p s = true → piece ∈ str_split c s → all_chars p piece = true.
Proof.
  revert piece. induction s as [|x s IH]; intros piece H Hin.
  - simpl in Hin. apply list_elem_of_singleton in Hin as ->. reflexivity.
  - simpl in H. apply andb_prop in H as [Hx Hs]. simpl in Hin.
    destruct (decide (x = c)).
    + apply elem_of_cons in Hin as [->|Hin]; [reflexivity | auto].
    + destruct (str_split c s) as [|first pieces] eqn:Hsplit.
      * apply list_elem_of_singleton in Hin as ->. simpl. now rewrite Hx.
      * apply elem_of_cons in Hin as [->|Hin].
        -- simpl. rewrite Hx. apply IH; [assumption | left].
        -- apply IH; [assumption | now right].
Qed.

Lemma skip_all (p : ascii → bool) (s : string) :
  all_chars p s = true → skip p s = EmptyString.
Proof.
  induction s as [|x s IH]; [reflexivity|]. simpl.
  intros H. apply andb_prop in H as [-> Hs]. auto.
Qed.

Lemma mapR_raises_first {A B} (f : A → result B) (l : list A) (x : A)
    (e : exn) :
  x ∈ l → f x = Raise e → (∀ y e', y ∈ l → f y = Raise e' → e' = e) →
  mapR f l = Raise e.
Proof.
  intros Hin Hx Hall.
  destruct (mapR_Raise_elem f l x e Hin Hx) as [e' He'].
  destruct (mapR_raises f l e' He') as (y & Hy & Hfy).
  rewrite He'. f_equal. eauto.
Qed.

(** X22. A size list in ASCII with a blank field (an empty one, as after
    a trailing comma, or one of white space only) is rejected with
    [ValueError], wherever the field stands. *)
Theorem blank_size_is_rejected (sizes field : string) :
  all_chars is_ascii sizes = true →
  field ∈ str_split "," sizes →
  all_chars is_whitespace field = true →
  parse_sizes int_max_str_digits unicode_int unicode_strip sizes
  = Raise ValueError.
Proof.
  intros Hascii Hfield Hblank. unfold parse_sizes.
  assert (Hstrip : ∀ piece, piece ∈ str_split "," sizes →
            int_of_str int_max_str_digits unicode_int
              (strip unicode_strip piece)
            = int_ascii int_max_str_digits
                (skip_end is_whitespace (skip is_whitespace piece))).
  { intros piece Hin.
    pose proof (all_chars_str_split _ _ _ _ Hascii Hin) as Hp.
    unfold strip, int_of_str. rewrite Hp.
    now rewrite all_chars_skip_end by now apply all_chars_skip. }
  apply (mapR_raises_first _ _ field).
  - assumption.
  - rewrite Hstrip by assumption. now rewrite skip_all.
  - intros piece e Hin. rewrite Hstrip by assumption. apply int_ascii_raises.
Qed.

End TextFacts.

Lemma image_size_of_canonical_path_witness :
  image_size_of 4300 (λ _, Raise ValueError) (pgm_path "imgs" 256) = inr 256
  ∧ image_size_of 4300 (λ _, Raise ValueError) (j2k_path "imgs" 256) = inr 256.
Proof.
  apply (image_size_of_canonical_path 4300 (λ _, Raise ValueError)).
  apply (bool_decide_unpack _). vm_compute. reflexivity.
Defined.


Lemma blank_size_is_rejected_witness :
  parse_sizes 4300 (λ _, Raise ValueError) id "256,512, " = Raise ValueError.
Proof.
  apply (blank_size_is_rejected 4300 (λ _, Raise ValueError) id
           "256,512, " " ").
  - reflexivity.
  - apply (bool_decide_unpack _). vm_compute. reflexivity.
  - reflexivity.
Defined.

(** ** compare_performance.py: the reference implementation's adapters *)

Section ReferenceFacts.
Context {Ext : Type}.
Variable exec : list string → gmap string string → Ext
                → result Z * gmap string string * Ext.
Variable perf_counter : Ext → float * Ext.
Variable int_max_str_digits : nat.
Variable unicode_int : string → result Z.

Lemma clock_keeps (w : @World Ext) :
  fs (clock perf_counter w).2 = fs w
  ∧ invoked (clock perf_counter w).2 = invoked w
  ∧ stdout (clock perf_counter w).2 = stdout w.
Proof. unfold clock. destruct (perf_counter (ext w)). auto. Qed.

Lemma subprocess_run_checked_cases (argv : list string) (w : @World Ext)
    out w' :
  subprocess_run_checked exec argv w = (out, w') →
  invoked w' = invoked w ++ [argv] ∧ stdout w' = stdout w
  ∧ match out with
    | inr _ => True
    | inl f => command_failure f
    end.
Proof.
  unfold subprocess_run_checked, subprocess_run.
  destruct (exec argv (fs w) (ext w)) as [[[rc|e] files] ext'].
  - destruct (rc =? 0) eqn:Hrc; intros [= <- <-]; simpl; repeat split.
    now apply Z.eqb_neq in Hrc.
  - intros [= <- <-]. simpl. auto.
Qed.

(** The loop of timed runs: on success one time per run was appended
    and the command ran once per run; on failure the command ran at
    most that often and its last run is the one that failed. *)
Lemma timed_runs_cases (argv : list string) (runs : nat) (times : list float)
    (w : @World Ext) out w' :
  timed_runs exec perf_counter argv runs times w = (out, w') →
  stdout w' = stdout w
  ∧ match out with
    | inr all_times =>
      ∃ new, all_times = times ++ new ∧ length new = runs
             ∧ invoked w' = invoked w ++ replicate runs argv
    | inl f =>
      ∃ k, (k < runs)%nat
           ∧ invoked w' = invoked w ++ replicate (S k) argv
           ∧ command_failure f
    end.
Proof.
  revert times w. induction runs as [|runs IH]; intros times w; simpl.
  - intros [= <- <-]. split; [reflexivity|]. exists [].
    now rewrite !app_nil_r.
  - pose proof (clock_keeps w) as (_ & Hi1 & Ho1).
    destruct (clock perf_counter w) as [start w1]. simpl in Hi1, Ho1.
    destruct (subprocess_run_checked exec argv w1) as [[f|[]] w2] eqn:Hrun;
      apply subprocess_run_checked_cases in Hrun as (Hi2 & Ho2 & Hf).
    + intros [= <- <-]. split; [congruence|]. exists 0%nat.
      split; [lia|]. split; [simpl; congruence | assumption].
    + pose proof (clock_keeps w2) as (_ & Hi3 & Ho3).
      destruct (clock perf_counter w2) as [stop w3]. simpl in Hi3, Ho3.
      intros Hrest. apply IH in Hrest as [Ho Hrest].
      split; [congruence|]. rewrite Hi3, Hi2, Hi1 in Hrest.
      destruct out as [f|all_times].
      * destruct Hrest as (k & Hk & Hinv & Hf'). exists (S k).
        split; [lia|]. split; [|assumption].
        rewrite Hinv, <- app_assoc. reflexivity.
      * destruct Hrest as (new & -> & Hlen & Hinv).
        exists (sub stop start :: new). rewrite <- app_assoc.
        split; [reflexivity|]. split; [simpl; lia|].
        rewrite Hinv, <- app_assoc. reflexivity.
Qed.

(** X23. A result of the reference encoder carries the size read from
    the name of the input file and one time per requested run; the
    encoder was run exactly that often, with the same command; the
    compressed size is the length of the file then found at the output
    path, and is absent when no file is there. *)
Theorem reference_encode_result (input_file output_file : string) (runs : Z)
    (w w' : @World Ext) (r : BenchmarkResult) :
  run_openjpeg_encode exec perf_counter int_max_str_digits unicode_int
    input_file output_file runs w = (inr r, w') →
  implementation r = "OpenJPEG" ∧ operation r = "encode"
  ∧ image_size_of int_max_str_digits unicode_int input_file
    = inr (image_size r)
  ∧ length (times r) = Z.to_nat runs
  ∧ invoked w'
    = invoked w
      ++ replicate (Z.to_nat runs) (compress_argv input_file output_file)
  ∧ compressed_size r = st_size (fs w') output_file
  ∧ stdout w' = stdout w.
Proof.
  unfold run_openjpeg_encode.
  destruct (image_size_of _ _ input_file) as [f|size]; [discriminate|].
  destruct (timed_runs _ _ _ _ _ w) as [[f|all_times] w''] eqn:Hruns;
    [discriminate|].
  intros [= <- <-]. apply timed_runs_cases in Hruns as [Ho Hruns].
  destruct Hruns as (new & -> & Hlen & Hinv). simpl. auto 10.
Qed.

(** X24. A result of the reference decoder carries the size read from
    the name of the encoded file and one time per requested run, the
    decoder having run exactly that often; it never carries a
    compressed size. *)
Theorem reference_decode_result (input_file output_file : string) (runs : Z)
    (w w' : @World Ext) (r : BenchmarkResult) :
  run_openjpeg_decode exec perf_counter int_max_str_digits unicode_int
    input_file output_file runs w = (inr r, w') →
  implementation r = "OpenJPEG" ∧ operation r = "decode"
  ∧ image_size_of int_max_str_digits unicode_int input_file
    = inr (image_size r)
  ∧ length (times r) = Z.to_nat runs
  ∧ invoked w'
    = invoked w
      ++ replicate (Z.to_nat runs) (decompress_argv input_file output_file)
  ∧ compressed_size r = None
  ∧ stdout w' = stdout w.
Proof.
  unfold run_openjpeg_decode.
  destruct (image_size_of _ _ input_file) as [f|size]; [discriminate|].
  destruct (timed_runs _ _ _ _ _ w) as [[f|all_times] w''] eqn:Hruns;
    [discriminate|].
  intros [= <- <-]. apply timed_runs_cases in Hruns as [Ho Hruns].
  destruct Hruns as (new & -> & Hlen & Hinv). simpl. auto 10.
Qed.

(** X25. When an adapter of the reference implementation fails, either
    the size could not be read from the file name and no command was
    run, or a run of the command failed: that run was the last, at most
    the requested number of runs were made, and a return code it
    reports is not zero. No partial result is returned. *)
Theorem reference_adapter_failure (input_file output_file : string)
    (runs : Z) (w w' : @World Ext) (f : failure) :
  run_openjpeg_encode exec perf_counter int_max_str_digits unicode_int
    input_file output_file runs w = (inl f, w')
  ∨ run_openjpeg_decode exec perf_counter int_max_str_digits unicode_int
      input_file output_file runs w = (inl f, w') →
  (image_size_of int_max_str_digits unicode_int input_file = inl f ∧ w' = w)
  ∨ ∃ (k : nat) argv,
      (argv = compress_argv input_file output_file
       ∨ argv = decompress_argv input_file output_file)
      ∧ (k < Z.to_nat runs)%nat
      ∧ invoked w' = invoked w ++ replicate (S k) argv
      ∧ command_failure f.
Proof.
  unfold run_openjpeg_encode, run_openjpeg_decode.
  destruct (image_size_of _ _ input_file) as [f'|size].
  { intros [[= <- <-]|[= <- <-]]; left; auto. }
  intros [H|H]; right.
  - destruct (timed_runs _ _ _ _ _ w) as [[f'|all_times] w''] eqn:Hruns;
      [|discriminate].
    injection H as <- <-. apply timed_runs_cases in Hruns as [_ Hruns].
    destruct Hruns as (k & Hk & Hinv & Hf).
    exists k, (compress_argv input_file output_file). auto.
  - destruct (timed_runs _ _ _ _ _ w) as [[f'|all_times] w''] eqn:Hruns;
      [|discriminate].
    injection H as <- <-. apply timed_runs_cases in Hruns as [_ Hruns].
    destruct Hruns as (k & Hk & Hinv & Hf).
    exists k, (decompress_argv input_file output_file). auto.
Qed.

End ReferenceFacts.

Lemma reference_encode_result_witness :
  match run_openjpeg_encode encoding_exec ticking_clock 4300
          (λ _, Raise ValueError) "imgs/test_256x256.pgm" "out.j2k" 3
          (mkWorld ∅ O [] []) with
  | (inr r, _) =>
    image_size r = 256 ∧ length (times r) = 3%nat
    ∧ compressed_size r = Some 3
  | (inl _, _) => False
  end.
Proof.
  destruct (run_openjpeg_encode encoding_exec ticking_clock 4300
              (λ _, Raise ValueError) "imgs/test_256x256.pgm" "out.j2k" 3
              (mkWorld ∅ O [] [])) as [[f|r] w'] eqn:H.
  - vm_compute in H. discriminate.
  - destruct (reference_encode_result _ _ _ _ _ _ _ _ _ _ H)
      as (_ & _ & Hsize & Hcount & _ & Hcompressed & _).
    vm_compute in H. injection H as <- <-.
    split; [|split].
    + clear Hsize. reflexivity.
    + exact Hcount.
    + rewrite Hcompressed. vm_compute. reflexivity.
Defined.

Lemma reference_decode_result_witness :
  match run_openjpeg_decode encoding_exec ticking_clock 4300
          (λ _, Raise ValueError) "opj/test_256x256.j2k" "decoded.pgm" 3
          (mkWorld ∅ O [] []) with
  | (inr r, _) => length (times r) = 3%nat ∧ compressed_size r = None
  | (inl _, _) => False
  end.
Proof.
  destruct (run_openjpeg_decode encoding_exec ticking_clock 4300
              (λ _, Raise ValueError) "opj/test_256x256.j2k" "decoded.pgm" 3
              (mkWorld ∅ O [] [])) as [[f|r] w'] eqn:H.
  - vm_compute in H. discriminate.
  - destruct (reference_decode_result _ _ _ _ _ _ _ _ _ _ H)
      as (_ & _ & _ & Hcount & _ & Hcompressed & _).
    split; [exact Hcount | exact Hcompressed].
Defined.

Lemma reference_adapter_failure_witness :
  match run_openjpeg_encode flaky_exec ticking_clock 4300
          (λ _, Raise ValueError) "imgs/test_256x256.pgm" "out.j2k" 3
          (mkWorld ∅ O [] []) with
  | (inl f, w') =>
    ∃ k, invoked w'
         = replicate (S k) (compress_argv "imgs/test_256x256.pgm" "out.j2k")
  | (inr _, _) => False
  end.
Proof.
  destruct (run_openjpeg_encode flaky_exec ticking_clock 4300
              (λ _, Raise ValueError) "imgs/test_256x256.pgm" "out.j2k" 3
              (mkWorld ∅ O [] [])) as [[f|r] w'] eqn:H.
  - destruct (reference_adapter_failure _ _ _ _ _ _ _ _ _ _ (or_introl H))
      as [[Hname _]|(k & argv & [->| ->] & _ & Hinv & _)].
    + vm_compute in Hname. discriminate.
    + exists k. exact Hinv.
    + vm_compute in H. injection H as _ <-.
      destruct k as [|[|k]]; vm_compute in Hinv; discriminate.
  - vm_compute in H. discriminate.
Defined.

(** ** profile_encoder.py: [run_profiling_test] *)

Section ProfilingFacts.
Context {Ext : Type}.
Variable exec : list string → gmap string string → Ext
                → result Z * gmap string string * Ext.
Variable json_loads : string → result value.
Variable perf_counter : Ext → float * Ext.
Variable str_exn : exn → string.
Variable captured_stderr : Ext → string.

(** X26. A profiling run runs the tool exactly once. It returns a
    document only when the file at the output path parses to a JSON
    object, and then that object with the wall time added, which is
    never an empty document; it returns nothing, after printing one
    more line that says why, in every other case in which the tool
    could be run; it raises only what running the tool raised. *)
Theorem profiling_run_outcome
    (cli_path input_path output_dir preset : string) (runs : Z)
    (w w' : @World Ext) (r : result (option value)) :
  run_profiling_test exec json_loads perf_counter str_exn captured_stderr
    cli_path input_path output_dir preset runs w = (r, w') →
  invoked w'
  = invoked w ++ [profile_argv cli_path input_path output_dir preset runs]
  ∧ match r with
    | Ok (Some doc) =>
      ∃ d text elapsed,
        fs w' !! profile_output input_path output_dir preset = Some text
        ∧ json_loads text = Ok (VDict d)
        ∧ doc = VDict (<["total_wall_time" := VFloat elapsed]> d)
        ∧ value_truthy doc = true
        ∧ length (stdout w') = S (length (stdout w))
    | Ok None => length (stdout w') = S (S (length (stdout w)))
    | Raise e =>
      ∃ ext0,
        (exec (profile_argv cli_path input_path output_dir preset runs)
              (fs w) ext0).1.1 = Raise e
    end.
Proof.
  unfold run_profiling_test, bind, print, clock, subprocess_run, catch,
    json_load, lift, ret. simpl.
  destruct (perf_counter (ext w)) as [start ext1]. simpl.
  destruct (exec _ (fs w) ext1) as [[[rc|e] files] ext2] eqn:Hexec; simpl.
  - destruct (perf_counter ext2) as [stop ext3]. simpl.
    destruct (rc =? 0); simpl.
    + destruct (files !! _) as [text|] eqn:Htext; simpl.
      * destruct (json_loads text) as [data|e] eqn:Hdata; simpl.
        -- destruct data as [| | | | | |d]; simpl;
             intros [= <- <-]; simpl;
             try (split; [reflexivity|]; rewrite !length_app; simpl; lia).
           split; [reflexivity|]. exists d, text, (sub stop start).
           split; [assumption|]. split; [assumption|].
           split; [reflexivity|]. split.
           ++ apply negb_true_iff, bool_decide_eq_false. apply insert_non_empty.
           ++ rewrite length_app. simpl. lia.
        -- intros [= <- <-]. simpl. split; [reflexivity|].
           rewrite !length_app. simpl. lia.
      * intros [= <- <-]. simpl. split; [reflexivity|].
        rewrite !length_app. simpl. lia.
    + intros [= <- <-]. simpl. split; [reflexivity|].
      rewrite !length_app. simpl. lia.
  - intros [= <- <-]. simpl. split; [reflexivity|].
    exists ext1. now rewrite Hexec.
Qed.

End ProfilingFacts.

Lemma profiling_run_outcome_witness :
  match run_profiling_test profiling_exec one_document ticking_clock
          plain_exn (λ _, EmptyString) "j2k" "imgs/test_256x256.pgm" "out"
          "balanced" 5 (mkWorld ∅ O [] []) with
  | (Ok (Some doc), w') =>
    value_truthy doc = true
    ∧ invoked w'
      = [profile_argv "j2k" "imgs/test_256x256.pgm" "out" "balanced" 5]
  | _ => False
  end.
Proof.
  destruct (run_profiling_test profiling_exec one_document ticking_clock
              plain_exn (λ _, EmptyString) "j2k" "imgs/test_256x256.pgm"
              "out" "balanced" 5 (mkWorld ∅ O [] []))
    as [[[doc|]|e] w'] eqn:H.
  - destruct (profiling_run_outcome _ _ _ _ _ _ _ _ _ _ _ _ _ H)
      as (Hinv & d & text & elapsed & _ & _ & _ & Htruthy & _).
    split; [exact Htruthy | exact Hinv].
  - vm_compute in H. discriminate.
  - vm_compute in H. discriminate.
Defined.
